(** * View synchronisation of the tree map (src/App.jsx)

    A shallow embedding of the logic of [App.jsx]: the cluster expansion
    adapter ([getClusterFeatures]), the visible-tree aggregation
    ([updateVisibleTrees]), the highlight synchronisation ([highlightTree],
    [handleTreeListClick]), the mutation handlers ([handleAddTreeSubmit],
    [removeTree]), the long-press recogniser ([startPress], [endPress],
    [handleLongPress]) and the event loop that runs them.

    JavaScript values are modelled as follows: a property that may be
    [undefined] is an [option]; [null] for the highlighted tree and for the
    answer of [window.prompt] is [None]; numbers that are identifiers are
    [Z]; coordinates are carried, never computed with, and are pairs of
    [Z]; times are milliseconds in [nat]; a settled promise is a [Promise]
    value, [Resolved] or [Rejected]; an object used as a dictionary is the
    list of its own properties in insertion order.  What the rendering
    engine, the remote API and the browser answer is an argument of the
    function that asks.  The calls a handler makes are recorded in a list,
    latest last. *)

From Stdlib Require Import ZArith NArith Ascii String Permutation Sorted.
From stdpp Require Import base list strings gmap.

Open Scope string_scope.
Open Scope list_scope.
Open Scope Z_scope.

(** ** Features of the rendering engine *)

Record Properties := mkProperties {
  location_id : option Z;
  common_name : option string;
  cluster : bool;
  cluster_id : option Z;
  point_count : option Z
}.

Record Feature := mkFeature { properties : Properties }.

Global Instance Properties_eq_dec : EqDecision Properties.
Proof. solve_decision. Defined.

Global Instance Feature_eq_dec : EqDecision Feature.
Proof. solve_decision. Defined.

(** An unclustered point, as [treeToFeature] produces them, and a cluster as
    the clustered source produces them. *)
Definition point_feature (id : Z) (name : string) : Feature :=
  mkFeature (mkProperties (Some id) (Some name) false None None).

Definition cluster_feature (cid count : Z) : Feature :=
  mkFeature (mkProperties None None true (Some cid) (Some count)).

(** ** Settled promises *)

Inductive Error :=
| ClusterExpansionError (msg : string)
| TypeError (msg : string)
| NetworkError (msg : string).

Inductive Promise (A : Type) :=
| Resolved (a : A)
| Rejected (e : Error).
Arguments Resolved {A} a.
Arguments Rejected {A} e.

Global Instance Promise_ret : MRet Promise := @Resolved.
Global Instance Promise_bind : MBind Promise := fun A B f p =>
  match p with
  | Resolved a => f a
  | Rejected e => Rejected e
  end.

Definition is_resolved {A} (p : Promise A) : bool :=
  match p with Resolved _ => true | Rejected _ => false end.

(** ** Filters of the style specification

    Only the legacy filters that [App.jsx] writes are modelled:
    [["has", key]], [["!", f]] and [["in", key, v1, ..., vn]]. *)

Inductive JsVal :=
| JUndefined
| JStr (s : string)
| JNum (z : Z)
| JBool (b : bool).

Global Instance JsVal_eq_dec : EqDecision JsVal.
Proof. solve_decision. Defined.

Inductive LayerFilter :=
| Has (key : string)
| Not (f : LayerFilter)
| In_ (key : string) (values : list JsVal).

(** The properties of a feature that the filters of [App.jsx] read. *)
Definition property (key : string) (f : Feature) : option JsVal :=
  let p := properties f in
  if decide (key = "location_id") then JNum <$> location_id p
  else if decide (key = "common_name") then JStr <$> common_name p
  else if decide (key = "cluster") then (if cluster p then Some (JBool true) else None)
  else if decide (key = "cluster_id") then JNum <$> cluster_id p
  else if decide (key = "point_count") then JNum <$> point_count p
  else None.

Fixpoint matches (flt : LayerFilter) (f : Feature) : bool :=
  match flt with
  | Has key => bool_decide (is_Some (property key f))
  | Not g => negb (matches g f)
  | In_ key values =>
      match property key f with
      | Some v => bool_decide (v ∈ values)
      | None => false
      end
  end.

(** ** The map object

    [queryRenderedFeatures] and [getClusterLeaves] belong to the rendering
    engine and are taken as they are; [filter_of] is the filter of each
    layer, written by [setFilter]. *)

Inductive LeavesCallback :=
| LeavesError (error : Error)
| LeavesOk (leaves : option (list Feature)).

Record Map := mkMap {
  queryRenderedFeatures : list string -> list Feature;
  queryRenderedFeaturesAt : Z * Z -> list string -> list Feature;
  getClusterLeaves : option Z -> LeavesCallback;
  filter_of : string -> option LayerFilter
}.

(** [map.setFilter(layer, filter)].  [App.jsx] sets the filters of the two
    overlay layers only, and asks for the rendered features of the
    [clusters] and [unclustered-point] layers only, whose filters it never
    changes.  What an overlay layer draws is read from [filter_of], not from
    [queryRenderedFeatures], which is to be asked about those two layers. *)
Definition setFilter (layer : string) (flt : LayerFilter) (map : Map) : Map :=
  mkMap (queryRenderedFeatures map) (queryRenderedFeaturesAt map)
        (getClusterLeaves map)
        (fun l => if decide (l = layer) then Some flt else filter_of map l).

(** [getClusterFeatures], lines 65-76: the promise rejects with the error of
    the callback and otherwise resolves with [leaves || []]. *)
Definition getClusterFeatures (map : Map) (clusterId : option Z)
  : Promise (list Feature) :=
  match getClusterLeaves map clusterId with
  | LeavesError error => Rejected error
  | LeavesOk leaves => Resolved (default [] leaves)
  end.

(** [addTreeLayers], lines 12-63: the filter each layer is created with. *)
Definition layer_filters : list (string * LayerFilter) :=
  [ ("clusters", Has "point_count");
    ("highlighted-cluster", In_ "cluster_id" [JStr ""]);
    ("cluster-count", Has "point_count");
    ("unclustered-point", Not (Has "point_count"));
    ("highlighted-point", In_ "common_name" [JStr ""]) ].

Definition addTreeLayers (map : Map) : Map :=
  fold_left (fun m layer => setFilter layer.1 layer.2 m) layer_filters map.

(** ** The [groups] object of the aggregation

    [groups] starts as [{}] and is used as a dictionary from names to
    arrays.  Its own properties are kept in insertion order.  A name that
    [Object.prototype] defines is found on the prototype: [groups[name]] is
    then truthy and has no [push]. *)

Abbreviation Groups := (list (string * list Feature)).

Definition Object_prototype_keys : list string :=
  [ "constructor"; "__defineGetter__"; "__defineSetter__"; "hasOwnProperty";
    "__lookupGetter__"; "__lookupSetter__"; "isPrototypeOf";
    "propertyIsEnumerable"; "toString"; "valueOf"; "__proto__";
    "toLocaleString" ].

Inductive Got :=
| Own (trees : list Feature)
| Inherited
| Undefined.

Fixpoint own (groups : Groups) (key : string) : option (list Feature) :=
  match groups with
  | [] => None
  | (k, v) :: rest => if decide (k = key) then Some v else own rest key
  end.

Definition get (groups : Groups) (key : string) : Got :=
  match own groups key with
  | Some v => Own v
  | None => if decide (key ∈ Object_prototype_keys) then Inherited else Undefined
  end.

(** [groups[key].push(x)] on an own property. *)
Fixpoint push (groups : Groups) (key : string) (x : Feature) : Groups :=
  match groups with
  | [] => []
  | (k, v) :: rest =>
      if decide (k = key) then (k, v ++ [x]) :: rest
      else (k, v) :: push rest key x
  end.

(** The property key that a value of [common_name] is converted to. *)
Definition to_key (name : option string) : string :=
  match name with Some s => s | None => "undefined" end.

(** The body of the [forEach] of lines 87-90 for one feature. *)
Definition record (cluster : Feature) (groups : Groups) (feature : Feature)
  : Promise Groups :=
  let key := to_key (common_name (properties feature)) in
  match get groups key with
  | Undefined => Resolved (groups ++ [(key, [cluster])])
  | Own _ => Resolved (push groups key cluster)
  | Inherited => Rejected (TypeError "groups[common_name].push is not a function")
  end.

Fixpoint forEach_record (cluster : Feature) (features : list Feature)
  (groups : Groups) : Promise Groups :=
  match features with
  | [] => Resolved groups
  | feature :: rest =>
      groups' ← record cluster groups feature;
      forEach_record cluster rest groups'
  end.

(** The reducer of lines 84-92.  An element of the array is [None] when
    [Array.prototype.find] returned [undefined]. *)
Definition reducer (map : Map) (groupsPromise : Promise Groups)
  (element : option Feature) : Promise Groups :=
  groups ← groupsPromise;
  match element with
  | None => Rejected (TypeError "cannot read properties of undefined")
  | Some c =>
      features ← (if cluster (properties c)
                  then getClusterFeatures map (cluster_id (properties c))
                  else Resolved [c]);
      forEach_record c features groups
  end.

(** [Array.from(new Set(xs))]: the distinct values in order of first
    occurrence. *)
Fixpoint Array_from_Set {A} `{EqDecision A} (xs : list A) : list A :=
  match xs with
  | [] => []
  | x :: rest => x :: filter (fun y => y ≠ x) (Array_from_Set rest)
  end.

(** [xs.find(p)]. *)
Definition Array_find {A} (p : A -> bool) (xs : list A) : option A :=
  List.find p xs.

(** The features that one pass walks over, lines 79-83. *)
Definition rendered (map : Map) : list (option Feature) :=
  let trees := queryRenderedFeatures map ["unclustered-point"] in
  let trees :=
    (fun id => Array_find
       (fun feature => bool_decide (location_id (properties feature) = id)) trees)
    <$> Array_from_Set (location_id ∘ properties <$> trees) in
  let clusters := queryRenderedFeatures map ["clusters"] in
  trees ++ (Some <$> clusters).

(** ** [Object.entries] and [Array.prototype.sort] *)

Definition digit (a : ascii) : option N :=
  let n := N_of_ascii a in
  if ((48 <=? n) && (n <=? 57))%N then Some (n - 48)%N else None.

Fixpoint digits (s : string) (acc : N) : option N :=
  match s with
  | EmptyString => Some acc
  | String a rest => d ← digit a; digits rest (10 * acc + d)%N
  end.

(** A key is an array index when it is the canonical decimal form of an
    integer below [2^32 - 1]. *)
Definition array_index (key : string) : option N :=
  match key with
  | EmptyString => None
  | String a rest =>
      if decide (a = "0"%char) then
        (if decide (rest = EmptyString) then Some 0%N else None)
      else
        n ← digits key 0;
        if (n <? 2 ^ 32 - 1)%N then Some n else None
  end.

(** A stable sort with a comparator that returns a number: [x] goes in front
    of the first [y] with [compare x y <= 0]. *)
Fixpoint insert_sorted {A} (compare : A -> A -> Z) (x : A) (l : list A) : list A :=
  match l with
  | [] => [x]
  | y :: rest =>
      if bool_decide (compare x y ≤ 0) then x :: y :: rest
      else y :: insert_sorted compare x rest
  end.

Definition Array_sort {A} (compare : A -> A -> Z) (l : list A) : list A :=
  foldr (insert_sorted compare) [] l.

(** [Object.entries(o)]: the array indices in ascending order, then the
    other keys in insertion order. *)
Definition Object_entries (o : Groups) : list (string * list Feature) :=
  let indexed := omap (fun kv => (fun n => (n, kv)) <$> array_index kv.1) o in
  let others := filter (fun kv => array_index kv.1 = None) o in
  (snd <$> Array_sort (fun a b => Z.of_N a.1 - Z.of_N b.1) indexed) ++ others.

(** ** [updateVisibleTrees], lines 78-95 *)

Abbreviation Entries := (list (string * list Feature)).

Definition by_length_desc (a b : string * list Feature) : Z :=
  Z.of_nat (length b.2) - Z.of_nat (length a.2).

(** The argument that [setVisibleTrees] is called with, if the pass gets
    that far. *)
Definition visible_trees (map : Map) : Promise Entries :=
  groupedTrees ← fold_left (reducer map) (rendered map) (Resolved []);
  Resolved (Array_sort by_length_desc (Object_entries groupedTrees)).

Definition updateVisibleTrees {S} (map : Map)
  (setVisibleTrees : Entries -> S -> S) (st : S) : S * Promise unit :=
  match visible_trees map with
  | Resolved entries => (setVisibleTrees entries st, Resolved ())
  | Rejected e => (st, Rejected e)
  end.

(** ** [highlightTree], lines 149-167 *)

(** Truthiness of a value that is [null] or a string. *)
Definition truthy (s : option string) : bool :=
  match s with
  | Some s => negb (bool_decide (s = ""))
  | None => false
  end.

Definition js_num (z : option Z) : JsVal :=
  match z with Some z => JNum z | None => JUndefined end.

(** [leaves.some(leaf => leaf.properties.common_name === treeName)]. *)
Definition some_named (treeName : string) (leaves : list Feature) : bool :=
  existsb (fun leaf => bool_decide (common_name (properties leaf) = Some treeName))
          leaves.

(** The [for ... of] loop of lines 154-160, one cluster after the other. *)
Fixpoint highlight_loop (map : Map) (treeName : string)
  (allClusters : list Feature) (clusterIdsToHighlight : list (option Z))
  : Promise (list (option Z)) :=
  match allClusters with
  | [] => Resolved clusterIdsToHighlight
  | c :: rest =>
      let clusterId := cluster_id (properties c) in
      leaves ← getClusterFeatures map clusterId;
      highlight_loop map treeName rest
        (if some_named treeName leaves
         then clusterIdsToHighlight ++ [clusterId]
         else clusterIdsToHighlight)
  end.

Definition no_point : LayerFilter := In_ "common_name" [JStr ""].
Definition no_cluster : LayerFilter := In_ "cluster_id" [JStr ""].

(** The function on the current value of [mapRef]: the new value and how the
    returned promise settles. *)
Definition highlightTree (mapRef : option Map) (treeName : option string)
  : option Map * Promise unit :=
  match mapRef with
  | Some map =>
      match treeName with
      | Some name =>
          if truthy treeName then
            let allClusters := queryRenderedFeatures map ["clusters"] in
            match highlight_loop map name allClusters [] with
            | Resolved clusterIdsToHighlight =>
                let map := setFilter "highlighted-point"
                             (In_ "common_name" [JStr name]) map in
                let map := setFilter "highlighted-cluster"
                             (In_ "cluster_id" (js_num <$> clusterIdsToHighlight)) map in
                (Some map, Resolved ())
            | Rejected e => (Some map, Rejected e)
            end
          else
            (Some (setFilter "highlighted-cluster" no_cluster
                     (setFilter "highlighted-point" no_point map)), Resolved ())
      | None =>
          (Some (setFilter "highlighted-cluster" no_cluster
                   (setFilter "highlighted-point" no_point map)), Resolved ())
      end
  | None => (None, Rejected (TypeError "cannot read properties of null"))
  end.

(** ** The entity collection and its two mutations *)

Record FeatureCollection := mkCollection {
  features : list Feature;
  other_fields : list (string * JsVal)
}.

(** The form's candidate; [sendAddLocation] is given these seven fields. *)
Record NewTree := mkNewTree {
  tree_id : Z;
  latin_name : string;
  new_common_name : string;
  latitude : Z;
  longitude : Z;
  source : string;
  is_native : bool
}.

Inductive Call :=
| Call_sendAddLocation (payload : NewTree)
| Call_sendRemoveLocation (locationId : Z) (removedBy : string)
| Call_prompt (message : string)
| Call_alert (message : string)
| Call_console_error (message : string)
| Call_highlightTree (treeName : option string)
| Call_updateVisibleTrees
| Call_handleLongPress (lngLat : Z * Z).

Global Instance NewTree_eq_dec : EqDecision NewTree.
Proof. solve_decision. Defined.

Global Instance Call_eq_dec : EqDecision Call.
Proof. solve_decision. Defined.

(** What a mutation handler touches: the collection, the form flag and the
    calls it made, latest last. *)
Record Mutation := mkMutation {
  m_treeLocations : FeatureCollection;
  m_isFormVisible : bool;
  m_calls : list Call
}.

(** [handleAddTreeSubmit] suspended at its [await]: the payload it has sent
    and [treeLocations], the constant of the render whose handler was
    called, which lines 140-141 read after the answer. *)
Record AddPending := mkAddPending {
  add_payload : NewTree;
  add_treeLocations : FeatureCollection
}.

Section Api.
(** [treeToFeature] and the record the server answers with come from
    [./api]. *)
Context {Tree : Type} (treeToFeature : Tree -> Feature).

(** [handleAddTreeSubmit], lines 128-147, when the answer comes before
    anything else happens; [sendAddLocation] is the answer of the remote API
    to the payload.  The collection in the closure is then the collection
    of the state. *)
Definition handleAddTreeSubmit (sendAddLocation : NewTree -> Promise Tree)
  (newTree : NewTree) (st : Mutation) : Mutation :=
  let payload :=
    mkNewTree (tree_id newTree) (latin_name newTree) (new_common_name newTree)
              (latitude newTree) (longitude newTree) (source newTree)
              (is_native newTree) in
  let treeLocations := m_treeLocations st in
  let calls := m_calls st ++ [Call_sendAddLocation payload] in
  match sendAddLocation payload with
  | Resolved addedTree =>
      mkMutation
        (mkCollection (features treeLocations ++ [treeToFeature addedTree])
                      (other_fields treeLocations))
        false calls
  | Rejected error =>
      mkMutation treeLocations (m_isFormVisible st)
                 (calls ++ [Call_console_error "Error adding new tree:"])
  end.

(** *** The same handler at the grain of its [await]

    The handler is suspended at [await sendAddLocation(...)], and other
    handlers run before the answer comes. *)

(** Lines 129-138, up to the [await], called in state [st]. *)
Definition handleAddTreeSubmit_call (newTree : NewTree) (st : Mutation)
  : Mutation * AddPending :=
  let payload :=
    mkNewTree (tree_id newTree) (latin_name newTree) (new_common_name newTree)
              (latitude newTree) (longitude newTree) (source newTree)
              (is_native newTree) in
  (mkMutation (m_treeLocations st) (m_isFormVisible st)
              (m_calls st ++ [Call_sendAddLocation payload]),
   mkAddPending payload (m_treeLocations st)).

(** Lines 139-146, from the answer on, in the state [st] of that moment. *)
Definition handleAddTreeSubmit_resume (pending : AddPending)
  (answer : Promise Tree) (st : Mutation) : Mutation :=
  let treeLocations := add_treeLocations pending in
  match answer with
  | Resolved addedTree =>
      mkMutation
        (mkCollection (features treeLocations ++ [treeToFeature addedTree])
                      (other_fields treeLocations))
        false (m_calls st)
  | Rejected error =>
      mkMutation (m_treeLocations st) (m_isFormVisible st)
                 (m_calls st ++ [Call_console_error "Error adding new tree:"])
  end.
End Api.

(** [removeTree], lines 287-301, when the popup was opened in the state the
    function is called in and the answer comes before anything else
    happens; [prompt] is the answer of [window.prompt] ([None] when the
    dialog is cancelled) and [sendRemoveLocation] the answer of the remote
    API.  The returned promise rejects when the remote call does. *)
Definition removeTree (prompt : option string)
  (sendRemoveLocation : Z -> string -> Promise unit)
  (locationId : Z) (st : Mutation) : Mutation * Promise unit :=
  let treeLocations := m_treeLocations st in
  let calls := m_calls st ++ [Call_prompt "Please enter your name to confirm removal:"] in
  if negb (truthy prompt) then
    (mkMutation treeLocations (m_isFormVisible st)
                (calls ++ [Call_alert "Removal canceled."]), Resolved ())
  else
    let removedBy := default "" prompt in
    let calls := calls ++ [Call_sendRemoveLocation locationId removedBy] in
    match sendRemoveLocation locationId removedBy with
    | Resolved _ =>
        let updatedFeatures :=
          filter (fun feature => location_id (properties feature) ≠ Some locationId)
                 (features treeLocations) in
        (mkMutation (mkCollection updatedFeatures (other_fields treeLocations))
                    (m_isFormVisible st) calls, Resolved ())
    | Rejected error =>
        (mkMutation treeLocations (m_isFormVisible st) calls, Rejected error)
    end.

(** *** [removeTree] at the grain of its [await]

    The effect of lines 286-362 runs again whenever [treeLocations] changes,
    and each run makes a [removeTree] and a [createTreePopup] of its own.
    [createTreePopup] puts a listener on the close button of the popup it
    opens (lines 339-342): the [removeTree] of its run, with the
    [location_id] of the feature the popup is for.  So [treeLocations] in
    lines 294-299 is the collection of the state in which the popup was
    opened. *)
Record CloseListener := mkCloseListener {
  close_locationId : Z;
  close_treeLocations : FeatureCollection
}.

(** The listener of a popup opened in state [st] for [locationId]. *)
Definition close_listener (locationId : Z) (st : Mutation) : CloseListener :=
  mkCloseListener locationId (m_treeLocations st).

(** [removeTree] suspended at its [await]. *)
Record RemovePending := mkRemovePending {
  remove_locationId : Z;
  remove_treeLocations : FeatureCollection
}.

(** Lines 288-293, up to the [await], when the close button is clicked in
    state [st]; nothing is pending when the prompt was not answered. *)
Definition removeTree_call (listener : CloseListener) (prompt : option string)
  (st : Mutation) : Mutation * option RemovePending :=
  let locationId := close_locationId listener in
  let calls := m_calls st ++ [Call_prompt "Please enter your name to confirm removal:"] in
  if negb (truthy prompt) then
    (mkMutation (m_treeLocations st) (m_isFormVisible st)
                (calls ++ [Call_alert "Removal canceled."]), None)
  else
    let removedBy := default "" prompt in
    (mkMutation (m_treeLocations st) (m_isFormVisible st)
                (calls ++ [Call_sendRemoveLocation locationId removedBy]),
     Some (mkRemovePending locationId (close_treeLocations listener))).

(** Lines 294-300, from the answer on, in the state [st] of that moment. *)
Definition removeTree_resume (pending : RemovePending) (answer : Promise unit)
  (st : Mutation) : Mutation * Promise unit :=
  let treeLocations := remove_treeLocations pending in
  let locationId := remove_locationId pending in
  match answer with
  | Resolved _ =>
      let updatedFeatures :=
        filter (fun feature => location_id (properties feature) ≠ Some locationId)
               (features treeLocations) in
      (mkMutation (mkCollection updatedFeatures (other_fields treeLocations))
                  (m_isFormVisible st) (m_calls st), Resolved ())
  | Rejected error => (st, Rejected error)
  end.

(** ** [handleTreeListClick], lines 169-175 *)

Record Highlight := mkHighlight {
  h_mapRef : option Map;
  h_highlightedTree : option string;
  h_calls : list Call
}.

(** [highlightedTree] is set at once; [h_mapRef] is the map when the call
    of [highlightTree], which line 174 does not await, has settled.  With no
    rendered cluster, or when the highlight is cleared, that call has no
    [await] and has settled when the handler returns. *)
Definition handleTreeListClick (treeName : string) (st : Highlight) : Highlight :=
  let treeName :=
    if decide (Some treeName = h_highlightedTree st) then None else Some treeName in
  mkHighlight (highlightTree (h_mapRef st) treeName).1
              treeName
              (h_calls st ++ [Call_highlightTree treeName]).

(** ** The event loop: timers, pointer events, viewport events

    Handlers run one at a time.  A timer registered by [setTimeout] or by
    the debounced function runs when the clock has reached its due time and
    before any event with that or a later time stamp; [clearTimeout] removes
    it.  An [async] handler is run up to its settlement in the step that
    starts it; the interleaving of aggregation passes at their [await]s is
    modelled separately below. *)

Record PressEvent := mkPressEvent {
  point : Z * Z;
  lngLat : Z * Z
}.

Inductive Task :=
| Task_handleLongPress (event : PressEvent)
| Task_updateMap (treeName : option string).

Record Timer := mkTimer {
  timer_id : nat;
  due : nat;
  task : Task
}.

Record Loop := mkLoop {
  mapRef : option Map;
  longPressTimeoutRef : option nat;
  debounceTimer : option nat;
  highlightedTree : option string;
  visibleTrees : Entries;
  newTreeCoordinates : option (Z * Z);
  isFormVisible : bool;
  popupOpen : bool;
  mapLoaded : bool;
  dataLoaded : bool;
  layersLoaded : bool;
  idleOnce : bool;
  now : nat;
  timers : list Timer;
  nextTimer : nat;
  calls : list Call
}.

Definition set_mapRef v (s : Loop) : Loop :=
  mkLoop v (longPressTimeoutRef s) (debounceTimer s) (highlightedTree s)
    (visibleTrees s) (newTreeCoordinates s) (isFormVisible s) (popupOpen s)
    (mapLoaded s) (dataLoaded s) (layersLoaded s) (idleOnce s) (now s)
    (timers s) (nextTimer s) (calls s).
Definition set_longPressTimeoutRef v (s : Loop) : Loop :=
  mkLoop (mapRef s) v (debounceTimer s) (highlightedTree s)
    (visibleTrees s) (newTreeCoordinates s) (isFormVisible s) (popupOpen s)
    (mapLoaded s) (dataLoaded s) (layersLoaded s) (idleOnce s) (now s)
    (timers s) (nextTimer s) (calls s).
Definition set_debounceTimer v (s : Loop) : Loop :=
  mkLoop (mapRef s) (longPressTimeoutRef s) v (highlightedTree s)
    (visibleTrees s) (newTreeCoordinates s) (isFormVisible s) (popupOpen s)
    (mapLoaded s) (dataLoaded s) (layersLoaded s) (idleOnce s) (now s)
    (timers s) (nextTimer s) (calls s).
Definition setHighlightedTree v (s : Loop) : Loop :=
  mkLoop (mapRef s) (longPressTimeoutRef s) (debounceTimer s) v
    (visibleTrees s) (newTreeCoordinates s) (isFormVisible s) (popupOpen s)
    (mapLoaded s) (dataLoaded s) (layersLoaded s) (idleOnce s) (now s)
    (timers s) (nextTimer s) (calls s).
Definition setVisibleTrees v (s : Loop) : Loop :=
  mkLoop (mapRef s) (longPressTimeoutRef s) (debounceTimer s) (highlightedTree s)
    v (newTreeCoordinates s) (isFormVisible s) (popupOpen s)
    (mapLoaded s) (dataLoaded s) (layersLoaded s) (idleOnce s) (now s)
    (timers s) (nextTimer s) (calls s).
Definition setNewTreeCoordinates v (s : Loop) : Loop :=
  mkLoop (mapRef s) (longPressTimeoutRef s) (debounceTimer s) (highlightedTree s)
    (visibleTrees s) v (isFormVisible s) (popupOpen s)
    (mapLoaded s) (dataLoaded s) (layersLoaded s) (idleOnce s) (now s)
    (timers s) (nextTimer s) (calls s).
Definition setIsFormVisible v (s : Loop) : Loop :=
  mkLoop (mapRef s) (longPressTimeoutRef s) (debounceTimer s) (highlightedTree s)
    (visibleTrees s) (newTreeCoordinates s) v (popupOpen s)
    (mapLoaded s) (dataLoaded s) (layersLoaded s) (idleOnce s) (now s)
    (timers s) (nextTimer s) (calls s).
Definition set_popupOpen v (s : Loop) : Loop :=
  mkLoop (mapRef s) (longPressTimeoutRef s) (debounceTimer s) (highlightedTree s)
    (visibleTrees s) (newTreeCoordinates s) (isFormVisible s) v
    (mapLoaded s) (dataLoaded s) (layersLoaded s) (idleOnce s) (now s)
    (timers s) (nextTimer s) (calls s).
Definition setMapLoaded v (s : Loop) : Loop :=
  mkLoop (mapRef s) (longPressTimeoutRef s) (debounceTimer s) (highlightedTree s)
    (visibleTrees s) (newTreeCoordinates s) (isFormVisible s) (popupOpen s)
    v (dataLoaded s) (layersLoaded s) (idleOnce s) (now s)
    (timers s) (nextTimer s) (calls s).
Definition setDataLoaded v (s : Loop) : Loop :=
  mkLoop (mapRef s) (longPressTimeoutRef s) (debounceTimer s) (highlightedTree s)
    (visibleTrees s) (newTreeCoordinates s) (isFormVisible s) (popupOpen s)
    (mapLoaded s) v (layersLoaded s) (idleOnce s) (now s)
    (timers s) (nextTimer s) (calls s).
Definition setLayersLoaded v (s : Loop) : Loop :=
  mkLoop (mapRef s) (longPressTimeoutRef s) (debounceTimer s) (highlightedTree s)
    (visibleTrees s) (newTreeCoordinates s) (isFormVisible s) (popupOpen s)
    (mapLoaded s) (dataLoaded s) v (idleOnce s) (now s)
    (timers s) (nextTimer s) (calls s).
Definition set_idleOnce v (s : Loop) : Loop :=
  mkLoop (mapRef s) (longPressTimeoutRef s) (debounceTimer s) (highlightedTree s)
    (visibleTrees s) (newTreeCoordinates s) (isFormVisible s) (popupOpen s)
    (mapLoaded s) (dataLoaded s) (layersLoaded s) v (now s)
    (timers s) (nextTimer s) (calls s).
Definition set_now v (s : Loop) : Loop :=
  mkLoop (mapRef s) (longPressTimeoutRef s) (debounceTimer s) (highlightedTree s)
    (visibleTrees s) (newTreeCoordinates s) (isFormVisible s) (popupOpen s)
    (mapLoaded s) (dataLoaded s) (layersLoaded s) (idleOnce s) v
    (timers s) (nextTimer s) (calls s).
Definition set_timers v (s : Loop) : Loop :=
  mkLoop (mapRef s) (longPressTimeoutRef s) (debounceTimer s) (highlightedTree s)
    (visibleTrees s) (newTreeCoordinates s) (isFormVisible s) (popupOpen s)
    (mapLoaded s) (dataLoaded s) (layersLoaded s) (idleOnce s) (now s)
    v (nextTimer s) (calls s).
Definition set_nextTimer v (s : Loop) : Loop :=
  mkLoop (mapRef s) (longPressTimeoutRef s) (debounceTimer s) (highlightedTree s)
    (visibleTrees s) (newTreeCoordinates s) (isFormVisible s) (popupOpen s)
    (mapLoaded s) (dataLoaded s) (layersLoaded s) (idleOnce s) (now s)
    (timers s) v (calls s).
Definition log (c : Call) (s : Loop) : Loop :=
  mkLoop (mapRef s) (longPressTimeoutRef s) (debounceTimer s) (highlightedTree s)
    (visibleTrees s) (newTreeCoordinates s) (isFormVisible s) (popupOpen s)
    (mapLoaded s) (dataLoaded s) (layersLoaded s) (idleOnce s) (now s)
    (timers s) (nextTimer s) (calls s ++ [c]).

(** [setTimeout(task, delay)]: the new state and the identifier. *)
Definition setTimeout (t : Task) (delay : nat) (s : Loop) : Loop * nat :=
  let id := nextTimer s in
  (set_nextTimer (S id)
     (set_timers (timers s ++ [mkTimer id (now s + delay) t]) s), id).

Definition clearTimeout (id : nat) (s : Loop) : Loop :=
  set_timers (filter (fun t => timer_id t ≠ id) (timers s)) s.

(** *** The long press, lines 241-278 *)

Definition handleLongPress (event : PressEvent) (s : Loop) : Loop :=
  setIsFormVisible true
    (setNewTreeCoordinates (Some (lngLat event))
       (log (Call_handleLongPress (lngLat event)) s)).

Definition startPress (event : PressEvent) (s : Loop) : Loop :=
  match mapRef s with
  | Some map =>
      let features :=
        queryRenderedFeaturesAt map (point event) ["unclustered-point"; "clusters"] in
      if decide (length features = 0%nat) then
        let '(s, id) := setTimeout (Task_handleLongPress event) 1000
                          (set_popupOpen false s) in
        set_longPressTimeoutRef (Some id) s
      else s
  | None => s
  end.

(** A timer identifier is a number; [0] would be falsy. *)
Definition endPress (s : Loop) : Loop :=
  match longPressTimeoutRef s with
  | Some id =>
      if decide (id = 0%nat) then s
      else set_longPressTimeoutRef None (clearTimeout id s)
  | None => s
  end.

(** *** The viewport handler, lines 364-380 *)

Definition updateMap (treeName : option string) (s : Loop) : Loop :=
  let s := log (Call_highlightTree treeName) s in
  let '(mapRef', settled) := highlightTree (mapRef s) treeName in
  let s := set_mapRef mapRef' s in
  match settled with
  | Resolved _ =>
      let s := log Call_updateVisibleTrees s in
      match mapRef s with
      | Some map => (updateVisibleTrees map setVisibleTrees s).1
      | None => s
      end
  | Rejected _ => s
  end.

(** [debounce(() => updateMap(highlightedTree), 300)] called: the pending
    invocation, if any, is put off to 300ms after this call. *)
Definition debouncedUpdateMap (s : Loop) : Loop :=
  let s := match debounceTimer s with
           | Some id => clearTimeout id s
           | None => s
           end in
  let '(s, id) := setTimeout (Task_updateMap (highlightedTree s)) 300 s in
  set_debounceTimer (Some id) s.

(** *** The sidebar click with the effect that follows it

    [setHighlightedTree] with a new value re-runs the effect of lines
    364-380: the listeners are moved to a new debounced function, and a
    pending invocation of the old one stays scheduled. *)
Definition click (treeName : string) (s : Loop) : Loop :=
  let h := handleTreeListClick treeName
             (mkHighlight (mapRef s) (highlightedTree s) (calls s)) in
  let changed := bool_decide (h_highlightedTree h ≠ highlightedTree s) in
  let s := mkLoop (h_mapRef h) (longPressTimeoutRef s) (debounceTimer s)
             (h_highlightedTree h) (visibleTrees s) (newTreeCoordinates s)
             (isFormVisible s) (popupOpen s) (mapLoaded s) (dataLoaded s)
             (layersLoaded s) (idleOnce s) (now s) (timers s) (nextTimer s)
             (h_calls h) in
  if changed then set_debounceTimer None s else s.

(** *** Loading, lines 203-239 *)

(** The effect of lines 231-239, run when one of [mapLoaded], [dataLoaded]
    has changed.  [treeLocations], an array or an object, is truthy.  The
    effect also depends on [treeLocations]; the events of this loop do not
    change the collection, so in a run it is the load that starts it. *)
Definition layers_effect (s : Loop) : Loop :=
  if mapLoaded s && dataLoaded s then
    set_idleOnce true (set_mapRef (addTreeLayers <$> mapRef s) s)
  else s.

(** The listener given to [once("idle", ...)]. *)
Definition on_idle (s : Loop) : Loop :=
  let s := log Call_updateVisibleTrees s in
  match mapRef s with
  | Some map =>
      match updateVisibleTrees map setVisibleTrees s with
      | (s, Resolved _) => setLayersLoaded true s
      | (s, Rejected _) => s
      end
  | None => s
  end.

Inductive Event :=
| Load
| Fetched
| Idle
| MouseDown (event : PressEvent)
| MouseUp
| TouchStart (event : PressEvent)
| TouchEnd
| TouchCancel
| MoveEnd
| ZoomEnd
| Click (treeName : string).

Definition handle (ev : Event) (s : Loop) : Loop :=
  let pointer := mapLoaded s && dataLoaded s && layersLoaded s in
  match ev with
  | Load => layers_effect (setMapLoaded true s)
  | Fetched => layers_effect (setDataLoaded true s)
  | Idle => if idleOnce s then on_idle (set_idleOnce false s) else s
  | MouseDown event | TouchStart event => if pointer then startPress event s else s
  | MouseUp | TouchEnd | TouchCancel => if pointer then endPress s else s
  | MoveEnd | ZoomEnd => if mapLoaded s then debouncedUpdateMap s else s
  | Click treeName => click treeName s
  end.

(** *** Time *)

Definition run_task (t : Timer) (s : Loop) : Loop :=
  match task t with
  | Task_handleLongPress event => handleLongPress event s
  | Task_updateMap treeName =>
      let s := if decide (debounceTimer s = Some (timer_id t))
               then set_debounceTimer None s else s in
      updateMap treeName s
  end.

(** The timer that runs next: the earliest due, the first registered among
    equals. *)
Fixpoint earliest (ts : list Timer) : option Timer :=
  match ts with
  | [] => None
  | t :: rest =>
      match earliest rest with
      | Some t' => if decide (due t' < due t)%nat then Some t' else Some t
      | None => Some t
      end
  end.

Fixpoint fire (fuel : nat) (until : nat) (s : Loop) : Loop :=
  match fuel with
  | O => s
  | S fuel =>
      match earliest (timers s) with
      | Some t =>
          if decide (due t ≤ until)%nat then
            fire fuel until
              (run_task t (set_now (due t `max` now s)%nat (clearTimeout (timer_id t) s)))
          else s
      | None => s
      end
  end.

(** Let the clock reach [t]: no handler registers a timer from a timer, so
    one round per pending timer is enough. *)
Definition advance (t : nat) (s : Loop) : Loop :=
  let s := fire (length (timers s)) t s in
  set_now (t `max` now s)%nat s.

Definition dispatch (e : nat * Event) (s : Loop) : Loop :=
  handle e.2 (advance e.1 s).

Definition run (events : list (nat * Event)) (s : Loop) : Loop :=
  fold_left (fun s e => dispatch e s) events s.

(** The create-intents emitted so far. *)
Definition intents (s : Loop) : list (Z * Z) :=
  omap (fun c => match c with Call_handleLongPress l => Some l | _ => None end)
       (calls s).

(** What the form of lines 386-393 is rendered from. *)
Definition form (s : Loop) : bool * option (Z * Z) :=
  (isFormVisible s, newTreeCoordinates s).

(** From [s] to [s'] the form has changed only with the create-intents
    emitted: it shows the coordinate of the last of them, and is as before
    when there was none. *)
Definition form_follows (s s' : Loop) : Prop :=
  ∃ emitted, intents s' = intents s ++ emitted
             ∧ form s' = match last emitted with
                         | Some lngLat => (true, Some lngLat)
                         | None => form s
                         end.


(** ** Aggregation passes at the grain of their [await]s

    A call of [updateVisibleTrees] reads the rendered features at once and
    then walks over them; each element is handled in a continuation of its
    own, which asks the index of the map as it is then.  When the walk is
    over, the continuation after the last [await] calls [setVisibleTrees].
    Several passes can be in flight; [Resume i] runs the next continuation
    of pass [i]. *)

Record Pass := mkPass {
  pass_todo : list (option Feature);
  pass_groups : Groups
}.

Record Sidebar := mkSidebar {
  s_map : Map;
  s_passes : gmap nat Pass;
  s_next : nat;
  s_visibleTrees : Entries
}.

Inductive Step :=
| Trigger
| Resume (i : nat)
| Viewport (map : Map).

Definition resume (map : Map) (p : Pass) : Promise (Pass + Entries) :=
  match pass_todo p with
  | [] => Resolved (inr (Array_sort by_length_desc (Object_entries (pass_groups p))))
  | element :: rest =>
      groups ← reducer map (Resolved (pass_groups p)) element;
      Resolved (inl (mkPass rest groups))
  end.

Definition step (l : Step) (s : Sidebar) : Sidebar :=
  match l with
  | Trigger =>
      mkSidebar (s_map s)
                (<[s_next s := mkPass (rendered (s_map s)) []]> (s_passes s))
                (S (s_next s)) (s_visibleTrees s)
  | Resume i =>
      match s_passes s !! i with
      | Some p =>
          match resume (s_map s) p with
          | Resolved (inl p') =>
              mkSidebar (s_map s) (<[i := p']> (s_passes s)) (s_next s)
                        (s_visibleTrees s)
          | Resolved (inr entries) =>
              mkSidebar (s_map s) (delete i (s_passes s)) (s_next s) entries
          | Rejected _ =>
              mkSidebar (s_map s) (delete i (s_passes s)) (s_next s)
                        (s_visibleTrees s)
          end
      | None => s
      end
  | Viewport map => mkSidebar map (s_passes s) (s_next s) (s_visibleTrees s)
  end.

Definition steps (ls : list Step) (s : Sidebar) : Sidebar :=
  fold_left (fun s l => step l s) ls s.

(** How a pass in flight settles if the index stays as it is in [map]. *)
Definition settle (map : Map) (p : Pass) : Promise Entries :=
  groupedTrees ← fold_left (reducer map) (pass_todo p) (Resolved (pass_groups p));
  Resolved (Array_sort by_length_desc (Object_entries groupedTrees)).

(** The maps on which the [Trigger]s of a schedule start a pass. *)
Fixpoint triggered (ls : list Step) (map : Map) : list Map :=
  match ls with
  | [] => []
  | Trigger :: rest => map :: triggered rest map
  | Resume _ :: rest => triggered rest map
  | Viewport map' :: rest => triggered rest map'
  end.

(** The viewport changes of a schedule leave the index as it is. *)
Definition same_index (m m' : Map) : Prop :=
  ∀ id, getClusterLeaves m id = getClusterLeaves m' id.

Fixpoint index_kept (ls : list Step) (map : Map) : Prop :=
  match ls with
  | [] => True
  | Viewport map' :: rest => same_index map map' ∧ index_kept rest map
  | _ :: rest => index_kept rest map
  end.

(** ** Notions used to state the properties *)

(** The rendered points with one feature for each [location_id], the first
    one rendered. *)
Fixpoint first_by_location (trees : list Feature) : list Feature :=
  match trees with
  | [] => []
  | t :: rest =>
      t :: filter (fun f => location_id (properties f) ≠ location_id (properties t))
                  (first_by_location rest)
  end.

(** The rendered features in the order of the walk. *)
Definition walk (map : Map) : list Feature :=
  first_by_location (queryRenderedFeatures map ["unclustered-point"])
  ++ queryRenderedFeatures map ["clusters"].

(** The entities that a rendered feature stands for: the leaves of a
    cluster, the point itself otherwise. *)
Definition members (map : Map) (c : Feature) : Promise (list Feature) :=
  if cluster (properties c)
  then getClusterFeatures map (cluster_id (properties c))
  else Resolved [c].

Definition members_or_nil (map : Map) (c : Feature) : list Feature :=
  match members map c with Resolved l => l | Rejected _ => [] end.

Definition name_of (f : Feature) : string := to_key (common_name (properties f)).

Definition named (key : string) (l : list Feature) : list Feature :=
  filter (fun f => name_of f = key) l.

(** One occurrence of a rendered feature for each of its entities with the
    name [key], in the order of the walk. *)
Definition occurrences (map : Map) (key : string) : list Feature :=
  flat_map (fun c => replicate (length (named key (members_or_nil map c))) c)
           (walk map).

(** Every cluster of the walk can be expanded. *)
Definition expandable (map : Map) : Prop :=
  Forall (fun c => is_resolved (members map c) = true) (walk map).

(** No entity of the walk has a name that [Object.prototype] defines. *)
Definition plain_names (map : Map) : Prop :=
  Forall (fun c => Forall (fun f => name_of f ∉ Object_prototype_keys)
                          (members_or_nil map c))
         (walk map).

Definition longer_first (a b : string * list Feature) : Prop :=
  (length b.2 ≤ length a.2)%nat.

(** The leaves [getClusterFeatures] gives for a rendered cluster. *)
Definition leaves_of (map : Map) (c : Feature) : Promise (list Feature) :=
  getClusterFeatures map (cluster_id (properties c)).

(** Every rendered cluster can be expanded. *)
Definition clusters_expandable (map : Map) : Prop :=
  Forall (fun c => is_resolved (leaves_of map c) = true)
         (queryRenderedFeatures map ["clusters"]).

(** The expansion of [c] contains an entity named [name]. *)
Definition contains_named (map : Map) (name : string) (c : Feature) : Prop :=
  ∃ leaves leaf, leaves_of map c = Resolved leaves ∧ leaf ∈ leaves
                 ∧ common_name (properties leaf) = Some name.

(** What [groups[key]] holds once the features [l] were pushed to it. *)
Definition added (o : option (list Feature)) (l : list Feature)
  : option (list Feature) :=
  match l with
  | [] => o
  | _ => Some (default [] o ++ l)
  end.

Definition id_of (f : Feature) : option Z := location_id (properties f).

Definition found_in (trees : list Feature) (id : option Z) (f : Feature) : Prop :=
  Array_find (fun feature => bool_decide (id_of feature = id)) trees = Some f
  ∧ id_of f = id.

Definition occurrences_in (map : Map) (key : string) (cs : list Feature)
  : list Feature :=
  flat_map (fun c => replicate (length (named key (members_or_nil map c))) c) cs.

(** ** Sample data *)

Definition oak1 := point_feature 1 "Oak".
Definition oak2 := point_feature 2 "Oak".
Definition oak3 := point_feature 3 "Oak".
Definition maple4 := point_feature 4 "Maple".
Definition maple5 := point_feature 5 "Maple".
Definition c7 := cluster_feature 7 3.
Definition c9 := cluster_feature 9 2.

Definition no_filters : string -> option LayerFilter := fun _ => None.

Definition index7 (id : option Z) : LeavesCallback :=
  if decide (id = Some 7) then LeavesOk (Some [oak1; oak2; oak3])
  else LeavesError (ClusterExpansionError "No cluster with the specified id").

(** Two maples rendered as points (one of them twice) and a cluster of
    three oaks. *)
Definition map_oaks : Map :=
  mkMap (fun layers =>
           if decide (layers = ["unclustered-point"]) then [maple4; maple5; maple4]
           else if decide (layers = ["clusters"]) then [c7] else [])
        (fun _ _ => []) index7 no_filters.

(** A point and two clusters; the index does not know cluster 9. *)
Definition map_stale : Map :=
  mkMap (fun layers =>
           if decide (layers = ["unclustered-point"]) then [maple4]
           else if decide (layers = ["clusters"]) then [c7; c9] else [])
        (fun _ _ => []) index7 no_filters.

Definition red_maple : NewTree :=
  mkNewTree 12 "Acer rubrum" "Red Maple" 4238 (-7109) "survey" true.


(** A tree the data gives no name, and a cluster of it and two oaks. *)
Definition nameless := point_feature 11 "".

Definition index_nameless (id : option Z) : LeavesCallback :=
  if decide (id = Some 7) then LeavesOk (Some [nameless; oak1; oak2])
  else LeavesError (ClusterExpansionError "No cluster with the specified id").

Definition map_nameless : Map :=
  mkMap (fun layers => if decide (layers = ["clusters"]) then [c7] else [])
        (fun _ _ => []) index_nameless no_filters.

Definition some_trees : FeatureCollection :=
  mkCollection [oak1; maple4; oak2] [("type", JStr "FeatureCollection")].


(** The pointer listeners of lines 264-270 are installed. *)
Definition listening (s : Loop) : Prop :=
  mapLoaded s && dataLoaded s && layersLoaded s = true.

Definition is_down (ev : Event) (event : PressEvent) : Prop :=
  ev = MouseDown event ∨ ev = TouchStart event.

Definition is_up (ev : Event) : Prop :=
  ev = MouseUp ∨ ev = TouchEnd ∨ ev = TouchCancel.

(** The features under the pointer when the press starts. *)
Definition hit (map : Map) (event : PressEvent) : list Feature :=
  queryRenderedFeaturesAt map (point event) ["unclustered-point"; "clusters"].

Definition is_viewport (ev : Event) : Prop := ev = MoveEnd ∨ ev = ZoomEnd.

(** The application once the map, the data and the layers are loaded, with
    nothing highlighted and no timer pending. *)
Definition loaded (map : Map) : Loop :=
  mkLoop (Some (addTreeLayers map)) None None None [] None false false
         true true true false 0 [] 1 [].

(** A result that the sidebar shows or that a pass in flight will publish
    if it is run to its end. *)
Definition candidate (index : Map) (s : Sidebar) (entries : Entries) : Prop :=
  entries = s_visibleTrees s
  ∨ ∃ i p, s_passes s !! i = Some p ∧ settle index p = Resolved entries.

(** The schedule in which pass 0 starts, the viewport changes to [m2],
    pass 1 starts and runs to its end, and pass 0 runs to its end after
    it. *)
Definition second_pass_first (m1 m2 : Map) : list Step :=
  [Trigger; Viewport m2; Trigger]
  ++ replicate (S (length (rendered m2))) (Resume 1)
  ++ replicate (S (length (rendered m1))) (Resume 0).

(** A viewport with the two maples only, after zooming in. *)
Definition map_maples : Map :=
  mkMap (fun layers =>
           if decide (layers = ["unclustered-point"]) then [maple4; maple5]
           else [])
        (fun _ _ => []) index7 no_filters.

(** *** What the long press depends on *)

(** The coordinate a pending timer will emit, if it is a long-press timer. *)
Definition pending_intent (tm : Timer) : option (Z * Z) :=
  match task tm with
  | Task_handleLongPress event => Some (lngLat event)
  | Task_updateMap _ => None
  end.

(** The timers are as [setTimeout] hands them out: distinct identifiers,
    all of them below the next one, none of them [0]. *)
Definition timers_wf (s : Loop) : Prop :=
  NoDup (timer_id <$> timers s)
  ∧ Forall (fun tm => (timer_id tm < nextTimer s)%nat) (timers s)
  ∧ nextTimer s ≠ 0%nat.

(** No press is in progress: no long-press timer is pending. *)
Definition idle_pointer (s : Loop) : Prop :=
  omap pending_intent (timers s) = [].

(** The result of the hit test of [startPress] in state [s]. *)
Definition hit_test (s : Loop) (event : PressEvent) : option (list Feature) :=
  (fun map => hit map event) <$> mapRef s.

(** What a handler run from a timer leaves as it is. *)
Definition gesture_frame (s s' : Loop) : Prop :=
  timers s' = timers s ∧ nextTimer s' = nextTimer s
  ∧ longPressTimeoutRef s' = longPressTimeoutRef s
  ∧ mapLoaded s' = mapLoaded s ∧ dataLoaded s' = dataLoaded s
  ∧ layersLoaded s' = layersLoaded s
  ∧ now s' = now s
  ∧ ∀ event, hit_test s' event = hit_test s event.
(** ** Further handlers and notions *)

(** [handleAddTreeCancel], lines 123-126; the empty array of coordinates is
    [None]. *)
Definition handleAddTreeCancel (s : Loop) : Loop :=
  setIsFormVisible false (setNewTreeCoordinates None s).

(** [handleEscapeKey], lines 186-191. *)
Definition handleEscapeKey (key : string) (s : Loop) : Loop :=
  if decide (key = "Escape") then handleAddTreeCancel (set_popupOpen false s)
  else s.

(** The items of the sidebar list, lines 398-406: the name, the number
    printed after it, and whether the item has the highlight colour. *)
Record ListItem := mkListItem {
  item_name : string;
  item_count : nat;
  item_highlighted : bool
}.

Definition render_list (visibleTrees : Entries) (highlightedTree : option string)
  : list ListItem :=
  (fun entry => mkListItem entry.1 (length entry.2)
                           (bool_decide (highlightedTree = Some entry.1)))
  <$> visibleTrees.

(** Whether a layer draws a feature of its source: a layer without a filter
    draws them all. *)
Definition drawn_by (map : Map) (layer : string) (f : Feature) : bool :=
  match filter_of map layer with
  | Some flt => matches flt f
  | None => true
  end.

(** The entities of the walk, in the order the pass meets them. *)
Definition entities_met (map : Map) : list Feature :=
  flat_map (members_or_nil map) (walk map).

(** The application before the map and the data are loaded. *)
Definition starting (map : Map) : Loop :=
  mkLoop (Some map) None None None [] None false false
         false false false false 0 [] 1 [].

(** A map on which the only rendered point is a tree named "constructor". *)
Definition map_constructor : Map :=
  mkMap (fun layers =>
           if decide (layers = ["unclustered-point"])
           then [point_feature 8 "constructor"] else [])
        (fun _ _ => []) index7 no_filters.

(** The own keys of [groups] after a feature named [name] was recorded. *)
Definition keys_after (keys : list string) (name : string) : list string :=
  if decide (name ∈ keys) then keys else keys ++ [name].

(** The names of the entities of the walk, each once, in the order in which
    the pass first meets them. *)
Definition names_met (map : Map) : list string :=
  Array_from_Set (name_of <$> entities_met map).

(** A viewport with a birch, a maple and an oak rendered as points. *)
Definition map_mixed : Map :=
  mkMap (fun layers =>
           if decide (layers = ["unclustered-point"])
           then [point_feature 6 "Birch"; maple4; oak1] else [])
        (fun _ _ => []) index7 no_filters.


(** What no handler other than [handleLongPress] and the listener of the
    first idle event changes. *)
Definition press_frame (s s' : Loop) : Prop :=
  layersLoaded s' = layersLoaded s ∧ idleOnce s' = idleOnce s
  ∧ isFormVisible s' = isFormVisible s
  ∧ newTreeCoordinates s' = newTreeCoordinates s
  ∧ intents s' = intents s.

(** What a step of the application keeps once it holds: the timers are well
    formed, the pointer listeners are installed, there is a map. *)
Definition keeps (s s' : Loop) : Prop :=
  (timers_wf s → timers_wf s')
  ∧ (listening s → listening s')
  ∧ (is_Some (mapRef s) → is_Some (mapRef s')).

(** A press from the event that starts it to the event that ends it. *)
Record Press := mkPress {
  p_down : Event;
  p_up : Event;
  p_event : PressEvent;
  p_start : nat;
  p_end : nat
}.

Definition press_events (p : Press) : list (nat * Event) :=
  [(p_start p, p_down p); (p_end p, p_up p)].

(** The presses come one after the other, none of them before [t]. *)
Fixpoint in_order (t : nat) (presses : list Press) : Prop :=
  match presses with
  | [] => True
  | p :: rest =>
      is_down (p_down p) (p_event p) ∧ is_up (p_up p)
      ∧ (t ≤ p_start p)%nat ∧ (p_start p ≤ p_end p)%nat
      ∧ in_order (p_end p) rest
  end.

(** The create-intent of a press on the map of state [s]. *)
Definition press_intent (s : Loop) (p : Press) : option (Z * Z) :=
  if decide (hit_test s (p_event p) = Some [] ∧ (p_start p + 1000 ≤ p_end p)%nat)
  then Some (lngLat (p_event p)) else None.

(** A viewport with an oak and, after it, a tree whose name is a number. *)
Definition map_numbered : Map :=
  mkMap (fun layers =>
           if decide (layers = ["unclustered-point"])
           then [oak1; point_feature 8 "42"] else [])
        (fun _ _ => []) index7 no_filters.
(** * Properties *)

(** ** Examples of the aggregation *)

Example visible_trees_oaks :
  visible_trees map_oaks
  = Resolved [("Oak", [c7; c7; c7]); ("Maple", [maple4; maple5])].
Proof. vm_compute. reflexivity. Qed.

Example visible_trees_stale :
  visible_trees map_stale
  = Rejected (ClusterExpansionError "No cluster with the specified id").
Proof. vm_compute. reflexivity. Qed.

Example Object_entries_order :
  (Object_entries [("Oak", []); ("10", []); ("2", []); ("02", [])]).*1
  = ["2"; "10"; "Oak"; "02"].
Proof. vm_compute. reflexivity. Qed.

(** ** The [groups] object *)

Lemma own_None (g : Groups) key : own g key = None ↔ key ∉ g.*1.
Proof.
  induction g as [|[k v] g IH]; simpl.
  - split; [intros _; apply not_elem_of_nil | done].
  - rewrite not_elem_of_cons. destruct (decide (k = key)) as [->|Hne].
    + split; [done | intros [? _]; done].
    + rewrite IH. split; [intros ?; split; [congruence | done] | intros [_ ?]; done].
Qed.

Lemma own_Some_elem (g : Groups) key v :
  NoDup g.*1 → (key, v) ∈ g ↔ own g key = Some v.
Proof.
  induction g as [|[k w] g IH]; simpl; intros Hnd.
  - split; [intros H; inversion H | done].
  - apply NoDup_cons in Hnd as [Hk Hnd]. rewrite elem_of_cons.
    destruct (decide (k = key)) as [->|Hne].
    + split.
      * intros [Heq | Hin]; [congruence |].
        exfalso. apply Hk. apply list_elem_of_fmap. by exists (key, v).
      * intros [= ->]. by left.
    + rewrite <- (IH Hnd). split; [intros [Heq | ?]; [congruence | done] | by right].
Qed.

Lemma push_keys g key x : (push g key x).*1 = g.*1.
Proof.
  induction g as [|[k v] g IH]; simpl; [done |].
  destruct (decide (k = key)); simpl; [done | by f_equal].
Qed.

Lemma own_push g key x key' :
  own (push g key x) key'
  = if decide (key = key') then (fun v => v ++ [x]) <$> own g key' else own g key'.
Proof.
  induction g as [|[k v] g IH]; simpl.
  - by destruct (decide (key = key')).
  - destruct (decide (k = key)) as [->|Hne]; simpl.
    + by destruct (decide (key = key')).
    + destruct (decide (k = key')) as [->|Hne'].
      * by rewrite decide_False by congruence.
      * apply IH.
Qed.

Lemma own_snoc g key v key' :
  own (g ++ [(key, v)]) key'
  = match own g key' with
    | Some w => Some w
    | None => if decide (key = key') then Some v else None
    end.
Proof.
  induction g as [|[k w] g IH]; simpl; [done |].
  destruct (decide (k = key')); [done | apply IH].
Qed.

Lemma added_app o l1 l2 : added (added o l1) l2 = added o (l1 ++ l2).
Proof.
  destruct l1 as [|a l1]; simpl; [done |].
  destruct l2 as [|b l2]; simpl.
  - by rewrite app_nil_r.
  - by rewrite <- app_assoc.
Qed.

Lemma record_own c g f g' key :
  record c g f = Resolved g' →
  own g' key = added (own g key) (if decide (name_of f = key) then [c] else []).
Proof.
  unfold record, get, name_of.
  set (k := to_key _). destruct (own g k) as [v|] eqn:Hown.
  - intros [= <-]. rewrite own_push. destruct (decide (k = key)) as [<-|]; simpl.
    + by rewrite Hown.
    + done.
  - destruct (decide (k ∈ Object_prototype_keys)); [done |].
    intros [= <-]. rewrite own_snoc.
    destruct (decide (k = key)) as [<-|]; simpl.
    + by rewrite Hown.
    + by destruct (own g key).
Qed.

Lemma record_keys c g f g' :
  record c g f = Resolved g' → NoDup g.*1 → NoDup g'.*1.
Proof.
  unfold record, get. set (k := to_key _).
  destruct (own g k) as [v|] eqn:Hown.
  - intros [= <-]. by rewrite push_keys.
  - destruct (decide (k ∈ Object_prototype_keys)); [done |].
    intros [= <-] Hnd. rewrite fmap_app. simpl.
    apply NoDup_app. split; [done |]. split.
    + intros x Hx Hx'. apply list_elem_of_singleton in Hx'. subst.
      by apply own_None in Hown.
    + apply NoDup_singleton.
Qed.

Lemma record_resolves c g f :
  name_of f ∉ Object_prototype_keys → ∃ g', record c g f = Resolved g'.
Proof.
  unfold record, get, name_of. set (k := to_key _). intros Hk.
  destruct (own g k); [eauto |].
  rewrite decide_False by done. eauto.
Qed.

Lemma forEach_record_own c fs : ∀ g g' key,
  forEach_record c fs g = Resolved g' →
  own g' key = added (own g key) (replicate (length (named key fs)) c).
Proof.
  induction fs as [|f fs IH]; simpl; intros g g' key.
  - by intros [= <-].
  - destruct (record c g f) as [g1|] eqn:Hrec; simpl; [|done].
    intros Hrest. rewrite (IH _ _ key Hrest), (record_own _ _ _ _ key Hrec).
    rewrite added_app. f_equal. unfold named. rewrite filter_cons.
    by destruct (decide (name_of f = key)).
Qed.

Lemma forEach_record_keys c fs : ∀ g g',
  forEach_record c fs g = Resolved g' → NoDup g.*1 → NoDup g'.*1.
Proof.
  induction fs as [|f fs IH]; simpl; intros g g'.
  - by intros [= <-].
  - destruct (record c g f) as [g1|] eqn:Hrec; simpl; [|done].
    intros Hrest Hnd. eapply IH; [done |]. by eapply record_keys.
Qed.

Lemma forEach_record_resolves c fs : ∀ g,
  (∀ f, f ∈ fs → name_of f ∉ Object_prototype_keys) →
  ∃ g', forEach_record c fs g = Resolved g'.
Proof.
  induction fs as [|f fs IH]; simpl; intros g Hplain; [eauto |].
  destruct (record_resolves c g f) as [g1 ->]; [apply Hplain; left |]. simpl.
  apply IH. intros f' Hf'. apply Hplain. by right.
Qed.

(** ** The walk of one pass *)

Lemma fold_reducer_cons map c cs g :
  fold_left (reducer map) (Some <$> c :: cs) (Resolved g)
  = fold_left (reducer map) (Some <$> cs)
      (features ← members map c; forEach_record c features g).
Proof. done. Qed.

Lemma fold_reducer_rejected map l e :
  fold_left (reducer map) l (Rejected e) = Rejected e.
Proof. induction l as [|x l IH]; simpl; [done | apply IH]. Qed.

Lemma fold_reducer_own map cs : ∀ g g' key,
  fold_left (reducer map) (Some <$> cs) (Resolved g) = Resolved g' →
  own g' key = added (own g key) (occurrences_in map key cs).
Proof.
  induction cs as [|c cs IH]; intros g g' key.
  - by intros [= <-].
  - rewrite fold_reducer_cons. cbn [occurrences_in flat_map]. unfold members_or_nil.
    destruct (members map c) as [l|] eqn:Hm; simpl;
      [|by rewrite fold_reducer_rejected].
    destruct (forEach_record c l g) as [g1|] eqn:Hfe;
      [|by rewrite fold_reducer_rejected].
    intros Hrest. rewrite (IH _ _ key Hrest), (forEach_record_own _ _ _ _ key Hfe).
    by rewrite added_app.
Qed.

Lemma fold_reducer_keys map cs : ∀ g g',
  fold_left (reducer map) (Some <$> cs) (Resolved g) = Resolved g' →
  NoDup g.*1 → NoDup g'.*1.
Proof.
  induction cs as [|c cs IH]; intros g g'.
  - by intros [= <-].
  - rewrite fold_reducer_cons.
    destruct (members map c) as [l|]; simpl; [|by rewrite fold_reducer_rejected].
    destruct (forEach_record c l g) as [g1|] eqn:Hfe;
      [|by rewrite fold_reducer_rejected].
    intros Hrest Hnd. eapply IH; [done |]. by eapply forEach_record_keys.
Qed.

Lemma fold_reducer_resolves map cs : ∀ g,
  (∀ c, c ∈ cs → is_resolved (members map c) = true) →
  (∀ c f, c ∈ cs → f ∈ members_or_nil map c →
          name_of f ∉ Object_prototype_keys) →
  ∃ g', fold_left (reducer map) (Some <$> cs) (Resolved g) = Resolved g'.
Proof.
  induction cs as [|c cs IH]; intros g Hexp Hplain; [simpl; eauto |].
  rewrite fold_reducer_cons.
  pose proof (Hexp c ltac:(left)) as Hc.
  pose proof (Hplain c) as Hpc. unfold members_or_nil in Hpc.
  destruct (members map c) as [l|]; [|done]. simpl.
  destruct (forEach_record_resolves c l g) as [g1 ->].
  { intros f Hf. apply Hpc; [left | done]. }
  apply IH.
  - intros c' Hc'. apply Hexp. by right.
  - intros c' f Hc'. apply Hplain. by right.
Qed.

(** A pass that meets a cluster the index cannot expand is rejected. *)
Lemma fold_reducer_fails map cs c : ∀ p,
  c ∈ cs → is_resolved (members map c) = false →
  is_resolved (fold_left (reducer map) (Some <$> cs) p) = false.
Proof.
  induction cs as [|c' cs IH]; intros p Hin Hc; [inversion Hin |].
  apply elem_of_cons in Hin as [<-|Hin]; [|by apply IH].
  destruct p as [g|e].
  - rewrite fold_reducer_cons. destruct (members map c); [done |]. simpl.
    by rewrite fold_reducer_rejected.
  - by rewrite fold_reducer_rejected.
Qed.

(** *** The deduplication of the rendered points *)

Lemma found_in_later t trees ids fs :
  Forall2 (found_in trees) ids fs →
  Forall2 (found_in (t :: trees))
          (filter (fun id => id ≠ id_of t) ids)
          (filter (fun f => location_id (properties f) ≠ location_id (properties t)) fs).
Proof.
  induction 1 as [|id f ids fs [Hfind Hid] _ IH]; [constructor |].
  rewrite !filter_cons. fold (id_of f) (id_of t). rewrite Hid.
  destruct (decide (id ≠ id_of t)) as [Hne|Heq]; [|done].
  constructor; [|done]. split; [|done].
  unfold Array_find in *. simpl.
  by rewrite bool_decide_eq_false_2 by congruence.
Qed.

Lemma find_first_by_location trees :
  Forall2 (found_in trees)
          (Array_from_Set (id_of <$> trees)) (first_by_location trees).
Proof.
  induction trees as [|t trees IH]; [constructor |].
  cbn [fmap list_fmap Array_from_Set first_by_location]. constructor.
  - split; [|done]. unfold Array_find. simpl. by rewrite bool_decide_eq_true_2.
  - by apply found_in_later.
Qed.

Lemma rendered_walk map : rendered map = Some <$> walk map.
Proof.
  unfold rendered, walk. rewrite fmap_app. f_equal.
  set (trees := queryRenderedFeatures map ["unclustered-point"]).
  pose proof (find_first_by_location trees) as H.
  change (location_id ∘ properties) with id_of.
  induction H as [|id f ids fs [Hfind _] _ IH]; simpl; [done |].
  f_equal; [apply Hfind | apply IH].
Qed.

Lemma first_by_location_sublist trees :
  first_by_location trees `sublist_of` trees.
Proof.
  induction trees as [|t trees IH]; simpl; [done |].
  constructor. etrans; [apply sublist_filter | done].
Qed.

Lemma first_by_location_ids trees id :
  id ∈ id_of <$> first_by_location trees ↔ id ∈ id_of <$> trees.
Proof.
  induction trees as [|t trees IH]; [done |].
  cbn [first_by_location]. rewrite !fmap_cons, !elem_of_cons, <- IH.
  rewrite !list_elem_of_fmap.
  destruct (decide (id = id_of t)) as [->|Hne]; [split; by left |].
  split.
  - intros [? | (f & -> & Hf)]; [done |]. right.
    apply list_elem_of_filter in Hf as [_ Hf]. eauto.
  - intros [? | (f & -> & Hf)]; [done |]. right. exists f. split; [done |].
    apply list_elem_of_filter. split; [|done]. unfold id_of in Hne. congruence.
Qed.

Lemma NoDup_ids_filter (P : Feature → Prop) `{∀ f, Decision (P f)} fs :
  NoDup (id_of <$> fs) → NoDup (id_of <$> filter P fs).
Proof.
  induction fs as [|f fs IH]; [done |].
  rewrite fmap_cons, NoDup_cons, filter_cons. intros [Hf Hnd].
  destruct (decide (P f)); [|by apply IH].
  rewrite fmap_cons. apply NoDup_cons. split; [|by apply IH].
  intros Hin. apply Hf. apply list_elem_of_fmap in Hin as (f' & Hid & Hf').
  apply list_elem_of_filter in Hf' as [_ Hf'].
  apply list_elem_of_fmap. eauto.
Qed.

Lemma first_by_location_NoDup trees :
  NoDup (id_of <$> first_by_location trees).
Proof.
  induction trees as [|t trees IH]; [constructor |].
  cbn [first_by_location]. rewrite fmap_cons. apply NoDup_cons. split.
  - intros Hin. apply list_elem_of_fmap in Hin as (f & Hid & Hf).
    apply list_elem_of_filter in Hf as [Hne _]. unfold id_of in Hid. congruence.
  - by apply NoDup_ids_filter.
Qed.

(** ** [Array.prototype.sort] and [Object.entries] *)

Lemma insert_sorted_perm {A} (compare : A → A → Z) x l :
  insert_sorted compare x l ≡ₚ x :: l.
Proof.
  induction l as [|y l IH]; simpl; [done |].
  case_bool_decide; [done |]. rewrite IH. apply Permutation_swap.
Qed.

Lemma Array_sort_perm {A} (compare : A → A → Z) l : Array_sort compare l ≡ₚ l.
Proof.
  induction l as [|x l IH]; simpl; [done |].
  rewrite insert_sorted_perm. by constructor.
Qed.

Section sorted.
Context {A} (compare : A → A → Z) (R : relation A).
Hypothesis compare_R : ∀ x y, compare x y ≤ 0 ↔ R x y.
Hypothesis R_total : ∀ x y, R x y ∨ R y x.
Hypothesis R_trans : ∀ x y z, R x y → R y z → R x z.

Lemma insert_sorted_sorted x l :
  StronglySorted R l → StronglySorted R (insert_sorted compare x l).
Proof.
  induction 1 as [|y l Hl IH Hy]; simpl.
  - repeat constructor.
  - case_bool_decide as Hc.
    + apply compare_R in Hc. constructor; [by constructor |].
      constructor; [done |]. eapply Forall_impl; [exact Hy |].
      intros z Hz. by eapply R_trans.
    + constructor; [done |].
      assert (R y x) as Hyx.
      { destruct (R_total x y) as [Hxy|?]; [|done].
        by apply compare_R in Hxy. }
      rewrite insert_sorted_perm. by constructor.
Qed.

Lemma Array_sort_sorted l : StronglySorted R (Array_sort compare l).
Proof.
  induction l as [|x l IH]; simpl; [constructor |].
  by apply insert_sorted_sorted.
Qed.
End sorted.

Lemma by_length_desc_sorted l :
  StronglySorted longer_first (Array_sort by_length_desc l).
Proof.
  apply Array_sort_sorted; unfold by_length_desc, longer_first; intros; lia.
Qed.

Lemma Object_entries_perm o : Object_entries o ≡ₚ o.
Proof.
  unfold Object_entries. rewrite Array_sort_perm.
  induction o as [|[k v] o IH]; [done |].
  cbn [omap list_omap fst filter list_filter].
  destruct (array_index k) as [n|] eqn:Hk; simpl.
  - by constructor.
  - rewrite <- Permutation_middle. by constructor.
Qed.

(** What the sidebar receives, in terms of the [groups] object. *)
Lemma published_perm g : Array_sort by_length_desc (Object_entries g) ≡ₚ g.
Proof. by rewrite Array_sort_perm, Object_entries_perm. Qed.

(** ** The aggregation pass *)

Lemma visible_trees_walk map :
  visible_trees map
  = (groupedTrees ← fold_left (reducer map) (Some <$> walk map) (Resolved []);
     Resolved (Array_sort by_length_desc (Object_entries groupedTrees))).
Proof. unfold visible_trees. by rewrite rendered_walk. Qed.

Lemma added_None l : added None l = match l with [] => None | _ => Some l end.
Proof. by destruct l. Qed.

(** C3, as the code has it: when every rendered cluster can be expanded and
    no name collides with a property of [Object.prototype], the pass
    publishes a list with one entry for each name met; the rendered points
    are walked once for each [location_id] and the rendered clusters as
    they are rendered; the entry of a name lists each walked feature once
    for each of its entities with that name, so a cluster is repeated once
    per matching leaf; and the entries are ordered by descending length of
    these lists. *)
Theorem aggregation_lists_feature_per_entity (map : Map) :
  expandable map → plain_names map →
  let points := queryRenderedFeatures map ["unclustered-point"] in
  let clusters := queryRenderedFeatures map ["clusters"] in
  ∃ kept entries,
    walk map = kept ++ clusters
    ∧ kept `sublist_of` points
    ∧ NoDup (id_of <$> kept)
    ∧ (∀ id, id ∈ id_of <$> kept ↔ id ∈ id_of <$> points)
    ∧ visible_trees map = Resolved entries
    ∧ NoDup entries.*1
    ∧ (∀ key trees,
         (key, trees) ∈ entries ↔ trees = occurrences map key ∧ trees ≠ [])
    ∧ StronglySorted longer_first entries.
Proof.
  intros Hexp Hplain points clusters.
  exists (first_by_location points).
  destruct (fold_reducer_resolves map (walk map) []) as [g Hg].
  { by apply Forall_forall. }
  { intros c f Hc. revert f. apply Forall_forall. revert c Hc.
    by apply Forall_forall. }
  exists (Array_sort by_length_desc (Object_entries g)).
  split; [done |]. split; [apply first_by_location_sublist |].
  split; [apply first_by_location_NoDup |].
  split; [apply first_by_location_ids |].
  split; [by rewrite visible_trees_walk, Hg |].
  assert (NoDup g.*1) as Hnd.
  { eapply fold_reducer_keys; [exact Hg | constructor]. }
  split; [by rewrite published_perm |].
  split; [|apply by_length_desc_sorted].
  intros key trees. rewrite published_perm, (own_Some_elem _ _ _ Hnd).
  rewrite (fold_reducer_own _ _ _ _ key Hg). simpl. rewrite added_None.
  fold (occurrences_in map key (walk map)).
  change (occurrences_in map key (walk map)) with (occurrences map key).
  destruct (occurrences map key) as [|x l]; split.
  - done.
  - by intros [-> ?].
  - intros [= <-]. by split.
  - by intros [-> _].
Qed.

(** C2, as the code has it: a rendered cluster whose expansion fails makes
    the whole pass reject, and [setVisibleTrees] is not called. *)
Theorem expansion_error_aborts_pass {S} (map : Map) (c : Feature) error
    (setVisibleTrees : Entries → S → S) (st : S) :
  c ∈ queryRenderedFeatures map ["clusters"] →
  cluster (properties c) = true →
  getClusterLeaves map (cluster_id (properties c)) = LeavesError error →
  ∃ e, updateVisibleTrees map setVisibleTrees st = (st, Rejected e).
Proof.
  intros Hc Hcl Herr. unfold updateVisibleTrees.
  assert (is_resolved (visible_trees map) = false) as Hrej.
  { rewrite visible_trees_walk.
    pose proof (fold_reducer_fails map (walk map) c (Resolved [])) as Hf.
    destruct (fold_left _ _ _); [|done].
    discriminate Hf.
    - unfold walk. apply elem_of_app. by right.
    - unfold members, getClusterFeatures. by rewrite Hcl, Herr. }
  destruct (visible_trees map); [done | eauto].
Qed.

Lemma aggregation_lists_feature_per_entity_witness :
  expandable map_oaks ∧ plain_names map_oaks
  ∧ ∃ entries, visible_trees map_oaks = Resolved entries
               ∧ StronglySorted longer_first entries.
Proof.
  assert (expandable map_oaks) as Hexp.
  { apply (bool_decide_unpack _). vm_compute. exact I. }
  assert (plain_names map_oaks) as Hplain.
  { apply (bool_decide_unpack _). vm_compute. exact I. }
  split; [exact Hexp |]. split; [exact Hplain |].
  destruct (aggregation_lists_feature_per_entity map_oaks Hexp Hplain)
    as (kept & entries & _ & _ & _ & _ & Hv & _ & _ & Hs).
  exists entries. split; [exact Hv | exact Hs].
Defined.

(** C3 as the specification words it fails.  The cluster of three oaks is
    listed three times under "Oak", and "Oak", met in one rendered feature,
    comes before "Maple", met in two.  And not every set of rendered
    features gets a list: with a tree named "constructor", all clusters
    expandable, or with a cluster the index does not know, all names plain,
    the pass rejects. *)
Lemma sidebar_not_as_specified :
  (visible_trees map_oaks
   = Resolved [("Oak", [c7; c7; c7]); ("Maple", [maple4; maple5])]
   ∧ ¬ NoDup [c7; c7; c7]
   ∧ (length (remove_dups [c7; c7; c7]) < length (remove_dups [maple4; maple5]))%nat)
  ∧ (expandable map_constructor
     ∧ is_resolved (visible_trees map_constructor) = false)
  ∧ (plain_names map_stale
     ∧ is_resolved (visible_trees map_stale) = false).
Proof.
  split; [split; [vm_compute; reflexivity | split] | split; split].
  - intros Hnd. apply NoDup_cons in Hnd as [Hin _]. apply Hin. by left.
  - vm_compute. lia.
  - apply (bool_decide_unpack _). vm_compute. exact I.
  - vm_compute. reflexivity.
  - apply (bool_decide_unpack _). vm_compute. exact I.
  - vm_compute. reflexivity.
Qed.

Lemma expansion_error_aborts_pass_witness :
  c9 ∈ queryRenderedFeatures map_stale ["clusters"]
  ∧ cluster (properties c9) = true
  ∧ getClusterLeaves map_stale (cluster_id (properties c9))
    = LeavesError (ClusterExpansionError "No cluster with the specified id")
  ∧ ∃ e, updateVisibleTrees map_stale (fun entries _ => Some entries) None
         = (None, Rejected e).
Proof.
  assert (c9 ∈ queryRenderedFeatures map_stale ["clusters"]) as Hin.
  { apply (bool_decide_unpack _). vm_compute. exact I. }
  split; [exact Hin |]. split; [reflexivity |]. split; [reflexivity |].
  exact (expansion_error_aborts_pass map_stale c9 _ _ None Hin eq_refl eq_refl).
Defined.

(** C2 as the specification words it fails: the index does not know
    cluster 9, and nothing is published, neither for the maple nor for the
    cluster of oaks. *)
Lemma stale_cluster_leaves_sidebar_unpublished :
  getClusterLeaves map_stale (Some 9)
  = LeavesError (ClusterExpansionError "No cluster with the specified id")
  ∧ updateVisibleTrees map_stale (fun entries _ => Some entries) None
    = (None, Rejected (ClusterExpansionError "No cluster with the specified id")).
Proof. split; vm_compute; reflexivity. Qed.

(** ** The highlight filters *)

Lemma some_named_spec name leaves :
  some_named name leaves = true
  ↔ ∃ leaf, leaf ∈ leaves ∧ common_name (properties leaf) = Some name.
Proof.
  unfold some_named. rewrite existsb_exists. split.
  - intros (leaf & Hin & Hn). exists leaf. split; [by apply list_elem_of_In |].
    by apply bool_decide_eq_true in Hn.
  - intros (leaf & Hin & Hn). exists leaf. split; [by apply list_elem_of_In |].
    by apply bool_decide_eq_true.
Qed.

Lemma highlight_loop_resolved map name cs : ∀ acc ids,
  highlight_loop map name cs acc = Resolved ids →
  ∀ id, id ∈ ids ↔
        id ∈ acc ∨ ∃ c, c ∈ cs ∧ id = cluster_id (properties c)
                        ∧ contains_named map name c.
Proof.
  induction cs as [|c cs IH]; simpl; intros acc ids.
  - intros [= <-] id. split; [by left |].
    intros [? | (c & Hc & _)]; [done | inversion Hc].
  - destruct (getClusterFeatures map (cluster_id (properties c))) as [leaves|]
      eqn:Hl; simpl; [|done].
    intros Hrest id. rewrite (IH _ _ Hrest id). clear IH Hrest.
    assert (contains_named map name c ↔ some_named name leaves = true) as Hc.
    { rewrite some_named_spec. unfold contains_named, leaves_of. rewrite Hl.
      split.
      - intros (l & leaf & [= <-] & ? & ?). eauto.
      - intros (leaf & ? & ?). eauto. }
    destruct (some_named name leaves) eqn:Hs.
    + rewrite elem_of_app, list_elem_of_singleton. split.
      * intros [[? | ->] | (c' & Hin & ? & ?)].
        -- by left.
        -- right. exists c. split; [by left |]. split; [done |]. by apply Hc.
        -- right. exists c'. split; [by right | done].
      * intros [? | (c' & Hin & -> & Hcn)]; [by left; left |].
        apply elem_of_cons in Hin as [-> | Hin]; [by left; right |].
        right. eauto.
    + split.
      * intros [? | (c' & Hin & ? & ?)]; [by left |].
        right. exists c'. split; [by right | done].
      * intros [? | (c' & Hin & -> & Hcn)]; [by left |].
        apply elem_of_cons in Hin as [-> | Hin].
        -- apply Hc in Hcn. done.
        -- right. eauto.
Qed.

Lemma highlight_loop_resolves map name cs : ∀ acc,
  Forall (fun c => is_resolved (leaves_of map c) = true) cs →
  ∃ ids, highlight_loop map name cs acc = Resolved ids.
Proof.
  induction cs as [|c cs IH]; simpl; intros acc Hcs; [eauto |].
  apply Forall_cons in Hcs as [Hc Hcs]. unfold leaves_of in Hc.
  destruct (getClusterFeatures map (cluster_id (properties c))); [|done].
  simpl. by apply IH.
Qed.

Lemma highlight_loop_rejects map name cs : ∀ acc,
  ¬ Forall (fun c => is_resolved (leaves_of map c) = true) cs →
  ∃ e, highlight_loop map name cs acc = Rejected e.
Proof.
  induction cs as [|c cs IH]; simpl; intros acc Hcs.
  - destruct Hcs. constructor.
  - unfold leaves_of in Hcs at 1.
    destruct (getClusterFeatures map (cluster_id (properties c))) eqn:Hl;
      simpl; [|eauto].
    apply IH. intros Hall. apply Hcs. constructor; [|done].
    unfold leaves_of. by rewrite Hl.
Qed.

Lemma truthy_Some name : truthy (Some name) = true ↔ name ≠ "".
Proof.
  simpl. rewrite negb_true_iff, bool_decide_eq_false. done.
Qed.

Lemma matches_no_cluster f : matches no_cluster f = false.
Proof.
  unfold no_cluster, matches, property. simpl.
  by destruct (cluster_id (properties f)).
Qed.

Lemma matches_common_name name f :
  matches (In_ "common_name" [JStr name]) f = true
  ↔ common_name (properties f) = Some name.
Proof.
  unfold matches, property. simpl.
  destruct (common_name (properties f)) as [n|]; simpl.
  - rewrite bool_decide_eq_true, list_elem_of_singleton. split; congruence.
  - split; done.
Qed.

(** C1, as the code has it.  For a category with a non-empty name, when
    every rendered cluster can be expanded, [highlightTree] sets the filter
    of the point overlay to equality with the name and the filter of the
    cluster overlay to the identifiers of the rendered clusters whose
    expansion contains an entity of that name; when an expansion fails it
    rejects and sets no filter.  Without a category ([null] or the empty
    name) both overlays get the filters [addTreeLayers] created them with:
    the cluster filter matches no feature, and the point filter matches the
    features whose name is the empty string. *)
Theorem highlight_filters (map : Map) (treeName : option string) :
  (∀ name, treeName = Some name → name ≠ "" →
     (clusters_expandable map →
      ∃ map' ids,
        highlightTree (Some map) treeName = (Some map', Resolved ())
        ∧ filter_of map' "highlighted-point" = Some (In_ "common_name" [JStr name])
        ∧ filter_of map' "highlighted-cluster" = Some (In_ "cluster_id" (js_num <$> ids))
        ∧ (∀ f, matches (In_ "common_name" [JStr name]) f = true
                ↔ common_name (properties f) = Some name)
        ∧ (∀ id, id ∈ ids ↔
                 ∃ c, c ∈ queryRenderedFeatures map ["clusters"]
                      ∧ id = cluster_id (properties c)
                      ∧ contains_named map name c))
     ∧ (¬ clusters_expandable map →
        ∃ e, highlightTree (Some map) treeName = (Some map, Rejected e)))
  ∧ (truthy treeName = false →
     ∃ map',
       highlightTree (Some map) treeName = (Some map', Resolved ())
       ∧ filter_of map' "highlighted-point" = Some no_point
       ∧ filter_of map' "highlighted-cluster" = Some no_cluster
       ∧ filter_of (addTreeLayers map) "highlighted-point" = Some no_point
       ∧ filter_of (addTreeLayers map) "highlighted-cluster" = Some no_cluster
       ∧ (∀ f, matches no_cluster f = false)
       ∧ (∀ f, matches no_point f = true ↔ common_name (properties f) = Some "")).
Proof.
  split.
  - intros name -> Hname. apply truthy_Some in Hname.
    unfold highlightTree. rewrite Hname. split.
    + intros Hexp.
      destruct (highlight_loop_resolves map name _ [] Hexp) as [ids Hids].
      rewrite Hids. eexists _, ids. split; [reflexivity |].
      split; [reflexivity |]. split; [reflexivity |].
      split; [apply matches_common_name |].
      intros id. rewrite (highlight_loop_resolved _ _ _ _ _ Hids id).
      split; [intros [Hin | ?]; [inversion Hin | done] | by right].
    + intros Hexp.
      destruct (highlight_loop_rejects map name _ [] Hexp) as [e He].
      rewrite He. eauto.
  - intros Hfalsy. unfold highlightTree.
    destruct treeName as [name|]; [rewrite Hfalsy |];
      (eexists; split; [reflexivity |]; repeat (split; [reflexivity |]);
       split; [apply matches_no_cluster | apply (matches_common_name "")]).
Qed.

Lemma highlight_filters_witness :
  clusters_expandable map_oaks
  ∧ ∃ map' ids,
      highlightTree (Some map_oaks) (Some "Oak") = (Some map', Resolved ())
      ∧ filter_of map' "highlighted-cluster" = Some (In_ "cluster_id" (js_num <$> ids))
      ∧ (Some 7 ∈ ids).
Proof.
  assert (clusters_expandable map_oaks) as Hexp.
  { apply (bool_decide_unpack _). vm_compute. exact I. }
  split; [exact Hexp |].
  destruct (highlight_filters map_oaks (Some "Oak")) as [Hsel _].
  destruct (Hsel "Oak" eq_refl ltac:(discriminate)) as [Hok _].
  destruct (Hok Hexp) as (map' & ids & Hh & _ & Hc & _ & Hids).
  exists map', ids. split; [exact Hh |]. split; [exact Hc |].
  apply Hids. exists c7. split.
  - apply (bool_decide_unpack _). vm_compute. exact I.
  - split; [reflexivity |]. exists [oak1; oak2; oak3], oak1.
    split; [reflexivity |]. split; [by left | reflexivity].
Defined.

(** C1 as the specification words it fails.  With "Oak" selected, cluster 7
    holds oaks, but the index does not know cluster 9: the promise rejects
    and both overlays keep the filters they were created with.  With the
    empty name selected, the rendered cluster 7 holds a tree of that name,
    but the cluster overlay gets the filter that matches no feature.  And
    with nothing selected, the filter of the point overlay is not one that
    matches nothing: it matches the tree without a name. *)
Lemma highlight_not_as_specified :
  (contains_named (addTreeLayers map_stale) "Oak" c7
   ∧ ∃ map',
       (highlightTree (Some (addTreeLayers map_stale)) (Some "Oak")).1 = Some map'
       ∧ (highlightTree (Some (addTreeLayers map_stale)) (Some "Oak")).2
         = Rejected (ClusterExpansionError "No cluster with the specified id")
       ∧ filter_of map' "highlighted-point" = Some (In_ "common_name" [JStr ""])
       ∧ filter_of map' "highlighted-cluster" = Some (In_ "cluster_id" [JStr ""]))
  ∧ (c7 ∈ queryRenderedFeatures (addTreeLayers map_nameless) ["clusters"]
     ∧ contains_named (addTreeLayers map_nameless) "" c7
     ∧ ∃ map',
         highlightTree (Some (addTreeLayers map_nameless)) (Some "")
         = (Some map', Resolved ())
         ∧ filter_of map' "highlighted-cluster" = Some no_cluster
         ∧ matches no_cluster c7 = false)
  ∧ (∃ map',
       highlightTree (Some (addTreeLayers map_nameless)) None
       = (Some map', Resolved ())
       ∧ filter_of map' "highlighted-point" = Some no_point
       ∧ matches no_point nameless = true).
Proof.
  split; [split |split].
  - exists [oak1; oak2; oak3], oak1.
    split; [reflexivity |]. split; [by left | reflexivity].
  - eexists. split; [vm_compute; reflexivity |].
    repeat split; vm_compute; reflexivity.
  - split; [by left |]. split.
    + exists [nameless; oak1; oak2], nameless.
      split; [reflexivity |]. split; [by left | reflexivity].
    + eexists. split; [reflexivity |]. split; reflexivity.
  - eexists. split; [reflexivity |]. split; reflexivity.
Qed.

(** ** The sidebar toggle *)

Lemma handleTreeListClick_state treeName st :
  h_highlightedTree (handleTreeListClick treeName st)
  = if decide (Some treeName = h_highlightedTree st) then None else Some treeName.
Proof. done. Qed.

(** C6: clicking a category that is not highlighted highlights it, and
    clicking it again leaves nothing highlighted; clicking [A] and then
    another category [B] leaves [B] highlighted. *)
Theorem toggle_highlight (st : Highlight) (A B : string) :
  (h_highlightedTree st ≠ Some A →
     h_highlightedTree (handleTreeListClick A st) = Some A
     ∧ h_highlightedTree (handleTreeListClick A (handleTreeListClick A st)) = None)
  ∧ (A ≠ B →
     h_highlightedTree (handleTreeListClick B (handleTreeListClick A st)) = Some B).
Proof.
  rewrite !handleTreeListClick_state. split.
  - intros Hne. rewrite (decide_False (P := Some A = h_highlightedTree st)) by done.
    by rewrite decide_True.
  - intros Hne. destruct (decide (Some A = h_highlightedTree st)).
    + by rewrite decide_False.
    + rewrite decide_False; [done | congruence].
Qed.

Lemma toggle_highlight_witness :
  let st := mkHighlight (Some map_oaks) None [] in
  h_highlightedTree st ≠ Some "Oak" ∧ "Oak" ≠ "Maple"
  ∧ h_highlightedTree (handleTreeListClick "Oak" (handleTreeListClick "Oak" st)) = None
  ∧ h_highlightedTree (handleTreeListClick "Maple" (handleTreeListClick "Oak" st))
    = Some "Maple".
Proof.
  intros st.
  assert (h_highlightedTree st ≠ Some "Oak") as H1 by discriminate.
  assert ("Oak" ≠ "Maple") as H2 by discriminate.
  split; [exact H1 |]. split; [exact H2 |].
  destruct (toggle_highlight st "Oak" "Maple") as [Htwice Hswitch].
  split; [exact (proj2 (Htwice H1)) | exact (Hswitch H2)].
Defined.

(** ** Adding and removing trees *)

Section Api_facts.
Context {Tree : Type} (treeToFeature : Tree → Feature).

Lemma payload_eta (newTree : NewTree) :
  mkNewTree (tree_id newTree) (latin_name newTree) (new_common_name newTree)
            (latitude newTree) (longitude newTree) (source newTree)
            (is_native newTree) = newTree.
Proof. by destruct newTree. Qed.

(** The handler that is not disturbed: the call, then the answer. *)
Lemma handleAddTreeSubmit_undisturbed
    (sendAddLocation : NewTree → Promise Tree) (newTree : NewTree)
    (st : Mutation) :
  handleAddTreeSubmit treeToFeature sendAddLocation newTree st
  = (let suspended := handleAddTreeSubmit_call newTree st in
     handleAddTreeSubmit_resume treeToFeature suspended.2
       (sendAddLocation (add_payload suspended.2)) suspended.1).
Proof.
  unfold handleAddTreeSubmit, handleAddTreeSubmit_call, handleAddTreeSubmit_resume.
  cbn [fst snd add_payload add_treeLocations m_treeLocations m_isFormVisible m_calls].
  by destruct (sendAddLocation _).
Qed.

End Api_facts.



(** C4, as the code has it: when the prompt is cancelled or answered with
    the empty string, [removeTree] alerts and returns; [sendRemoveLocation]
    is not called and the collection is the one before.  Any other answer,
    blank or not, is sent to the remote API as it is. *)
Theorem removal_needs_nonempty_answer (prompt : option string)
    (sendRemoveLocation : Z → string → Promise unit) (locationId : Z)
    (st : Mutation) :
  let st' := (removeTree prompt sendRemoveLocation locationId st).1 in
  (prompt = None ∨ prompt = Some "" →
     m_calls st' = m_calls st ++ [Call_prompt "Please enter your name to confirm removal:";
                                  Call_alert "Removal canceled."]
     ∧ m_treeLocations st' = m_treeLocations st)
  ∧ (∀ removedBy, prompt = Some removedBy → removedBy ≠ "" →
     m_calls st' = m_calls st ++ [Call_prompt "Please enter your name to confirm removal:";
                                  Call_sendRemoveLocation locationId removedBy]).
Proof.
  unfold removeTree. split.
  - intros [-> | ->]; simpl; by rewrite <- app_assoc.
  - intros removedBy -> Hne. apply truthy_Some in Hne. rewrite Hne. simpl.
    rewrite <- app_assoc. by destruct (sendRemoveLocation locationId removedBy).
Qed.

Lemma removal_needs_nonempty_answer_witness :
  let st := mkMutation some_trees false [] in
  let send := fun (_ : Z) (_ : string) => Resolved () in
  (Some "" = None ∨ Some "" = Some "") ∧ "Ada" ≠ ""
  ∧ m_calls (removeTree (Some "") send 4 st).1
    = [Call_prompt "Please enter your name to confirm removal:";
       Call_alert "Removal canceled."]
  ∧ m_calls (removeTree (Some "Ada") send 4 st).1
    = [Call_prompt "Please enter your name to confirm removal:";
       Call_sendRemoveLocation 4 "Ada"].
Proof.
  intros st send.
  assert (Some "" = None ∨ Some "" = Some "") as H1 by (right; reflexivity).
  assert ("Ada" ≠ "") as H2 by discriminate.
  split; [exact H1 |]. split; [exact H2 |]. split.
  - exact (proj1 (proj1 (removal_needs_nonempty_answer (Some "") send 4 st) H1)).
  - exact (proj2 (removal_needs_nonempty_answer (Some "Ada") send 4 st)
             "Ada" eq_refl H2).
Defined.

(** C4 as the specification words it fails: an answer of three blanks is
    taken as a confirmation; the remote delete is called with it and the
    tree is removed. *)
Lemma blank_answer_confirms_removal :
  let st := mkMutation some_trees false [] in
  let send := fun (_ : Z) (_ : string) => Resolved () in
  m_calls (removeTree (Some "   ") send 4 st).1
  = [Call_prompt "Please enter your name to confirm removal:";
     Call_sendRemoveLocation 4 "   "]
  ∧ features (m_treeLocations (removeTree (Some "   ") send 4 st).1) = [oak1; oak2].
Proof. split; vm_compute; reflexivity. Qed.

(** The removal that is not disturbed: the popup is opened, its close
    button is clicked, and the answer comes. *)
Lemma removeTree_undisturbed (prompt : option string)
    (sendRemoveLocation : Z → string → Promise unit) (locationId : Z)
    (st : Mutation) :
  removeTree prompt sendRemoveLocation locationId st
  = (let suspended := removeTree_call (close_listener locationId st) prompt st in
     match suspended.2 with
     | Some pending =>
         removeTree_resume pending
           (sendRemoveLocation locationId (default "" prompt)) suspended.1
     | None => (suspended.1, Resolved ())
     end).
Proof.
  unfold removeTree, removeTree_call, removeTree_resume, close_listener.
  cbn [close_locationId close_treeLocations].
  destruct (negb (truthy prompt)); [done |].
  cbn [fst snd remove_treeLocations remove_locationId
       m_treeLocations m_isFormVisible m_calls].
  by destruct (sendRemoveLocation _ _).
Qed.




(** ** The event loop *)

Ltac loop_cbn :=
  cbn [set_mapRef set_longPressTimeoutRef set_debounceTimer setHighlightedTree
       setVisibleTrees setNewTreeCoordinates setIsFormVisible set_popupOpen
       setMapLoaded setDataLoaded setLayersLoaded set_idleOnce set_now
       set_timers set_nextTimer log setTimeout clearTimeout handleLongPress
       mapRef longPressTimeoutRef debounceTimer highlightedTree visibleTrees
       newTreeCoordinates isFormVisible popupOpen mapLoaded dataLoaded
       layersLoaded idleOnce now timers nextTimer calls
       run_task fst snd timer_id due task].

Tactic Notation "loop_cbn" "in" hyp(H) :=
  cbn [set_mapRef set_longPressTimeoutRef set_debounceTimer setHighlightedTree
       setVisibleTrees setNewTreeCoordinates setIsFormVisible set_popupOpen
       setMapLoaded setDataLoaded setLayersLoaded set_idleOnce set_now
       set_timers set_nextTimer log setTimeout clearTimeout handleLongPress
       mapRef longPressTimeoutRef debounceTimer highlightedTree visibleTrees
       newTreeCoordinates isFormVisible popupOpen mapLoaded dataLoaded
       layersLoaded idleOnce now timers nextTimer calls
       run_task fst snd timer_id due task] in H.

Lemma advance_no_timers t s :
  timers s = [] → advance t s = set_now (t `max` now s)%nat s.
Proof. intros Ht. unfold advance. by rewrite Ht. Qed.

Lemma advance_early t s tm :
  timers s = [tm] → (t < due tm)%nat → advance t s = set_now (t `max` now s)%nat s.
Proof.
  intros Ht Hlt. unfold advance. rewrite Ht. cbn [length fire].
  rewrite Ht. cbn [earliest]. by rewrite decide_False by lia.
Qed.

Lemma advance_due t s tm :
  timers s = [tm] → (due tm ≤ t)%nat →
  let s' := run_task tm (set_now (due tm `max` now s)%nat
                                 (clearTimeout (timer_id tm) s)) in
  advance t s = set_now (t `max` now s')%nat s'.
Proof.
  intros Ht Hle. unfold advance. rewrite Ht. cbn [length fire].
  rewrite Ht. cbn [earliest]. by rewrite decide_True by lia.
Qed.


Lemma handle_down s down event :
  listening s → is_down down event → handle down s = startPress event s.
Proof.
  unfold listening. intros Hl [-> | ->]; unfold handle; by rewrite Hl.
Qed.

Lemma handle_up s up :
  listening s → is_up up → handle up s = endPress s.
Proof.
  unfold listening. intros Hl [-> | [-> | ->]]; unfold handle; by rewrite Hl.
Qed.

Lemma calls_updateVisibleTrees map s :
  calls (updateVisibleTrees map setVisibleTrees s).1 = calls s.
Proof. unfold updateVisibleTrees. by destruct (visible_trees map). Qed.

Lemma calls_updateMap treeName s :
  calls (updateMap treeName s)
  = calls s ++ Call_highlightTree treeName
      :: (if is_resolved (highlightTree (mapRef s) treeName).2
          then [Call_updateVisibleTrees] else []).
Proof.
  unfold updateMap. loop_cbn.
  destruct (highlightTree (mapRef s) treeName) as [mapRef' [[]|e]]; loop_cbn.
  - destruct mapRef' as [map|]; [rewrite calls_updateVisibleTrees|];
      loop_cbn; by rewrite <- app_assoc.
  - done.
Qed.

Lemma handle_viewport s ev :
  mapLoaded s = true → is_viewport ev → handle ev s = debouncedUpdateMap s.
Proof. intros Hl [-> | ->]; unfold handle; by rewrite Hl. Qed.

Lemma debouncedUpdateMap_timers s :
  timers s = [] →
  timers (debouncedUpdateMap s)
  = [mkTimer (nextTimer s) (now s + 300) (Task_updateMap (highlightedTree s))].
Proof.
  intros Ht. unfold debouncedUpdateMap.
  destruct (debounceTimer s) as [id|]; loop_cbn; by rewrite Ht.
Qed.


Lemma debouncedUpdateMap_frame s :
  calls (debouncedUpdateMap s) = calls s
  ∧ mapRef (debouncedUpdateMap s) = mapRef s
  ∧ highlightedTree (debouncedUpdateMap s) = highlightedTree s
  ∧ mapLoaded (debouncedUpdateMap s) = mapLoaded s
  ∧ now (debouncedUpdateMap s) = now s
  ∧ nextTimer (debouncedUpdateMap s) = S (nextTimer s)
  ∧ debounceTimer (debouncedUpdateMap s) = Some (nextTimer s).
Proof. unfold debouncedUpdateMap. by destruct (debounceTimer s). Qed.




Lemma calls_on_idle s : calls (on_idle s) = calls s ++ [Call_updateVisibleTrees].
Proof.
  unfold on_idle. loop_cbn. destruct (mapRef s) as [map|]; [|done].
  unfold updateVisibleTrees. by destruct (visible_trees map).
Qed.


Lemma calls_click treeName s :
  calls (click treeName s)
  = calls s ++ [Call_highlightTree
                  (if decide (Some treeName = highlightedTree s)
                   then None else Some treeName)].
Proof. unfold click. by case_bool_decide. Qed.

Lemma timers_click treeName s : timers (click treeName s) = timers s.
Proof. unfold click. by case_bool_decide. Qed.

Lemma highlightedTree_click treeName s :
  highlightedTree (click treeName s)
  = if decide (Some treeName = highlightedTree s) then None else Some treeName.
Proof. unfold click. by case_bool_decide. Qed.




(** *** Timers that run while the clock advances *)

Lemma earliest_None ts : earliest ts = None → ts = [].
Proof.
  destruct ts as [|t rest]; [done |]. simpl.
  destruct (earliest rest) as [t'|]; [|done]. by destruct (decide _).
Qed.

Lemma earliest_elem ts tm : earliest ts = Some tm → tm ∈ ts.
Proof.
  revert tm. induction ts as [|t rest IH]; intros tm; [done |]. simpl.
  destruct (earliest rest) as [t'|].
  - destruct (decide _); intros [= <-]; [right; by apply IH | by left].
  - intros [= <-]. by left.
Qed.

Lemma earliest_min ts tm x :
  earliest ts = Some tm → x ∈ ts → (due tm ≤ due x)%nat.
Proof.
  revert tm. induction ts as [|t rest IH]; intros tm; [done |]. simpl.
  intros He Hx. apply elem_of_cons in Hx.
  destruct (earliest rest) as [t'|] eqn:Hrest.
  - pose proof (fun H => IH t' eq_refl H) as IH'.
    destruct (decide _); injection He as <-.
    + destruct Hx as [-> | Hx]; [lia | by apply IH'].
    + destruct Hx as [-> | Hx]; [lia |]. specialize (IH' Hx). lia.
  - injection He as <-. apply earliest_None in Hrest. subst rest.
    destruct Hx as [-> | Hx]; [lia | inversion Hx].
Qed.

Lemma highlightTree_hit mapRef treeName event :
  (fun map => hit map event) <$> (highlightTree mapRef treeName).1
  = (fun map => hit map event) <$> mapRef.
Proof.
  destruct mapRef as [map|]; [|done]. unfold highlightTree.
  destruct treeName as [name|]; [|done].
  destruct (truthy (Some name)); [|done].
  by destruct (highlight_loop _ _ _ _).
Qed.

Lemma intents_app s l :
  omap (fun c => match c with Call_handleLongPress p => Some p | _ => None end)
       (calls s ++ l)
  = intents s
    ++ omap (fun c => match c with Call_handleLongPress p => Some p | _ => None end) l.
Proof. unfold intents. by rewrite omap_app. Qed.

Lemma updateMap_frame treeName s :
  gesture_frame s (updateMap treeName s)
  ∧ intents (updateMap treeName s) = intents s.
Proof.
  split.
  - unfold gesture_frame, hit_test, updateMap. loop_cbn.
    pose proof (highlightTree_hit (mapRef s) treeName) as Hhit.
    destruct (highlightTree (mapRef s) treeName) as [mapRef' [[]|e]]; loop_cbn.
    + destruct mapRef' as [map'|]; [|by repeat split].
      unfold updateVisibleTrees. destruct (visible_trees map'); by repeat split.
    + by repeat split.
  - unfold intents at 1. rewrite calls_updateMap, intents_app.
    destruct (is_resolved _); cbn; by rewrite app_nil_r.
Qed.

Lemma run_task_frame tm s :
  gesture_frame s (run_task tm s)
  ∧ intents (run_task tm s) = intents s ++ option_list (pending_intent tm).
Proof.
  unfold run_task, pending_intent. destruct (task tm) as [event | treeName].
  - split; [by repeat split |].
    unfold intents at 1. loop_cbn. by rewrite intents_app.
  - destruct (updateMap_frame treeName
                (if decide (debounceTimer s = Some (timer_id tm))
                 then set_debounceTimer None s else s)) as [Hf Hi].
    rewrite Hi. cbn [option_list]. rewrite app_nil_r.
    destruct (decide _); by split.
Qed.

Lemma NoDup_fmap_filter {A B} (f : A → B) (P : A → Prop) `{∀ x, Decision (P x)} l :
  NoDup (f <$> l) → NoDup (f <$> filter P l).
Proof.
  induction l as [|x l IH]; [done |].
  rewrite fmap_cons, NoDup_cons. intros [Hx Hnd].
  cbn [filter list_filter]. destruct (decide (P x)); [|by apply IH].
  rewrite fmap_cons. apply NoDup_cons. split; [|by apply IH].
  intros Hin. apply Hx. apply list_elem_of_fmap in Hin as (y & Hy & Hin).
  apply list_elem_of_filter in Hin as [_ Hin]. apply list_elem_of_fmap. eauto.
Qed.

Lemma filter_all {A} (P : A → Prop) `{∀ x, Decision (P x)} (l : list A) :
  (∀ x, x ∈ l → P x) → filter P l = l.
Proof.
  induction l as [|x l IH]; intros Hall; [done |].
  cbn [filter list_filter]. rewrite decide_True by (apply Hall; by left).
  f_equal. apply IH. intros y Hy. apply Hall. by right.
Qed.

Lemma filter_none {A} (P : A → Prop) `{∀ x, Decision (P x)} (l : list A) :
  (∀ x, x ∈ l → ¬ P x) → filter P l = [].
Proof.
  induction l as [|x l IH]; intros Hall; [done |].
  cbn [filter list_filter]. rewrite decide_False by (apply Hall; by left).
  apply IH. intros y Hy. apply Hall. by right.
Qed.

Lemma filter_others (l : list Timer) tm :
  NoDup (timer_id <$> l) → tm ∈ l →
  ∃ l1 l2, l = l1 ++ tm :: l2
           ∧ filter (fun x => timer_id x ≠ timer_id tm) l = l1 ++ l2.
Proof.
  intros Hnd Hin. apply list_elem_of_split in Hin as (l1 & l2 & ->).
  exists l1, l2. split; [done |].
  rewrite fmap_app, fmap_cons in Hnd. apply NoDup_app in Hnd as (_ & H1 & Hnd).
  apply NoDup_cons in Hnd as [H2 _].
  rewrite filter_app, filter_cons.
  rewrite decide_False by (intros Hne; by apply Hne).
  rewrite !filter_all; [done | |].
  - intros x Hx Heq. apply H2. rewrite <- Heq. apply list_elem_of_fmap. eauto.
  - intros x Hx Heq. apply (H1 (timer_id x)).
    + apply list_elem_of_fmap. eauto.
    + rewrite Heq. by left.
Qed.

Lemma omap_filter_nil {A B} (f : A → option B) (P : A → Prop)
    `{∀ x, Decision (P x)} (l : list A) :
  omap f l = [] → omap f (filter P l) = [].
Proof.
  induction l as [|x l IH]; [done |]. cbn [omap list_omap filter list_filter].
  destruct (f x) eqn:Hfx; [done |]. intros Hl.
  destruct (decide (P x)); [|by apply IH].
  cbn [omap list_omap]. rewrite Hfx. by apply IH.
Qed.

Lemma omap_option_list {A B} (f : A → option B) (x : A) (l : list A) :
  omap f (x :: l) = option_list (f x) ++ omap f l.
Proof. cbn [omap list_omap]. by destruct (f x). Qed.

(** With at most one long-press timer pending, firing a due timer first
    and the others after it emits what firing them in place would. *)
Lemma pending_after_fired (l : list Timer) tm (t : nat) :
  NoDup (timer_id <$> l) → tm ∈ l → (due tm ≤ t)%nat →
  (length (omap pending_intent l) ≤ 1)%nat →
  option_list (pending_intent tm)
  ++ omap pending_intent
       (filter (fun x => (due x ≤ t)%nat)
               (filter (fun x => timer_id x ≠ timer_id tm) l))
  = omap pending_intent (filter (fun x => (due x ≤ t)%nat) l).
Proof.
  intros Hnd Hin Hdue Hone.
  destruct (filter_others l tm Hnd Hin) as (l1 & l2 & -> & ->).
  rewrite !filter_app, !omap_app, filter_cons.
  rewrite decide_True by done. rewrite omap_option_list.
  rewrite omap_app, omap_option_list, !length_app in Hone.
  destruct (pending_intent tm) as [p|]; [|done].
  cbn [option_list length] in *.
  rewrite !omap_filter_nil; [done | |].
  - destruct (omap pending_intent l2); [done | simpl in Hone; lia].
  - destruct (omap pending_intent l1); [done | simpl in Hone; lia].
Qed.

Lemma fire_spec t fuel : ∀ s,
  (length (timers s) ≤ fuel)%nat → NoDup (timer_id <$> timers s) →
  (length (omap pending_intent (timers s)) ≤ 1)%nat →
  timers (fire fuel t s) = filter (fun tm => (t < due tm)%nat) (timers s)
  ∧ intents (fire fuel t s)
    = intents s
      ++ omap pending_intent (filter (fun tm => (due tm ≤ t)%nat) (timers s))
  ∧ nextTimer (fire fuel t s) = nextTimer s
  ∧ longPressTimeoutRef (fire fuel t s) = longPressTimeoutRef s
  ∧ mapLoaded (fire fuel t s) = mapLoaded s
  ∧ dataLoaded (fire fuel t s) = dataLoaded s
  ∧ layersLoaded (fire fuel t s) = layersLoaded s
  ∧ (∀ event, hit_test (fire fuel t s) event = hit_test s event)
  ∧ (now (fire fuel t s) ≤ t `max` now s)%nat.
Proof.
  induction fuel as [|fuel IH]; intros s Hlen Hnd Hone.
  - destruct (timers s) eqn:Ht; [|simpl in Hlen; lia].
    cbn [fire]. rewrite Ht. cbn. rewrite app_nil_r.
    repeat split; try done. lia.
  - cbn [fire]. destruct (earliest (timers s)) as [tm|] eqn:He.
    + pose proof (earliest_elem _ _ He) as Hin.
      destruct (decide (due tm ≤ t)%nat) as [Hdue | Hlater].
      * set (s0 := set_now _ (clearTimeout (timer_id tm) s)).
        destruct (run_task_frame tm s0)
          as [(Ht1 & Hn1 & Hr1 & Hm1 & Hd1 & Hl1 & Hnow1 & Hh1) Hi1].
        assert (timers s0 = filter (fun x => timer_id x ≠ timer_id tm) (timers s))
          as Ht0 by reflexivity.
        destruct (filter_others _ tm Hnd Hin) as (l1 & l2 & Hl & Hl').
        destruct (IH (run_task tm s0)) as (Ht' & Hi' & Hn' & Hr' & Hm' & Hd' & Hl2 & Hh' & Hnow').
        { rewrite Ht1, Ht0, Hl'. rewrite Hl, length_app in Hlen.
          rewrite length_app. cbn [length] in Hlen. lia. }
        { rewrite Ht1, Ht0. by apply NoDup_fmap_filter. }
        { rewrite Ht1, Ht0, Hl'. rewrite Hl, omap_app, omap_option_list in Hone.
          rewrite !length_app in Hone. rewrite omap_app, length_app. lia. }
        rewrite Ht', Hi', Hn', Hr', Hm', Hd', Hl2, Hn1, Hr1, Hm1, Hd1, Hl1, Hi1.
        rewrite Ht1, Ht0. split; [|split].
        -- rewrite Hl', Hl, !filter_app. cbn [filter list_filter].
           by rewrite decide_False by lia.
        -- change (intents s0) with (intents s). rewrite <- app_assoc. f_equal.
           by apply pending_after_fired.
        -- repeat split; try done.
           ++ intros event. by rewrite Hh', Hh1.
           ++ assert (now s0 = (due tm `max` now s)%nat) as Hnow0 by reflexivity.
              rewrite Hnow1, Hnow0 in Hnow'. lia.
      * rewrite filter_all, filter_none.
        -- cbn. rewrite app_nil_r. repeat split; try done. lia.
        -- intros x Hx. pose proof (earliest_min _ _ _ He Hx). lia.
        -- intros x Hx. pose proof (earliest_min _ _ _ He Hx). lia.
    + apply earliest_None in He. rewrite He. cbn. rewrite app_nil_r.
      repeat split; try done. lia.
Qed.

Lemma Forall_filter_keeps {A} (Q P : A → Prop) `{∀ x, Decision (P x)} (l : list A) :
  Forall Q l → Forall Q (filter P l).
Proof.
  rewrite !Forall_forall. intros Hall x Hx.
  apply list_elem_of_filter in Hx as [_ Hx]. by apply Hall.
Qed.

Lemma advance_spec t s :
  NoDup (timer_id <$> timers s) →
  (length (omap pending_intent (timers s)) ≤ 1)%nat →
  timers (advance t s) = filter (fun tm => (t < due tm)%nat) (timers s)
  ∧ intents (advance t s)
    = intents s
      ++ omap pending_intent (filter (fun tm => (due tm ≤ t)%nat) (timers s))
  ∧ nextTimer (advance t s) = nextTimer s
  ∧ longPressTimeoutRef (advance t s) = longPressTimeoutRef s
  ∧ (listening s → listening (advance t s))
  ∧ (∀ event, hit_test (advance t s) event = hit_test s event)
  ∧ ((now s ≤ t)%nat → now (advance t s) = t).
Proof.
  intros Hnd Hone. unfold advance.
  destruct (fire_spec t (length (timers s)) s)
    as (Ht & Hi & Hn & Hr & Hm & Hd & Hl & Hh & Hnow); [done.. |].
  loop_cbn. repeat split; try done.
  - unfold listening. loop_cbn. by rewrite Hm, Hd, Hl.
  - intros Hle. lia.
Qed.

Lemma idle_filter (P : Timer → Prop) `{∀ x, Decision (P x)} s :
  idle_pointer s → omap pending_intent (filter P (timers s)) = [].
Proof. apply omap_filter_nil. Qed.

Lemma advance_idle t s :
  timers_wf s → idle_pointer s →
  timers_wf (advance t s) ∧ idle_pointer (advance t s)
  ∧ intents (advance t s) = intents s
  ∧ (listening s → listening (advance t s))
  ∧ (∀ event, hit_test (advance t s) event = hit_test s event)
  ∧ nextTimer (advance t s) = nextTimer s
  ∧ timers (advance t s) = filter (fun tm => (t < due tm)%nat) (timers s)
  ∧ ((now s ≤ t)%nat → now (advance t s) = t).
Proof.
  intros (Hnd & Hlt & Hn) Hidle.
  destruct (advance_spec t s Hnd) as (Ht & Hi & Hn' & Hr & Hl & Hh & Hnow).
  { unfold idle_pointer in Hidle. rewrite Hidle. simpl. lia. }
  split; [|split; [|split]].
  - unfold timers_wf. rewrite Ht, Hn'. split; [by apply NoDup_fmap_filter |].
    split; [by apply Forall_filter_keeps | done].
  - unfold idle_pointer. rewrite Ht. by apply idle_filter.
  - rewrite Hi, idle_filter by done. by rewrite app_nil_r.
  - done.
Qed.

Lemma endPress_idle s :
  timers_wf s → idle_pointer s →
  timers_wf (endPress s) ∧ idle_pointer (endPress s)
  ∧ intents (endPress s) = intents s.
Proof.
  intros (Hnd & Hlt & Hn) Hidle. unfold endPress.
  destruct (longPressTimeoutRef s) as [id|]; [|done].
  destruct (decide (id = 0%nat)); [done |].
  split; [|split; [|done]].
  - unfold timers_wf. loop_cbn. split; [by apply NoDup_fmap_filter |].
    split; [by apply Forall_filter_keeps | done].
  - unfold idle_pointer. loop_cbn. by apply idle_filter.
Qed.

Lemma startPress_hit s event f fs :
  hit_test s event = Some (f :: fs) → startPress event s = s.
Proof.
  unfold hit_test, startPress, hit. destruct (mapRef s) as [map|]; [|done].
  intros [= ->]. done.
Qed.

Lemma startPress_empty s event :
  hit_test s event = Some [] →
  startPress event s
  = set_longPressTimeoutRef (Some (nextTimer s))
      (set_nextTimer (S (nextTimer s))
         (set_timers
            (timers s ++ [mkTimer (nextTimer s) (now s + 1000)
                                  (Task_handleLongPress event)])
            (set_popupOpen false s))).
Proof.
  unfold hit_test, startPress, hit. destruct (mapRef s) as [map|]; [|done].
  intros [= ->]. done.
Qed.

Lemma not_pending_until (l : list Timer) (P : Timer → Prop) `{∀ x, Decision (P x)}
    (tm : Timer) :
  omap pending_intent l = [] →
  omap pending_intent (filter P (l ++ [tm]))
  = if decide (P tm) then option_list (pending_intent tm) else [].
Proof.
  intros Hl. rewrite filter_app, omap_app, omap_filter_nil by done.
  rewrite filter_cons. destruct (decide (P tm)); [|done].
  rewrite omap_option_list. by rewrite app_nil_r.
Qed.

Lemma press_released s map (event : PressEvent) (down up : Event) (t0 t1 T : nat) :
  listening s → mapRef s = Some map → timers_wf s → idle_pointer s →
  is_down down event → is_up up →
  (now s ≤ t0)%nat → (t0 ≤ t1)%nat → (t1 ≤ T)%nat →
  intents (advance T (run [(t0, down); (t1, up)] s))
  = intents s ++ (if decide (hit map event = [] ∧ t0 + 1000 ≤ t1)%nat
                  then [lngLat event] else []).
Proof.
  intros Hl Hmap Hwf Hidle Hdown Hup H0 H1 H2.
  unfold run, dispatch. cbn [fold_left fst snd].
  destruct (advance_idle t0 s Hwf Hidle)
    as (Hwf1 & Hidle1 & Hi1 & Hl1 & Hh1 & Hn1 & _ & Hnow1).
  specialize (Hl1 Hl). specialize (Hnow1 H0). specialize (Hh1 event).
  set (s1 := advance t0 s) in *.
  rewrite (handle_down s1 down event Hl1 Hdown).
  unfold hit_test at 2 in Hh1. rewrite Hmap in Hh1. cbn in Hh1.
  destruct (hit map event) as [|f fs] eqn:Hhit.
  - rewrite (startPress_empty s1 event Hh1). rewrite Hnow1, Hn1.
    set (tm := mkTimer (nextTimer s) (t0 + 1000) (Task_handleLongPress event)).
    set (s2 := set_longPressTimeoutRef _ _).
    destruct Hwf1 as (Hnd1 & Hlt1 & Hnz1). rewrite Hn1 in Hlt1, Hnz1.
    assert (NoDup (timer_id <$> timers s2)) as Hnd2.
    { unfold s2. loop_cbn. rewrite fmap_app. apply NoDup_app.
      split; [done |]. split; [|apply NoDup_singleton].
      intros id Hid Hid'. apply list_elem_of_singleton in Hid'. subst id.
      apply list_elem_of_fmap in Hid as (x & Hx & Hin).
      rewrite Forall_forall in Hlt1. specialize (Hlt1 x Hin).
      unfold tm in Hx. cbn in Hx. lia. }
    destruct (advance_spec t1 s2 Hnd2) as (Ht3 & Hi3 & Hn3 & Hr3 & Hl3 & _).
    { unfold s2. loop_cbn. rewrite omap_app, Hidle1. cbn. lia. }
    set (s3 := advance t1 s2) in *.
    assert (listening s3) as Hls3 by (apply Hl3; exact Hl1).
    rewrite (handle_up s3 up Hls3 Hup). unfold endPress.
    rewrite Hr3. change (longPressTimeoutRef s2) with (Some (nextTimer s)).
    cbv beta iota. rewrite (decide_False (P := nextTimer s = 0%nat)) by exact Hnz1.
    set (s4 := set_longPressTimeoutRef None _).
    assert (timers s4
            = filter (fun x => timer_id x ≠ nextTimer s)
                (filter (fun x => (t1 < due x)%nat) (timers s1 ++ [tm]))) as Ht4.
    { unfold s4. loop_cbn. by rewrite Ht3. }
    assert (idle_pointer s4) as Hidle4.
    { unfold idle_pointer. rewrite Ht4, filter_app, filter_app, omap_app.
      rewrite (omap_filter_nil _ _ (filter _ (timers s1)))
        by (by apply omap_filter_nil).
      cbn [app]. rewrite !filter_cons.
      destruct (decide (t1 < due tm)%nat); [|done].
      rewrite filter_cons. by rewrite decide_False by (intros Hne; by apply Hne). }
    assert (timers_wf s4) as Hwf4.
    { unfold timers_wf. rewrite Ht4. split; [|split].
      - do 2 apply NoDup_fmap_filter. exact Hnd2.
      - unfold s4. loop_cbn. rewrite Hn3. unfold s2. loop_cbn.
        do 2 apply Forall_filter_keeps. apply Forall_app. split.
        + eapply Forall_impl; [exact Hlt1 |]. intros x Hx. cbn beta in Hx. lia.
        + constructor; [|constructor]. unfold tm. cbn. lia.
      - unfold s4. loop_cbn. rewrite Hn3. unfold s2. loop_cbn. lia. }
    destruct (advance_idle T s4 Hwf4 Hidle4) as (_ & _ & Hi5 & _).
    rewrite Hi5. unfold s4. unfold intents at 1. loop_cbn. fold (intents s3).
    rewrite Hi3. unfold s2 at 1. unfold intents at 1. loop_cbn. fold (intents s1).
    rewrite Hi1. f_equal.
    unfold s2. loop_cbn. rewrite not_pending_until by exact Hidle1.
    unfold tm at 1 2. cbn [due pending_intent task option_list].
    destruct (decide (t0 + 1000 ≤ t1)%nat).
    + by rewrite decide_True by done.
    + by rewrite decide_False by (intros [_ ?]; done).
  - rewrite (startPress_hit s1 event f fs Hh1).
    destruct (advance_idle t1 s1 Hwf1 Hidle1) as (Hwf3 & Hidle3 & Hi3 & Hl3 & _).
    set (s3 := advance t1 s1) in *.
    rewrite (handle_up s3 up (Hl3 Hl1) Hup).
    destruct (endPress_idle s3 Hwf3 Hidle3) as (Hwf4 & Hidle4 & Hi4).
    destruct (advance_idle T (endPress s3) Hwf4 Hidle4) as (_ & _ & Hi5 & _).
    rewrite Hi5, Hi4, Hi3, Hi1.
    rewrite decide_False by (intros [? _]; done). by rewrite app_nil_r.
Qed.

Lemma press_held s map (event : PressEvent) (down : Event) (t0 T : nat) :
  listening s → mapRef s = Some map → timers_wf s → idle_pointer s →
  is_down down event → (now s ≤ t0)%nat → (t0 ≤ T)%nat →
  intents (advance T (run [(t0, down)] s))
  = intents s ++ (if decide (hit map event = [] ∧ t0 + 1000 ≤ T)%nat
                  then [lngLat event] else []).
Proof.
  intros Hl Hmap Hwf Hidle Hdown H0 H1.
  unfold run, dispatch. cbn [fold_left fst snd].
  destruct (advance_idle t0 s Hwf Hidle)
    as (Hwf1 & Hidle1 & Hi1 & Hl1 & Hh1 & Hn1 & _ & Hnow1).
  specialize (Hl1 Hl). specialize (Hnow1 H0). specialize (Hh1 event).
  set (s1 := advance t0 s) in *.
  rewrite (handle_down s1 down event Hl1 Hdown).
  unfold hit_test at 2 in Hh1. rewrite Hmap in Hh1. cbn in Hh1.
  destruct (hit map event) as [|f fs] eqn:Hhit.
  - rewrite (startPress_empty s1 event Hh1). rewrite Hnow1, Hn1.
    set (tm := mkTimer (nextTimer s) (t0 + 1000) (Task_handleLongPress event)).
    set (s2 := set_longPressTimeoutRef _ _).
    destruct Hwf1 as (Hnd1 & Hlt1 & Hnz1). rewrite Hn1 in Hlt1, Hnz1.
    assert (NoDup (timer_id <$> timers s2)) as Hnd2.
    { unfold s2. loop_cbn. rewrite fmap_app. apply NoDup_app.
      split; [done |]. split; [|apply NoDup_singleton].
      intros id Hid Hid'. apply list_elem_of_singleton in Hid'. subst id.
      apply list_elem_of_fmap in Hid as (x & Hx & Hin).
      rewrite Forall_forall in Hlt1. specialize (Hlt1 x Hin).
      unfold tm in Hx. cbn in Hx. lia. }
    destruct (advance_spec T s2 Hnd2) as (_ & Hi3 & _).
    { unfold s2. loop_cbn. rewrite omap_app, Hidle1. cbn. lia. }
    rewrite Hi3. unfold s2 at 1. unfold intents at 1. loop_cbn. fold (intents s1).
    rewrite Hi1. f_equal.
    unfold s2. loop_cbn. rewrite not_pending_until by exact Hidle1.
    unfold tm at 1 2. cbn [due pending_intent task option_list].
    destruct (decide (t0 + 1000 ≤ T)%nat).
    + by rewrite decide_True by done.
    + by rewrite decide_False by (intros [_ ?]; done).
  - rewrite (startPress_hit s1 event f fs Hh1).
    destruct (advance_idle T s1 Hwf1 Hidle1) as (_ & _ & Hi3 & _).
    rewrite Hi3, Hi1.
    rewrite decide_False by (intros [? _]; done). by rewrite app_nil_r.
Qed.

(** *** The form follows the create-intents *)

Lemma form_follows_refl s : form_follows s s.
Proof. exists []. by rewrite app_nil_r. Qed.

Lemma form_follows_trans s1 s2 s3 :
  form_follows s1 s2 → form_follows s2 s3 → form_follows s1 s3.
Proof.
  intros (l1 & Hi1 & Hf1) (l2 & Hi2 & Hf2). exists (l1 ++ l2).
  split; [by rewrite Hi2, Hi1, app_assoc |].
  rewrite Hf2, last_app. by destruct (last l2).
Qed.

Lemma form_follows_same s s' :
  intents s' = intents s → form s' = form s → form_follows s s'.
Proof. intros Hi Hf. exists []. by rewrite app_nil_r. Qed.

Lemma updateMap_form treeName s : form (updateMap treeName s) = form s.
Proof.
  unfold form, updateMap. loop_cbn.
  destruct (highlightTree (mapRef s) treeName) as [mapRef' [[]|e]]; loop_cbn; [|done].
  destruct mapRef' as [map'|]; [|done].
  unfold updateVisibleTrees. by destruct (visible_trees map').
Qed.

Lemma form_follows_run_task tm s : form_follows s (run_task tm s).
Proof.
  destruct (run_task_frame tm s) as [_ Hi].
  exists (option_list (pending_intent tm)). split; [done |].
  unfold run_task, pending_intent. destruct (task tm) as [event | treeName]; [done |].
  cbn [option_list last]. rewrite updateMap_form. by destruct (decide _).
Qed.

Lemma form_follows_fire t fuel : ∀ s, form_follows s (fire fuel t s).
Proof.
  induction fuel as [|fuel IH]; intros s; [apply form_follows_refl |].
  cbn [fire]. destruct (earliest (timers s)) as [tm|]; [| apply form_follows_refl].
  destruct (decide (due tm ≤ t)%nat); [| apply form_follows_refl].
  eapply form_follows_trans; [| apply IH].
  eapply form_follows_trans; [| apply form_follows_run_task].
  by apply form_follows_same.
Qed.

Lemma form_follows_advance t s : form_follows s (advance t s).
Proof.
  unfold advance. eapply form_follows_trans; [apply form_follows_fire |].
  by apply form_follows_same.
Qed.

Lemma form_follows_handle ev s : form_follows s (handle ev s).
Proof.
  assert (form_follows s (debouncedUpdateMap s)) as Hdebounced.
  { apply form_follows_same.
    - unfold intents. by rewrite (proj1 (debouncedUpdateMap_frame s)).
    - unfold debouncedUpdateMap. by destruct (debounceTimer s). }
  assert (∀ event, form_follows s (startPress event s)) as Hstart.
  { intros event. unfold startPress. destruct (mapRef s); [| apply form_follows_refl].
    destruct (decide _); [by apply form_follows_same | apply form_follows_refl]. }
  assert (form_follows s (endPress s)) as Hend.
  { unfold endPress. destruct (longPressTimeoutRef s); [| apply form_follows_refl].
    destruct (decide _); [apply form_follows_refl | by apply form_follows_same]. }
  assert (∀ s', intents s' = intents s → form s' = form s →
                form_follows s (layers_effect s')) as Hlayers.
  { intros s' Hi Hf. apply form_follows_same; unfold layers_effect;
      by destruct (mapLoaded s' && dataLoaded s'). }
  destruct ev; cbn [handle];
    try (destruct (mapLoaded s && dataLoaded s && layersLoaded s);
         [done | apply form_follows_refl]).
  - by apply Hlayers.
  - by apply Hlayers.
  - destruct (idleOnce s); [| apply form_follows_refl].
    apply form_follows_same.
    + unfold intents at 1. rewrite calls_on_idle. loop_cbn.
      rewrite intents_app. cbn. apply app_nil_r.
    + unfold form, on_idle, updateVisibleTrees. loop_cbn.
      destruct (mapRef s) as [map|]; [| done]. by destruct (visible_trees map).
  - destruct (mapLoaded s); [done | apply form_follows_refl].
  - destruct (mapLoaded s); [done | apply form_follows_refl].
  - apply form_follows_same.
    + unfold intents at 1. rewrite calls_click, intents_app. cbn. apply app_nil_r.
    + unfold form, click. by case_bool_decide.
Qed.

Lemma form_follows_run events : ∀ s, form_follows s (run events s).
Proof.
  induction events as [|[t ev] events IH]; intros s; [apply form_follows_refl |].
  change (run ((t, ev) :: events) s) with (run events (dispatch (t, ev) s)).
  eapply form_follows_trans; [| apply IH]. unfold dispatch.
  eapply form_follows_trans; [apply form_follows_advance | apply form_follows_handle].
Qed.

Lemma form_of_intents s s' emitted :
  form_follows s s' → intents s' = intents s ++ emitted →
  form s' = match last emitted with
            | Some lngLat => (true, Some lngLat)
            | None => form s
            end.
Proof.
  intros (l & Hi & Hf) He. rewrite Hi in He. apply app_inv_head in He. by subst.
Qed.

(** C5: in a session that starts while no press is in progress, whatever
    viewport timers are pending, a press that is released at [t1] emits a
    create-intent exactly when nothing was under the pointer and [t1] is at
    least 1000ms after the start, and a press that is still held at [T]
    exactly when nothing was under the pointer and [T] is at least 1000ms
    after the start; the intent is emitted once and carries the coordinate
    of the event that started the press.  When it is emitted the form is
    shown with that coordinate, and when it is not the form is as it was
    before the press. *)
Theorem long_press_emits_intent (s : Loop) (map : Map) (event : PressEvent)
    (down up : Event) (t0 t1 T : nat) :
  listening s → mapRef s = Some map → timers_wf s → idle_pointer s →
  is_down down event → is_up up →
  (now s ≤ t0)%nat → (t0 ≤ t1)%nat → (t1 ≤ T)%nat →
  let released := advance T (run [(t0, down); (t1, up)] s) in
  let held := advance T (run [(t0, down)] s) in
  (intents released
   = intents s ++ (if decide (hit map event = [] ∧ t0 + 1000 ≤ t1)%nat
                   then [lngLat event] else [])
   ∧ form released
     = if decide (hit map event = [] ∧ t0 + 1000 ≤ t1)%nat
       then (true, Some (lngLat event)) else form s)
  ∧ (intents held
     = intents s ++ (if decide (hit map event = [] ∧ t0 + 1000 ≤ T)%nat
                     then [lngLat event] else [])
     ∧ form held
       = if decide (hit map event = [] ∧ t0 + 1000 ≤ T)%nat
         then (true, Some (lngLat event)) else form s).
Proof.
  intros Hl Hmap Hwf Hidle Hdown Hup H0 H1 H2 released held.
  assert (intents released
          = intents s ++ (if decide (hit map event = [] ∧ t0 + 1000 ≤ t1)%nat
                          then [lngLat event] else [])) as Hreleased
    by (by eapply press_released).
  assert (intents held
          = intents s ++ (if decide (hit map event = [] ∧ t0 + 1000 ≤ T)%nat
                          then [lngLat event] else [])) as Hheld
    by (eapply press_held; [done.. | lia]).
  split; (split; [done |]).
  - rewrite (form_of_intents s released _
               (form_follows_trans _ _ _ (form_follows_run _ s)
                  (form_follows_advance T _)) Hreleased).
    clear Hreleased Hheld. case_decide; reflexivity.
  - rewrite (form_of_intents s held _
               (form_follows_trans _ _ _ (form_follows_run _ s)
                  (form_follows_advance T _)) Hheld).
    clear Hreleased Hheld. case_decide; reflexivity.
Qed.

Lemma long_press_emits_intent_witness :
  let s := run [(0%nat, MoveEnd)] (loaded map_oaks) in
  let event := mkPressEvent (120, 80) (-7109, 4238) in
  listening s ∧ mapRef s = Some (addTreeLayers map_oaks) ∧ timers_wf s
  ∧ idle_pointer s ∧ is_down (TouchStart event) event ∧ is_up TouchEnd
  ∧ (now s ≤ 10)%nat ∧ (10 ≤ 1009)%nat ∧ (1009 ≤ 4000)%nat
  ∧ (intents (advance 4000 (run [(10%nat, TouchStart event); (1009%nat, TouchEnd)] s)) = []
     ∧ form (advance 4000 (run [(10%nat, TouchStart event); (1009%nat, TouchEnd)] s))
       = (false, None))
  ∧ (intents (advance 4000 (run [(10%nat, TouchStart event)] s)) = [(-7109, 4238)]
     ∧ form (advance 4000 (run [(10%nat, TouchStart event)] s))
       = (true, Some (-7109, 4238))).
Proof.
  intros s event.
  assert (timers_wf s) as Hwf.
  { split; [|split].
    - apply (bool_decide_unpack _). vm_compute. exact I.
    - apply (bool_decide_unpack _). vm_compute. exact I.
    - discriminate. }
  assert (is_down (TouchStart event) event) as Hd by (right; reflexivity).
  assert (is_up TouchEnd) as Hu by (right; left; reflexivity).
  assert (now s ≤ 10)%nat as H0 by (apply (bool_decide_unpack _); vm_compute; exact I).
  assert (10 ≤ 1009)%nat as H1 by lia.
  assert (1009 ≤ 4000)%nat as H2 by lia.
  split; [reflexivity |]. split; [reflexivity |]. split; [exact Hwf |].
  split; [reflexivity |]. split; [exact Hd |]. split; [exact Hu |].
  split; [exact H0 |]. split; [exact H1 |]. split; [exact H2 |].
  exact (long_press_emits_intent s (addTreeLayers map_oaks) event
           (TouchStart event) TouchEnd 10 1009 4000
           eq_refl eq_refl Hwf eq_refl Hd Hu H0 H1 H2).
Defined.

(** ** Passes in flight *)

Lemma getClusterFeatures_index m m' id :
  same_index m m' → getClusterFeatures m id = getClusterFeatures m' id.
Proof. intros H. unfold getClusterFeatures. by rewrite (H id). Qed.

Lemma reducer_index m m' p x :
  same_index m m' → reducer m p x = reducer m' p x.
Proof.
  intros H. destruct p as [g|e]; [|done]. destruct x as [c|]; [|done].
  unfold reducer. simpl. destruct (cluster (properties c)); [|done].
  by rewrite (getClusterFeatures_index m m').
Qed.

Lemma fold_reducer_index m m' l : ∀ p,
  same_index m m' → fold_left (reducer m) l p = fold_left (reducer m') l p.
Proof.
  induction l as [|x l IH]; intros p H; simpl; [done |].
  rewrite (reducer_index m m') by done. by apply IH.
Qed.

Lemma settle_index m m' p : same_index m m' → settle m p = settle m' p.
Proof. intros H. unfold settle. by rewrite (fold_reducer_index m m'). Qed.

Lemma settle_fresh m : settle m (mkPass (rendered m) []) = visible_trees m.
Proof. done. Qed.

Lemma resume_settle m p :
  match resume m p with
  | Resolved (inl p') => settle m p' = settle m p
  | Resolved (inr entries) => settle m p = Resolved entries
  | Rejected _ => is_resolved (settle m p) = false
  end.
Proof.
  destruct p as [todo g]. unfold resume, settle. cbn [pass_todo pass_groups].
  destruct todo as [|x rest]; [done |]. cbn [fold_left].
  destruct (reducer m (Resolved g) x) as [g'|e]; cbn; [done |].
  by rewrite fold_reducer_rejected.
Qed.

Lemma step_candidate index l s entries :
  same_index index (s_map s) →
  candidate index (step l s) entries →
  candidate index s entries
  ∨ (l = Trigger ∧ visible_trees (s_map s) = Resolved entries).
Proof.
  intros Hidx. destruct l as [|i|m']; simpl.
  - intros [-> | (i & p & Hp & Hs)]; [left; by left |].
    simpl in Hp. apply lookup_insert_Some in Hp as [[<- <-] | [_ Hp]].
    + right. split; [done |].
      by rewrite <- settle_fresh, <- (settle_index index).
    + left. right. eauto.
  - destruct (s_passes s !! i) as [p|] eqn:Hp; [|by left].
    pose proof (resume_settle (s_map s) p) as Hr.
    destruct (resume (s_map s) p) as [[p' | published] | e]; simpl.
    + rewrite <- (settle_index index _ p'), <- (settle_index index _ p) in Hr by done.
      intros [-> | (j & q & Hq & Hs)]; [left; by left |].
      simpl in Hq. apply lookup_insert_Some in Hq as [[<- <-] | [_ Hq]].
      * left. right. exists i, p. split; [done | congruence].
      * left. right. eauto.
    + rewrite <- (settle_index index _ p) in Hr by done.
      intros [-> | (j & q & Hq & Hs)].
      * left. right. eauto.
      * simpl in Hq. apply lookup_delete_Some in Hq as [_ Hq].
        left. right. eauto.
    + intros [-> | (j & q & Hq & Hs)]; [left; by left |].
      simpl in Hq. apply lookup_delete_Some in Hq as [_ Hq].
      left. right. eauto.
  - intros [-> | (j & q & Hq & Hs)]; left; [by left | right; eauto].
Qed.

Lemma s_map_step l s :
  s_map (step l s) = match l with Viewport m => m | _ => s_map s end.
Proof.
  destruct l as [|i|m]; simpl; [done | | done].
  destruct (s_passes s !! i) as [p|]; [|done].
  by destruct (resume (s_map s) p) as [[|]|].
Qed.

Lemma steps_candidate index ls : ∀ s entries,
  same_index index (s_map s) → index_kept ls index →
  candidate index (steps ls s) entries →
  candidate index s entries
  ∨ ∃ m, m ∈ triggered ls (s_map s) ∧ visible_trees m = Resolved entries.
Proof.
  induction ls as [|l ls IH]; intros s entries Hidx Hkept; [by left |].
  cbn [steps fold_left]. fold (steps ls (step l s)).
  intros Hc. apply IH in Hc.
  - destruct Hc as [Hc | (m & Hm & Hv)].
    + apply step_candidate in Hc as [Hc | [-> Hv]]; [by left | | done].
      right. exists (s_map s). split; [by left | done].
    + right. exists m. split; [|done].
      rewrite s_map_step in Hm. destruct l; cbn [triggered]; [by right | done | done].
  - rewrite s_map_step. destruct l; [done | done |]. by destruct Hkept.
  - destruct l; [done | done |]. by destruct Hkept.
Qed.

Lemma bind_Resolved {A B} (a : A) (f : A → Promise B) : (Resolved a ≫= f) = f a.
Proof. done. Qed.

Lemma bind_Rejected {A B} e (f : A → Promise B) : (Rejected e ≫= f) = Rejected e.
Proof. done. Qed.

Lemma steps_cons l ls s : steps (l :: ls) s = steps ls (step l s).
Proof. done. Qed.

Lemma steps_app ls ls' s : steps (ls ++ ls') s = steps ls' (steps ls s).
Proof. apply fold_left_app. Qed.

Lemma run_pass i : ∀ todo g s entries,
  s_passes s !! i = Some (mkPass todo g) →
  settle (s_map s) (mkPass todo g) = Resolved entries →
  steps (replicate (S (length todo)) (Resume i)) s
  = mkSidebar (s_map s) (delete i (s_passes s)) (s_next s) entries.
Proof.
  induction todo as [|x rest IH]; intros g s entries Hp Hs.
  - cbn [length replicate steps fold_left step]. rewrite Hp.
    unfold settle in Hs. cbn in Hs. injection Hs as <-. done.
  - change (replicate (S (length (x :: rest))) (Resume i))
      with (Resume i :: replicate (S (length rest)) (Resume i)).
    rewrite steps_cons.
    pose proof (resume_settle (s_map s) (mkPass (x :: rest) g)) as Hr.
    cbn [step]. rewrite Hp.
    unfold resume in *. cbn [pass_todo pass_groups] in *.
    destruct (reducer (s_map s) (Resolved g) x) as [g'|e].
    + rewrite bind_Resolved in Hr |- *. rewrite (IH g' _ entries).
      * cbn [s_map s_passes s_next]. by rewrite delete_insert_eq.
      * cbn [s_passes]. by rewrite lookup_insert_eq.
      * cbn [s_map]. congruence.
    + rewrite bind_Rejected in Hr. by rewrite Hs in Hr.
Qed.

(** C9, as the code has it.  No generation is tracked: the sidebar shows the
    result of the pass that finished last.  Whatever the schedule, if the
    index is kept, what the sidebar shows is what it showed at the start or
    the whole result of one pass, for the features rendered when that pass
    started, never a mix of two passes; and when a second pass starts and
    finishes while the first one is still waiting, the sidebar shows the
    result of the second and then the result of the first. *)
Theorem last_finished_pass_is_shown (m1 m2 : Map) (shown : Entries) :
  let s0 := mkSidebar m1 ∅ 0 shown in
  (∀ ls, index_kept ls m1 →
     s_visibleTrees (steps ls s0) = shown
     ∨ ∃ m, m ∈ triggered ls m1
            ∧ visible_trees m = Resolved (s_visibleTrees (steps ls s0)))
  ∧ (∀ r1 r2,
       same_index m1 m2 →
       visible_trees m1 = Resolved r1 → visible_trees m2 = Resolved r2 →
       s_visibleTrees
         (steps ([Trigger; Viewport m2; Trigger]
                 ++ replicate (S (length (rendered m2))) (Resume 1)) s0) = r2
       ∧ s_visibleTrees (steps (second_pass_first m1 m2) s0) = r1).
Proof.
  intros s0. split.
  - intros ls Hkept.
    destruct (steps_candidate m1 ls s0 (s_visibleTrees (steps ls s0)))
      as [[Hc | (i & p & Hp & _)] | Hm]; try done.
    + by left.
    + by left.
    + by right.
  - intros r1 r2 Hidx Hr1 Hr2.
    unfold second_pass_first. rewrite !steps_app.
    set (s1 := steps [Trigger; Viewport m2; Trigger] s0).
    assert (s1 = mkSidebar m2 (<[1%nat := mkPass (rendered m2) []]>
                                 (<[0%nat := mkPass (rendered m1) []]> ∅)) 2 shown)
      as -> by reflexivity.
    rewrite (run_pass 1 (rendered m2) [] _ r2);
      [| apply lookup_insert_eq | by rewrite settle_fresh].
    split; [done |].
    rewrite (run_pass 0 (rendered m1) [] _ r1); [done | |].
    + cbn [s_passes]. rewrite lookup_delete_ne by done.
      rewrite lookup_insert_ne by done. apply lookup_insert_eq.
    + cbn [s_map]. rewrite <- (settle_index m1 m2) by done.
      by rewrite settle_fresh.
Qed.

Lemma last_finished_pass_is_shown_witness :
  index_kept (second_pass_first map_oaks map_maples) map_oaks
  ∧ same_index map_oaks map_maples
  ∧ s_visibleTrees (steps (second_pass_first map_oaks map_maples)
                          (mkSidebar map_oaks ∅ 0 []))
    = [("Oak", [c7; c7; c7]); ("Maple", [maple4; maple5])].
Proof.
  assert (same_index map_oaks map_maples) as Hidx by (intros id; reflexivity).
  split; [|split; [exact Hidx |]].
  - cbn. split; [exact Hidx | exact I].
  - exact (proj2 (proj2 (last_finished_pass_is_shown map_oaks map_maples [])
                    _ _ Hidx eq_refl eq_refl)).
Defined.

(** C9 as the specification words it fails: the first pass starts on the
    viewport with the cluster of oaks, the second on the viewport with the
    two maples only; the second finishes first, and at the end the sidebar
    shows the result of the first. *)
Lemma stale_pass_overwrites_newer :
  let s := steps (second_pass_first map_oaks map_maples)
                 (mkSidebar map_oaks ∅ 0 []) in
  visible_trees map_maples = Resolved [("Maple", [maple4; maple5])]
  ∧ s_map s = map_maples
  ∧ s_visibleTrees s = [("Oak", [c7; c7; c7]); ("Maple", [maple4; maple5])].
Proof. repeat split; vm_compute; reflexivity. Qed.

(** * Further properties *)

(** ** The layers and the highlight filters *)

Lemma filter_of_setFilter layer flt map l :
  filter_of (setFilter layer flt map) l
  = if decide (l = layer) then Some flt else filter_of map l.
Proof. done. Qed.

Lemma addTreeLayers_filters map :
  filter_of (addTreeLayers map) "clusters" = Some (Has "point_count")
  ∧ filter_of (addTreeLayers map) "highlighted-cluster" = Some no_cluster
  ∧ filter_of (addTreeLayers map) "cluster-count" = Some (Has "point_count")
  ∧ filter_of (addTreeLayers map) "unclustered-point" = Some (Not (Has "point_count"))
  ∧ filter_of (addTreeLayers map) "highlighted-point" = Some no_point.
Proof. repeat split; reflexivity. Qed.

Lemma matches_has_point_count f :
  matches (Has "point_count") f = true ↔ is_Some (point_count (properties f)).
Proof.
  unfold matches, property. simpl.
  by rewrite bool_decide_eq_true, fmap_is_Some.
Qed.

(** X1: with the filters [addTreeLayers] creates the layers with, a feature
    is drawn as a cluster exactly when it has a [point_count] and as a point
    exactly when it has none, the count label follows the cluster, no
    feature is drawn highlighted as a cluster, and a point is drawn
    highlighted only if its name is the empty string. *)
Theorem layers_split_points_and_clusters (map : Map) (f : Feature) :
  let m := addTreeLayers map in
  (drawn_by m "clusters" f = true ↔ is_Some (point_count (properties f)))
  ∧ drawn_by m "unclustered-point" f = negb (drawn_by m "clusters" f)
  ∧ drawn_by m "cluster-count" f = drawn_by m "clusters" f
  ∧ drawn_by m "highlighted-cluster" f = false
  ∧ (drawn_by m "highlighted-point" f = true
     ↔ common_name (properties f) = Some "").
Proof.
  destruct (addTreeLayers_filters map) as (Hc & Hhc & Hn & Hu & Hhp).
  unfold drawn_by. rewrite Hc, Hhc, Hn, Hu, Hhp.
  split; [apply matches_has_point_count |].
  split; [done |]. split; [done |].
  split; [apply matches_no_cluster | apply (matches_common_name "")].
Qed.

Lemma highlight_loop_setFilter layer flt map name cs : ∀ acc,
  highlight_loop (setFilter layer flt map) name cs acc
  = highlight_loop map name cs acc.
Proof. induction cs as [|c cs IH]; intros acc; simpl; [done |].
  unfold getClusterFeatures. cbn [setFilter getClusterLeaves].
  destruct (getClusterLeaves map (cluster_id (properties c))); [done |].
  cbn. apply IH.
Qed.

(** What [highlightTree] can change of a map: the filters of the two
    overlays. *)
Lemma highlightTree_frame map treeName :
  ∃ map' settled,
    highlightTree (Some map) treeName = (Some map', settled)
    ∧ queryRenderedFeatures map' = queryRenderedFeatures map
    ∧ queryRenderedFeaturesAt map' = queryRenderedFeaturesAt map
    ∧ getClusterLeaves map' = getClusterLeaves map
    ∧ ∀ layer, layer ≠ "highlighted-point" → layer ≠ "highlighted-cluster" →
               filter_of map' layer = filter_of map layer.
Proof.
  assert (∀ f1 f2 layer,
            layer ≠ "highlighted-point" → layer ≠ "highlighted-cluster" →
            filter_of (setFilter "highlighted-cluster" f2
                         (setFilter "highlighted-point" f1 map)) layer
            = filter_of map layer) as Hother.
  { intros f1 f2 layer H1 H2. rewrite !filter_of_setFilter.
    by rewrite !decide_False by done. }
  unfold highlightTree. destruct treeName as [name|].
  - destruct (truthy (Some name)).
    + destruct (highlight_loop map name _ []) as [ids|e];
        eexists _, _; (split; [reflexivity |]); repeat split; try done.
      apply Hother.
    + eexists _, _; (split; [reflexivity |]); repeat split; try done.
      apply Hother.
  - eexists _, _; (split; [reflexivity |]); repeat split; try done.
    apply Hother.
Qed.

Lemma filter_of_overlays f1 f2 g1 g2 map layer :
  filter_of (setFilter "highlighted-cluster" f2
               (setFilter "highlighted-point" f1
                  (setFilter "highlighted-cluster" g2
                     (setFilter "highlighted-point" g1 map)))) layer
  = filter_of (setFilter "highlighted-cluster" f2
                 (setFilter "highlighted-point" f1 map)) layer.
Proof.
  rewrite !filter_of_setFilter.
  destruct (decide (layer = "highlighted-cluster")); [done |].
  by destruct (decide (layer = "highlighted-point")).
Qed.

(** X3: running [highlightTree] again with the same name on the map it
    left settles the same way and leaves every filter as it is; and
    clearing the highlight on a map whose layers were just added, after any
    highlight, gives back the filter every layer was created with. *)
Theorem highlight_repeats_and_clears (base : Map) (treeName : option string)
    (map' : Map) (settled : Promise unit) :
  highlightTree (Some (addTreeLayers base)) treeName = (Some map', settled) →
  (∃ map'', highlightTree (Some map') treeName = (Some map'', settled)
            ∧ ∀ layer, filter_of map'' layer = filter_of map' layer)
  ∧ (∃ cleared, highlightTree (Some map') None = (Some cleared, Resolved ())
                ∧ ∀ layer, filter_of cleared layer
                           = filter_of (addTreeLayers base) layer).
Proof.
  set (map := addTreeLayers base).
  assert (∀ layer,
            filter_of (setFilter "highlighted-cluster" no_cluster
                         (setFilter "highlighted-point" no_point map)) layer
            = filter_of map layer) as Hinit.
  { intros layer. rewrite !filter_of_setFilter.
    destruct (addTreeLayers_filters base) as (_ & Hhc & _ & _ & Hhp).
    destruct (decide (layer = "highlighted-cluster")) as [->|]; [done |].
    by destruct (decide (layer = "highlighted-point")) as [->|]. }
  unfold highlightTree. destruct treeName as [name|].
  - destruct (truthy (Some name)) eqn:Htruthy.
    + cbn [queryRenderedFeatures setFilter].
      destruct (highlight_loop map name _ []) as [ids|e] eqn:Hloop.
      * intros [= <- <-]. cbn [queryRenderedFeatures setFilter].
        rewrite !highlight_loop_setFilter, Hloop. split.
        -- eexists. split; [reflexivity |]. intros layer.
           apply filter_of_overlays.
        -- eexists. split; [reflexivity |]. intros layer.
           by rewrite filter_of_overlays.
      * intros [= <- <-]. rewrite Hloop. split; eexists; (split; [reflexivity |]).
        -- done.
        -- apply Hinit.
    + intros [= <- <-]. split; eexists; (split; [reflexivity |]); intros layer.
      * apply filter_of_overlays.
      * by rewrite filter_of_overlays.
  - intros [= <- <-]. split; eexists; (split; [reflexivity |]); intros layer.
    + apply filter_of_overlays.
    + by rewrite filter_of_overlays.
Qed.

Lemma highlight_repeats_and_clears_witness :
  ∃ map',
    highlightTree (Some (addTreeLayers map_oaks)) (Some "Oak")
    = (Some map', Resolved ())
    ∧ filter_of map' "highlighted-cluster" = Some (In_ "cluster_id" [JNum 7])
    ∧ ∃ cleared, highlightTree (Some map') None = (Some cleared, Resolved ())
                 ∧ filter_of cleared "highlighted-cluster" = Some no_cluster.
Proof.
  eexists. split; [vm_compute; reflexivity |]. split; [reflexivity |].
  match goal with
  | |- ∃ cleared, highlightTree (Some ?m) None = _ ∧ _ =>
      destruct (highlight_repeats_and_clears map_oaks (Some "Oak") m (Resolved ()))
        as [_ (cleared & Hc & Hf)]; [vm_compute; reflexivity |];
      exists cleared; split; [exact Hc |]; rewrite (Hf "highlighted-cluster");
      reflexivity
  end.
Defined.

(** ** Adding and removing, further *)

(** X4: when the remote API refuses a confirmed removal, the promise of
    [removeTree] rejects with the error of the API, the collection and the
    form are as before, and no notice is given: the calls made are the
    prompt and the remote delete. *)
Theorem removal_refused_by_api (prompt : option string)
    (sendRemoveLocation : Z → string → Promise unit) (locationId : Z)
    (st : Mutation) (removedBy : string) (error : Error) :
  prompt = Some removedBy → removedBy ≠ "" →
  sendRemoveLocation locationId removedBy = Rejected error →
  removeTree prompt sendRemoveLocation locationId st
  = (mkMutation (m_treeLocations st) (m_isFormVisible st)
       (m_calls st ++ [Call_prompt "Please enter your name to confirm removal:";
                       Call_sendRemoveLocation locationId removedBy]),
     Rejected error).
Proof.
  intros -> Hne Hsend. apply truthy_Some in Hne.
  unfold removeTree. rewrite Hne. simpl.
  by rewrite Hsend, <- app_assoc.
Qed.

Lemma removal_refused_by_api_witness :
  let st := mkMutation some_trees false [] in
  let send := fun (_ : Z) (_ : string) => @Rejected unit (NetworkError "offline") in
  Some "Ada" = Some "Ada" ∧ "Ada" ≠ ""
  ∧ send 4 "Ada" = Rejected (NetworkError "offline")
  ∧ removeTree (Some "Ada") send 4 st
    = (mkMutation some_trees false
         [Call_prompt "Please enter your name to confirm removal:";
          Call_sendRemoveLocation 4 "Ada"],
       Rejected (NetworkError "offline")).
Proof.
  intros st send.
  assert ("Ada" ≠ "") as Hne by discriminate.
  split; [reflexivity |]. split; [exact Hne |]. split; [reflexivity |].
  exact (removal_refused_by_api (Some "Ada") send 4 st "Ada"
           (NetworkError "offline") eq_refl Hne eq_refl).
Defined.

Lemma removeTree_accepted prompt sendRemoveLocation locationId st :
  truthy prompt = true →
  is_resolved (sendRemoveLocation locationId (default "" prompt)) = true →
  removeTree prompt sendRemoveLocation locationId st
  = (mkMutation
       (mkCollection
          (filter (fun f => location_id (properties f) ≠ Some locationId)
                  (features (m_treeLocations st)))
          (other_fields (m_treeLocations st)))
       (m_isFormVisible st)
       (m_calls st ++ [Call_prompt "Please enter your name to confirm removal:";
                       Call_sendRemoveLocation locationId (default "" prompt)]),
     Resolved ()).
Proof.
  intros Hp Hs. unfold removeTree. rewrite Hp. simpl.
  destruct (sendRemoveLocation locationId (default "" prompt)); [|done].
  by rewrite <- app_assoc.
Qed.

Section Round_trip.
Context {Tree : Type} (treeToFeature : Tree → Feature).

(** X5: a tree that was added and is then removed by the [location_id] of
    its feature leaves the collection as it was before the addition,
    provided no feature of the collection had that [location_id]. *)
Theorem add_then_remove_restores
    (sendAddLocation : NewTree → Promise Tree)
    (sendRemoveLocation : Z → string → Promise unit)
    (newTree : NewTree) (addedTree : Tree) (locationId : Z)
    (prompt : option string) (st : Mutation) :
  sendAddLocation newTree = Resolved addedTree →
  location_id (properties (treeToFeature addedTree)) = Some locationId →
  Forall (fun f => location_id (properties f) ≠ Some locationId)
         (features (m_treeLocations st)) →
  truthy prompt = true →
  is_resolved (sendRemoveLocation locationId (default "" prompt)) = true →
  m_treeLocations
    (removeTree prompt sendRemoveLocation locationId
       (handleAddTreeSubmit treeToFeature sendAddLocation newTree st)).1
  = m_treeLocations st.
Proof.
  intros Hadd Hid Hfresh Hp Hs.
  rewrite removeTree_accepted by done. cbn [fst m_treeLocations].
  unfold handleAddTreeSubmit. rewrite payload_eta, Hadd.
  cbn [m_treeLocations features other_fields].
  rewrite filter_app, filter_cons, decide_False by (intros Hne; by apply Hne).
  rewrite filter_nil, app_nil_r, filter_all by (by apply Forall_forall).
  by destruct (m_treeLocations st).
Qed.
End Round_trip.

Lemma add_then_remove_restores_witness :
  let send := fun t : NewTree => Resolved (77, new_common_name t) in
  let toFeature := fun t : Z * string => point_feature t.1 t.2 in
  let remove := fun (_ : Z) (_ : string) => Resolved () in
  let st := mkMutation some_trees true [] in
  send red_maple = Resolved (77, "Red Maple")
  ∧ location_id (properties (toFeature (77, "Red Maple"))) = Some 77
  ∧ Forall (fun f => location_id (properties f) ≠ Some 77) (features some_trees)
  ∧ truthy (Some "Ada") = true
  ∧ is_resolved (remove 77 "Ada") = true
  ∧ m_treeLocations
      (removeTree (Some "Ada") remove 77
         (handleAddTreeSubmit toFeature send red_maple st)).1 = some_trees.
Proof.
  intros send toFeature remove st.
  assert (Forall (fun f => location_id (properties f) ≠ Some 77)
                 (features some_trees)) as Hfresh.
  { apply (bool_decide_unpack _). vm_compute. exact I. }
  split; [reflexivity |]. split; [reflexivity |]. split; [exact Hfresh |].
  split; [reflexivity |]. split; [reflexivity |].
  exact (add_then_remove_restores toFeature send remove red_maple
           (77, "Red Maple") 77 (Some "Ada") st
           eq_refl eq_refl Hfresh eq_refl eq_refl).
Defined.



(** ** The aggregation, further *)

(** What a pass that resolves has built and published. *)
Lemma pass_published map entries :
  visible_trees map = Resolved entries →
  ∃ g, fold_left (reducer map) (Some <$> walk map) (Resolved []) = Resolved g
       ∧ entries = Array_sort by_length_desc (Object_entries g)
       ∧ NoDup g.*1
       ∧ ∀ key, own g key = added None (occurrences map key).
Proof.
  rewrite visible_trees_walk.
  destruct (fold_left _ _ _) as [g|e] eqn:Hg; [|done].
  intros [= <-]. exists g. split; [done |]. split; [done |]. split.
  - eapply fold_reducer_keys; [exact Hg | constructor].
  - intros key. by rewrite (fold_reducer_own _ _ _ _ key Hg).
Qed.

Lemma elem_of_occurrences map key f :
  f ∈ occurrences map key
  ↔ f ∈ walk map ∧ ∃ e, e ∈ members_or_nil map f ∧ name_of e = key.
Proof.
  unfold occurrences. rewrite list_elem_of_In, in_flat_map. split.
  - intros (c & Hc & Hf). apply list_elem_of_In in Hc, Hf.
    apply elem_of_replicate in Hf as [-> Hn]. split; [done |].
    destruct (named key (members_or_nil map c)) as [|e l] eqn:Hnamed; [done |].
    exists e. assert (e ∈ named key (members_or_nil map c)) as He
      by (rewrite Hnamed; by left).
    apply list_elem_of_filter in He as [? ?]. by split.
  - intros (Hf & e & He & Hkey). exists f. split; [by apply list_elem_of_In |].
    apply list_elem_of_In, elem_of_replicate. split; [done |].
    assert (e ∈ named key (members_or_nil map f)) as Hin
      by (by apply list_elem_of_filter).
    destruct (named key (members_or_nil map f)); [inversion Hin | done].
Qed.

(** X7: in what a pass publishes, a rendered feature is listed under a name
    exactly when it is walked and one of its entities has that name, and a
    name has an entry exactly when an entity met on the walk has it. *)
Theorem listed_iff_contains (map : Map) (entries : list (string * list Feature)) :
  visible_trees map = Resolved entries →
  (∀ key trees f,
     (key, trees) ∈ entries →
     (f ∈ trees ↔ f ∈ walk map
                  ∧ ∃ e, e ∈ members_or_nil map f ∧ name_of e = key))
  ∧ (∀ key, key ∈ entries.*1 ↔ ∃ e, e ∈ entities_met map ∧ name_of e = key).
Proof.
  intros Hv. destruct (pass_published map entries Hv) as (g & _ & -> & Hnd & Hown).
  split.
  - intros key trees f. rewrite published_perm, (own_Some_elem _ _ _ Hnd), Hown.
    rewrite added_None. destruct (occurrences map key) eqn:Hocc; [done |].
    intros [= <-]. rewrite <- Hocc. apply elem_of_occurrences.
  - intros key. rewrite published_perm.
    assert (key ∈ g.*1 ↔ is_Some (own g key)) as ->.
    { destruct (own g key) eqn:Ho.
      - split; [eauto |]. intros _. apply own_Some_elem in Ho; [|done].
        apply list_elem_of_fmap. by exists (key, l).
      - apply own_None in Ho. split; [done | by intros [? ?]]. }
    rewrite Hown, added_None. unfold entities_met. split.
    + destruct (occurrences map key) as [|f l] eqn:Hocc; [by intros [? ?] |].
      intros _. assert (f ∈ occurrences map key) as Hf by (rewrite Hocc; by left).
      apply elem_of_occurrences in Hf as (Hw & e & He & Hk).
      exists e. split; [|done]. apply list_elem_of_In, in_flat_map.
      exists f. split; by apply list_elem_of_In.
    + intros (e & He & Hk). apply list_elem_of_In, in_flat_map in He as (c & Hc & He).
      apply list_elem_of_In in Hc, He.
      assert (c ∈ occurrences map key) as Hin
        by (apply elem_of_occurrences; eauto).
      destruct (occurrences map key); [inversion Hin | eauto].
Qed.

Lemma listed_iff_contains_witness :
  visible_trees map_oaks
  = Resolved [("Oak", [c7; c7; c7]); ("Maple", [maple4; maple5])]
  ∧ (c7 ∈ [c7; c7; c7] ↔ c7 ∈ walk map_oaks
                          ∧ ∃ e, e ∈ members_or_nil map_oaks c7 ∧ name_of e = "Oak").
Proof.
  assert (visible_trees map_oaks
          = Resolved [("Oak", [c7; c7; c7]); ("Maple", [maple4; maple5])]) as Hv
    by (vm_compute; reflexivity).
  split; [exact Hv |].
  apply (proj1 (listed_iff_contains map_oaks _ Hv) "Oak"). by left.
Defined.

(** *** The numbers of the sidebar *)

Lemma total_push g key x v :
  own g key = Some v →
  sum_list_with (fun e => length e.2) (push g key x)
  = S (sum_list_with (fun e => length e.2) g).
Proof.
  induction g as [|[k w] g IH]; simpl; [done |].
  destruct (decide (k = key)); simpl.
  - intros _. rewrite length_app. simpl. lia.
  - intros Ho. rewrite IH by done. lia.
Qed.

Lemma total_record c g f g' :
  record c g f = Resolved g' →
  sum_list_with (fun e => length e.2) g'
  = S (sum_list_with (fun e => length e.2) g).
Proof.
  unfold record, get. destruct (own g _) as [v|] eqn:Ho.
  - intros [= <-]. by eapply total_push.
  - destruct (decide _); [done |]. intros [= <-].
    rewrite sum_list_with_app. simpl. lia.
Qed.

Lemma total_forEach c fs : ∀ g g',
  forEach_record c fs g = Resolved g' →
  sum_list_with (fun e => length e.2) g'
  = (sum_list_with (fun e => length e.2) g + length fs)%nat.
Proof.
  induction fs as [|f fs IH]; simpl; intros g g'.
  - intros [= <-]. lia.
  - destruct (record c g f) as [g1|] eqn:Hrec; [|done].
    rewrite bind_Resolved. intros Hrest.
    rewrite (IH _ _ Hrest), (total_record _ _ _ _ Hrec). lia.
Qed.

Lemma total_fold map cs : ∀ g g',
  fold_left (reducer map) (Some <$> cs) (Resolved g) = Resolved g' →
  sum_list_with (fun e => length e.2) g'
  = (sum_list_with (fun e => length e.2) g
     + length (flat_map (members_or_nil map) cs))%nat.
Proof.
  induction cs as [|c cs IH]; intros g g'.
  - intros [= <-]. simpl. lia.
  - rewrite fold_reducer_cons. cbn [flat_map]. unfold members_or_nil at 1.
    destruct (members map c) as [l|];
      [|by rewrite bind_Rejected, fold_reducer_rejected].
    rewrite bind_Resolved.
    destruct (forEach_record c l g) as [g1|] eqn:Hfe;
      [|by rewrite fold_reducer_rejected].
    intros Hrest. rewrite (IH _ _ Hrest), (total_forEach _ _ _ _ Hfe), length_app.
    lia.
Qed.

Lemma sum_item_count entries highlightedTree :
  sum_list_with item_count (render_list entries highlightedTree)
  = sum_list_with (fun e => length e.2) entries.
Proof.
  unfold render_list. induction entries as [|e l IH]; [done |].
  rewrite fmap_cons. cbn [sum_list_with item_count]. by rewrite IH.
Qed.

(** X8: the numbers the sidebar prints after the names add up to the number
    of entities the pass met: one for each rendered point kept by the
    deduplication and one for each leaf of each rendered cluster. *)
Theorem sidebar_counts_add_up (map : Map) (entries : list (string * list Feature))
    (highlightedTree : option string) :
  visible_trees map = Resolved entries →
  sum_list_with item_count (render_list entries highlightedTree)
  = length (entities_met map).
Proof.
  intros Hv. destruct (pass_published map entries Hv) as (g & Hg & -> & _).
  rewrite sum_item_count, published_perm.
  by rewrite (total_fold _ _ _ _ Hg).
Qed.

Lemma sidebar_counts_add_up_witness :
  visible_trees map_oaks
  = Resolved [("Oak", [c7; c7; c7]); ("Maple", [maple4; maple5])]
  ∧ sum_list_with item_count
      (render_list [("Oak", [c7; c7; c7]); ("Maple", [maple4; maple5])] None)
    = 5%nat.
Proof.
  assert (visible_trees map_oaks
          = Resolved [("Oak", [c7; c7; c7]); ("Maple", [maple4; maple5])]) as Hv
    by (vm_compute; reflexivity).
  split; [exact Hv |].
  exact (sidebar_counts_add_up map_oaks _ None Hv).
Defined.

Lemma highlighted_items (entries : list (string * list Feature)) h :
  NoDup entries.*1 →
  length (filter (fun i => item_highlighted i = true) (render_list entries h))
  = match h with
    | Some name => if decide (name ∈ entries.*1) then 1%nat else 0%nat
    | None => 0%nat
    end.
Proof.
  unfold render_list. induction entries as [|[k v] l IH]; intros Hnd.
  - destruct h as [name|]; [|done]. cbn [fmap list_fmap filter list_filter length].
    destruct (decide (name ∈ [])) as [Hin|]; [inversion Hin | done].
  - rewrite !fmap_cons in *. apply NoDup_cons in Hnd as [Hk Hnd].
    rewrite filter_cons. cbn [item_highlighted fst snd].
    destruct (decide (h = Some k)) as [->|Hne].
    + rewrite bool_decide_eq_true_2 by done. rewrite decide_True by done.
      cbn [length]. rewrite IH by done.
      rewrite decide_False by done. rewrite decide_True; [done | by left].
    + rewrite bool_decide_eq_false_2 by done.
      rewrite decide_False by done. rewrite IH by done.
      destruct h as [name|]; [|done].
      destruct (decide (name ∈ l.*1)) as [Hy|Hn].
      * rewrite decide_True; [done | by right].
      * rewrite decide_False; [done |]. intros Hin.
        apply elem_of_cons in Hin as [-> | Hin]; done.
Qed.

(** X9: among the items rendered from what a pass published, no two have
    the same name, and at most one has the highlight colour: exactly one
    when the highlighted tree is a name of the list, none when nothing is
    highlighted or the highlighted tree is no longer in view. *)
Theorem one_item_highlighted (map : Map) (entries : list (string * list Feature))
    (highlightedTree : option string) :
  visible_trees map = Resolved entries →
  NoDup (item_name <$> render_list entries highlightedTree)
  ∧ length (filter (fun i => item_highlighted i = true)
                   (render_list entries highlightedTree))
    = match highlightedTree with
      | Some name => if decide (name ∈ entries.*1) then 1%nat else 0%nat
      | None => 0%nat
      end.
Proof.
  intros Hv. destruct (pass_published map entries Hv) as (g & _ & -> & Hnd & _).
  assert (NoDup (Array_sort by_length_desc (Object_entries g)).*1) as Hnd'
    by (by rewrite published_perm).
  split; [|by apply highlighted_items].
  unfold render_list. rewrite <- list_fmap_compose. exact Hnd'.
Qed.

Lemma one_item_highlighted_witness :
  visible_trees map_oaks
  = Resolved [("Oak", [c7; c7; c7]); ("Maple", [maple4; maple5])]
  ∧ length (filter (fun i => item_highlighted i = true)
              (render_list [("Oak", [c7; c7; c7]); ("Maple", [maple4; maple5])]
                           (Some "Maple"))) = 1%nat.
Proof.
  assert (visible_trees map_oaks
          = Resolved [("Oak", [c7; c7; c7]); ("Maple", [maple4; maple5])]) as Hv
    by (vm_compute; reflexivity).
  split; [exact Hv |].
  rewrite (proj2 (one_item_highlighted map_oaks _ (Some "Maple") Hv)).
  apply decide_True. right. by left.
Defined.

(** *** Names that [Object.prototype] defines *)

Lemma record_keys_eq c g f g' :
  record c g f = Resolved g' →
  g'.*1 = if decide (name_of f ∈ g.*1) then g.*1 else g.*1 ++ [name_of f].
Proof.
  unfold record, get, name_of. set (k := to_key _).
  destruct (own g k) as [v|] eqn:Ho.
  - intros [= <-]. rewrite push_keys.
    destruct (decide (k ∈ g.*1)) as [|Hk]; [done |].
    apply own_None in Hk. congruence.
  - destruct (decide (k ∈ Object_prototype_keys)); [done |]. intros [= <-].
    apply own_None in Ho. by rewrite decide_False, fmap_app.
Qed.

Lemma record_inherited c g f :
  name_of f ∈ Object_prototype_keys →
  Forall (fun k => k ∉ Object_prototype_keys) g.*1 →
  is_resolved (record c g f) = false.
Proof.
  intros Hk Hg. unfold record, get. fold (name_of f).
  destruct (own g (name_of f)) as [v|] eqn:Ho.
  - exfalso. rewrite Forall_forall in Hg. apply (Hg (name_of f)); [|done].
    destruct (decide (name_of f ∈ g.*1)) as [|Hn]; [done |].
    apply own_None in Hn. congruence.
  - by rewrite decide_True.
Qed.

Lemma record_keeps_plain c g f g' :
  record c g f = Resolved g' →
  Forall (fun k => k ∉ Object_prototype_keys) g.*1 →
  Forall (fun k => k ∉ Object_prototype_keys) g'.*1.
Proof.
  intros Hrec Hg. rewrite (record_keys_eq _ _ _ _ Hrec).
  destruct (decide _); [done |]. apply Forall_app. split; [done |].
  constructor; [|constructor]. intros Hk.
  pose proof (record_inherited c g f Hk Hg) as Hrej. by rewrite Hrec in Hrej.
Qed.

Lemma forEach_inherited c fs : ∀ g,
  Forall (fun k => k ∉ Object_prototype_keys) g.*1 →
  match forEach_record c fs g with
  | Resolved g' => Forall (fun k => k ∉ Object_prototype_keys) g'.*1
                   ∧ Forall (fun f => name_of f ∉ Object_prototype_keys) fs
  | Rejected _ => True
  end.
Proof.
  induction fs as [|f fs IH]; simpl; intros g Hg; [by split |].
  destruct (record c g f) as [g1|] eqn:Hrec; [|done]. rewrite bind_Resolved.
  specialize (IH g1 (record_keeps_plain _ _ _ _ Hrec Hg)).
  destruct (forEach_record c fs g1); [|done]. destruct IH as [? ?].
  split; [done |]. constructor; [|done]. intros Hk.
  pose proof (record_inherited c g f Hk Hg) as Hrej. by rewrite Hrec in Hrej.
Qed.

Lemma fold_inherited map cs : ∀ g,
  Forall (fun k => k ∉ Object_prototype_keys) g.*1 →
  match fold_left (reducer map) (Some <$> cs) (Resolved g) with
  | Resolved g' =>
      Forall (fun c => Forall (fun f => name_of f ∉ Object_prototype_keys)
                              (members_or_nil map c)) cs
  | Rejected _ => True
  end.
Proof.
  induction cs as [|c cs IH]; intros g Hg; [by constructor |].
  rewrite fold_reducer_cons.
  destruct (members map c) as [l|] eqn:Hm;
    [|by rewrite bind_Rejected, fold_reducer_rejected].
  rewrite bind_Resolved. pose proof (forEach_inherited c l g Hg) as Hfe.
  destruct (forEach_record c l g) as [g1|]; [|by rewrite fold_reducer_rejected].
  destruct Hfe as [Hg1 Hl]. specialize (IH g1 Hg1).
  destruct (fold_left _ _ _); [|done].
  constructor; [|done]. unfold members_or_nil. by rewrite Hm.
Qed.

(** X10: when an entity met on the walk has a name that [Object.prototype]
    defines, such as "constructor", the pass rejects and [setVisibleTrees]
    is not called. *)
Theorem inherited_name_aborts_pass {S} (map : Map) (c f : Feature)
    (setVisibleTrees : Entries → S → S) (st : S) :
  c ∈ walk map → f ∈ members_or_nil map c →
  name_of f ∈ Object_prototype_keys →
  ∃ e, updateVisibleTrees map setVisibleTrees st = (st, Rejected e).
Proof.
  intros Hc Hf Hk. unfold updateVisibleTrees. rewrite visible_trees_walk.
  pose proof (fold_inherited map (walk map) [] ltac:(constructor)) as Hfold.
  destruct (fold_left _ _ _) as [g|e]; [|rewrite bind_Rejected; eauto].
  exfalso. rewrite Forall_forall in Hfold. specialize (Hfold c Hc).
  rewrite Forall_forall in Hfold. by apply (Hfold f Hf).
Qed.

Lemma inherited_name_aborts_pass_witness :
  let f := point_feature 8 "constructor" in
  f ∈ walk map_constructor ∧ f ∈ members_or_nil map_constructor f
  ∧ name_of f ∈ Object_prototype_keys
  ∧ ∃ e, updateVisibleTrees map_constructor (fun entries _ => Some entries) None
         = (None, Rejected e).
Proof.
  intros f.
  assert (f ∈ walk map_constructor) as Hc
    by (apply (bool_decide_unpack _); vm_compute; exact I).
  assert (f ∈ members_or_nil map_constructor f) as Hf
    by (apply (bool_decide_unpack _); vm_compute; exact I).
  assert (name_of f ∈ Object_prototype_keys) as Hk
    by (apply (bool_decide_unpack _); vm_compute; exact I).
  split; [exact Hc |]. split; [exact Hf |]. split; [exact Hk |].
  exact (inherited_name_aborts_pass map_constructor f f _ None Hc Hf Hk).
Defined.

(** *** The order of the sidebar *)

Lemma insert_sorted_class (n : nat) x (l : list (string * list Feature)) :
  filter (fun e => length e.2 = n) (insert_sorted by_length_desc x l)
  = filter (fun e => length e.2 = n) (x :: l).
Proof.
  induction l as [|y r IH]; [done |]. cbn [insert_sorted].
  case_bool_decide as Hc; [done |].
  rewrite filter_cons, IH, !(filter_cons _ x), (filter_cons _ y).
  unfold by_length_desc in Hc.
  destruct (decide (length x.2 = n)); [|done].
  destruct (decide (length y.2 = n)); [lia | done].
Qed.

Lemma Array_sort_class (n : nat) (l : list (string * list Feature)) :
  filter (fun e => length e.2 = n) (Array_sort by_length_desc l)
  = filter (fun e => length e.2 = n) l.
Proof.
  induction l as [|x l IH]; [done |]. cbn [Array_sort foldr].
  fold (Array_sort by_length_desc l).
  by rewrite insert_sorted_class, !filter_cons, IH.
Qed.

Lemma Object_entries_no_index (o : list (string * list Feature)) :
  Forall (fun k => array_index k = None) o.*1 → Object_entries o = o.
Proof.
  intros Ho. unfold Object_entries.
  assert (omap (fun kv : string * list Feature =>
                  (fun n => (n, kv)) <$> array_index kv.1) o = []) as ->.
  { induction o as [|[k v] o IH]; [done |]. rewrite fmap_cons in Ho.
    apply Forall_cons in Ho as [Hk Ho]. cbn [omap list_omap]. cbn [fst] in *.
    rewrite Hk. cbn. by apply IH. }
  cbn. apply filter_all. intros [k v] Hkv. rewrite Forall_forall in Ho.
  apply Ho. apply list_elem_of_fmap. by exists (k, v).
Qed.

Lemma keys_after_fold (ns : list string) : ∀ ks,
  fold_left keys_after ns ks
  = ks ++ filter (fun n => n ∉ ks) (Array_from_Set ns).
Proof.
  induction ns as [|n ns IH]; intros ks; [by rewrite app_nil_r |].
  cbn [fold_left Array_from_Set]. rewrite IH. unfold keys_after.
  rewrite filter_cons. destruct (decide (n ∈ ks)) as [Hin|Hnin].
  - rewrite decide_False by (intros Hn; by apply Hn). f_equal.
    symmetry. apply list_filter_filter_l. by intros x Hx ->.
  - rewrite decide_True by done. rewrite <- app_assoc. cbn [app]. do 2 f_equal.
    rewrite list_filter_filter. apply list_filter_iff.
    intros x. rewrite elem_of_app, list_elem_of_singleton. tauto.
Qed.

Lemma forEach_keys c fs : ∀ g g',
  forEach_record c fs g = Resolved g' →
  g'.*1 = fold_left keys_after (name_of <$> fs) g.*1.
Proof.
  induction fs as [|f fs IH]; simpl; intros g g'; [by intros [= <-] |].
  destruct (record c g f) as [g1|] eqn:Hrec; [|done]. rewrite bind_Resolved.
  intros Hrest. rewrite (IH _ _ Hrest). f_equal.
  exact (record_keys_eq _ _ _ _ Hrec).
Qed.

Lemma fold_keys map cs : ∀ g g',
  fold_left (reducer map) (Some <$> cs) (Resolved g) = Resolved g' →
  g'.*1 = fold_left keys_after
            (name_of <$> flat_map (members_or_nil map) cs) g.*1.
Proof.
  induction cs as [|c cs IH]; intros g g'; [by intros [= <-] |].
  rewrite fold_reducer_cons. cbn [flat_map]. unfold members_or_nil at 1.
  destruct (members map c) as [l|];
    [|by rewrite bind_Rejected, fold_reducer_rejected].
  rewrite bind_Resolved.
  destruct (forEach_record c l g) as [g1|] eqn:Hfe;
    [|by rewrite fold_reducer_rejected].
  intros Hrest. rewrite (IH _ _ Hrest), fmap_app, fold_left_app.
  by rewrite (forEach_keys _ _ _ _ Hfe).
Qed.

Lemma fmap_filter_keys (g : list (string * list Feature)) (P : string * list Feature → Prop)
    (Q : string → Prop) `{∀ e, Decision (P e)} `{∀ k, Decision (Q k)} :
  (∀ e, e ∈ g → P e ↔ Q e.1) → (filter P g).*1 = filter Q g.*1.
Proof.
  induction g as [|e g IH]; intros HPQ; [done |].
  rewrite fmap_cons, !filter_cons.
  assert ((filter P g).*1 = filter Q g.*1) as IH'
    by (apply IH; intros e' He'; apply HPQ; by right).
  destruct (decide (P e)) as [Hp|Hp].
  - rewrite decide_True by (apply HPQ; [by left | done]). by rewrite fmap_cons, IH'.
  - rewrite decide_False; [done |]. intros Hq. apply Hp, HPQ; [by left | done].
Qed.

(** X11: when no name met on the walk is an array index, the names that the
    sidebar shows with the same number come in the order in which the walk
    first met them. *)
Theorem equal_counts_keep_first_met_order (map : Map)
    (entries : list (string * list Feature)) (n : nat) :
  visible_trees map = Resolved entries →
  Forall (fun e => array_index (name_of e) = None) (entities_met map) →
  (filter (fun e => length e.2 = n) entries).*1
  = filter (fun key => length (occurrences map key) = n) (names_met map).
Proof.
  intros Hv Hidx.
  destruct (pass_published map entries Hv) as (g & Hg & -> & Hnd & Hown).
  assert (g.*1 = names_met map) as Hkeys.
  { rewrite (fold_keys _ _ _ _ Hg), keys_after_fold. cbn [fmap list_fmap app].
    apply filter_all. intros x _. apply not_elem_of_nil. }
  rewrite Object_entries_no_index, Array_sort_class.
  - rewrite <- Hkeys. apply fmap_filter_keys. intros [k v] Hkv. cbn [fst snd].
    apply own_Some_elem in Hkv; [|done]. rewrite Hown, added_None in Hkv.
    destruct (occurrences map k); [done |]. by injection Hkv as <-.
  - rewrite Hkeys. unfold names_met. apply Forall_forall. intros k Hk.
    pose proof (proj1 (Forall_forall _ _) Hidx) as Hidx'.
    assert (∀ (l : list string) x, x ∈ Array_from_Set l → x ∈ l) as Hsub.
    { induction l as [|y l IH]; intros x; [done |]. cbn [Array_from_Set].
      rewrite !elem_of_cons, list_elem_of_filter.
      intros [-> | [_ Hx]]; [by left | right; by apply IH]. }
    apply Hsub, list_elem_of_fmap in Hk as (e & -> & He). by apply Hidx'.
Qed.

Lemma equal_counts_keep_first_met_order_witness :
  visible_trees map_mixed
  = Resolved [("Birch", [point_feature 6 "Birch"]); ("Maple", [maple4]);
              ("Oak", [oak1])]
  ∧ Forall (fun e => array_index (name_of e) = None) (entities_met map_mixed)
  ∧ filter (fun key => length (occurrences map_mixed key) = 1%nat)
           (names_met map_mixed)
    = ["Birch"; "Maple"; "Oak"].
Proof.
  assert (visible_trees map_mixed
          = Resolved [("Birch", [point_feature 6 "Birch"]); ("Maple", [maple4]);
                      ("Oak", [oak1])]) as Hv by (vm_compute; reflexivity).
  assert (Forall (fun e => array_index (name_of e) = None)
                 (entities_met map_mixed)) as Hidx
    by (apply (bool_decide_unpack _); vm_compute; exact I).
  split; [exact Hv |]. split; [exact Hidx |].
  rewrite <- (equal_counts_keep_first_met_order map_mixed _ 1 Hv Hidx).
  reflexivity.
Defined.

(** ** The event loop, further *)

Lemma advance_none_due t s :
  Forall (fun tm => (t < due tm)%nat) (timers s) →
  advance t s = set_now (t `max` now s)%nat s.
Proof.
  intros Hlater. unfold advance.
  assert (fire (length (timers s)) t s = s) as ->; [|done].
  destruct (length (timers s)) as [|fuel]; [done |]. cbn [fire].
  destruct (earliest (timers s)) as [tm|] eqn:He; [|done].
  apply earliest_elem in He. rewrite Forall_forall in Hlater.
  specialize (Hlater tm He). by rewrite decide_False by lia.
Qed.


(** X12: when a second pointer goes down on empty map before the first
    press has ended, the timer of the first press can no longer be cleared:
    although both pointers are lifted before the dwell time has passed, the
    create-intent of the first press is emitted, and only that one. *)
Theorem second_press_orphans_first_timer (s : Loop) (map : Map)
    (e1 e2 : PressEvent) (t0 t0' t1 t1' T : nat) :
  listening s → mapRef s = Some map → timers s = [] →
  hit map e1 = [] → hit map e2 = [] →
  (now s ≤ t0)%nat → (t0 ≤ t0')%nat → (t0' ≤ t1)%nat → (t1 ≤ t1')%nat →
  (t1' < t0 + 1000)%nat → (t0 + 1000 ≤ T)%nat →
  intents (advance T (run [(t0, TouchStart e1); (t0', TouchStart e2);
                           (t1, TouchEnd); (t1', TouchEnd)] s))
  = intents s ++ [lngLat e1].
Proof.
  intros Hl Hmap Ht Hh1 Hh2 H0 H1 H2 H3 H4 H5.
  assert (∀ s' e, listening s' → handle (TouchStart e) s' = startPress e s') as Hdown
    by (intros s' e Hs'; apply handle_down; [done | by right]).
  assert (∀ s', listening s' → handle TouchEnd s' = endPress s') as Hup
    by (intros s' Hs'; apply handle_up; [done | right; by left]).
  unfold run, dispatch. cbn [fold_left fst snd].
  rewrite (advance_no_timers t0 s Ht).
  replace (t0 `max` now s)%nat with t0 by lia.
  rewrite (Hdown (set_now t0 s) e1) by exact Hl.
  rewrite startPress_empty by (unfold hit_test; loop_cbn; by rewrite Hmap, <- Hh1).
  loop_cbn. rewrite Ht. cbn [app].
  set (tm1 := mkTimer (nextTimer s) (t0 + 1000) (Task_handleLongPress e1)).
  set (s2 := set_longPressTimeoutRef _ _).
  rewrite (advance_none_due t0' s2)
    by (constructor; [cbn; lia | constructor]).
  set (s3 := set_now _ s2).
  rewrite (Hdown s3 e2) by exact Hl.
  rewrite startPress_empty by (unfold hit_test; cbn; by rewrite Hmap, <- Hh2).
  unfold s3 at 2 3 4. loop_cbn. replace (t0' `max` t0)%nat with t0' by lia.
  set (tm2 := mkTimer (S (nextTimer s)) (t0' + 1000) (Task_handleLongPress e2)).
  set (s4 := set_longPressTimeoutRef _ _).
  rewrite (advance_none_due t1 s4)
    by (constructor; [cbn; lia | constructor; [cbn; lia | constructor]]).
  set (s5 := set_now _ s4).
  rewrite (Hup s5) by exact Hl. unfold endPress.
  change (longPressTimeoutRef s5) with (Some (S (nextTimer s))). cbv beta iota.
  rewrite decide_False by done.
  set (s6 := set_longPressTimeoutRef None _).
  assert (timers s6 = [tm1]) as Ht6.
  { unfold s6, s5, s4, s3, s2. loop_cbn. cbn [app].
    rewrite !filter_cons, filter_nil. loop_cbn.
    change (timer_id tm1) with (nextTimer s).
    destruct (decide (nextTimer s ≠ S (nextTimer s))); [|lia].
    by destruct (decide (S (nextTimer s) ≠ S (nextTimer s))). }
  rewrite (advance_early t1' s6 tm1 Ht6) by (cbn; lia).
  set (s7 := set_now _ s6).
  rewrite (Hup s7) by exact Hl. unfold endPress.
  change (longPressTimeoutRef s7) with (@None nat). cbv beta iota.
  assert (timers s7 = [tm1]) as Ht7 by exact Ht6.
  rewrite (advance_due T s7 tm1 Ht7) by (cbn; lia). cbn zeta.
  unfold intents. loop_cbn. unfold tm1 at 1. loop_cbn.
  by rewrite omap_app.
Qed.

Lemma second_press_orphans_first_timer_witness :
  let s := loaded map_oaks in
  let e1 := mkPressEvent (120, 80) (-7109, 4238) in
  let e2 := mkPressEvent (300, 40) (-7108, 4239) in
  listening s ∧ mapRef s = Some (addTreeLayers map_oaks) ∧ timers s = []
  ∧ hit (addTreeLayers map_oaks) e1 = [] ∧ hit (addTreeLayers map_oaks) e2 = []
  ∧ intents (advance 4000 (run [(10%nat, TouchStart e1); (200%nat, TouchStart e2);
                                (400%nat, TouchEnd); (600%nat, TouchEnd)] s))
    = [(-7109, 4238)].
Proof.
  intros s e1 e2.
  split; [reflexivity |]. split; [reflexivity |]. split; [reflexivity |].
  split; [reflexivity |]. split; [reflexivity |].
  refine (second_press_orphans_first_timer s (addTreeLayers map_oaks) e1 e2
            10 200 400 600 4000 eq_refl eq_refl eq_refl eq_refl eq_refl
            _ _ _ _ _ _); cbn; lia.
Defined.

(** ** The debounced update and the sidebar click *)

Lemma updateMap_state treeName s :
  mapRef (updateMap treeName s) = (highlightTree (mapRef s) treeName).1
  ∧ highlightedTree (updateMap treeName s) = highlightedTree s.
Proof.
  unfold updateMap. loop_cbn.
  destruct (highlightTree (mapRef s) treeName) as [mapRef' [[]|e]]; loop_cbn; [|done].
  destruct mapRef' as [map'|]; [|done].
  unfold updateVisibleTrees. by destruct (visible_trees map').
Qed.

Lemma click_state treeName s :
  mapRef (click treeName s)
  = (highlightTree (mapRef s)
       (if decide (Some treeName = highlightedTree s) then None else Some treeName)).1
  ∧ now (click treeName s) = now s.
Proof. unfold click. by case_bool_decide. Qed.

Lemma highlightTree_settles_alike mapRef first treeName :
  (highlightTree (highlightTree mapRef first).1 treeName).2
  = (highlightTree mapRef treeName).2.
Proof.
  destruct mapRef as [map|]; [| done].
  assert (∀ f1 f2,
            (highlightTree (Some (setFilter "highlighted-cluster" f2
                                    (setFilter "highlighted-point" f1 map)))
                           treeName).2
            = (highlightTree (Some map) treeName).2) as Hset.
  { intros f1 f2. unfold highlightTree. destruct treeName as [name|]; [| done].
    destruct (truthy (Some name)); [| done].
    cbn [queryRenderedFeatures setFilter]. rewrite !highlight_loop_setFilter.
    by destruct (highlight_loop map name _ []). }
  unfold highlightTree at 2. destruct first as [name|]; [| apply Hset].
  destruct (truthy (Some name)); [| apply Hset].
  destruct (highlight_loop map name _ []); [apply Hset | done].
Qed.

Lemma highlightTree_no_cluster map treeName :
  queryRenderedFeatures map ["clusters"] = [] →
  ∃ map', highlightTree (Some map) treeName = (Some map', Resolved ())
          ∧ queryRenderedFeatures map' ["clusters"] = []
          ∧ filter_of map' "highlighted-point"
            = Some (if truthy treeName
                    then In_ "common_name" [JStr (default "" treeName)]
                    else no_point)
          ∧ filter_of map' "highlighted-cluster"
            = Some (if truthy treeName then In_ "cluster_id" [] else no_cluster).
Proof.
  intros Hnone. unfold highlightTree. destruct treeName as [name|].
  - destruct (truthy (Some name)).
    + rewrite Hnone. cbn [highlight_loop]. eexists. split; [reflexivity |].
      by repeat split.
    + eexists. split; [reflexivity |]. by repeat split.
  - eexists. split; [reflexivity |]. by repeat split.
Qed.

(** X13: a sidebar click that falls between a pan or zoom and the debounced
    update this one has scheduled changes the highlighted name, but the
    update still runs with the name highlighted before: [highlightTree] is
    called with the new name and then, from the update, with the old one,
    and an aggregation pass follows if that call resolves, while the
    sidebar highlights the new name.  When no cluster is rendered, so that
    neither call has an [await] and each has set its filters when it
    returns, the overlays of the map are in the end those of the old
    name. *)
Theorem pending_update_reverts_highlight (s : Loop) (ev : Event) (name : string)
    (t t' T : nat) :
  mapLoaded s = true → timers s = [] → is_viewport ev →
  (now s ≤ t)%nat → (t ≤ t')%nat → (t' < t + 300)%nat → (t + 300 ≤ T)%nat →
  let old := highlightedTree s in
  let new := if decide (Some name = old) then None else Some name in
  let final := advance T (run [(t, ev); (t', Click name)] s) in
  highlightedTree final = new
  ∧ calls final
    = calls s ++ Call_highlightTree new :: Call_highlightTree old
        :: (if is_resolved (highlightTree (mapRef s) old).2
            then [Call_updateVisibleTrees] else [])
  ∧ (∀ map, mapRef s = Some map → queryRenderedFeatures map ["clusters"] = [] →
       ∃ map', mapRef final = Some map'
               ∧ filter_of map' "highlighted-point"
                 = Some (if truthy old
                         then In_ "common_name" [JStr (default "" old)]
                         else no_point)
               ∧ filter_of map' "highlighted-cluster"
                 = Some (if truthy old then In_ "cluster_id" [] else no_cluster)).
Proof.
  intros Hl Ht Hev H0 H1 H2 H3 old new final. subst old final.
  unfold run, dispatch. cbn [fold_left fst snd].
  rewrite (advance_no_timers t s Ht).
  rewrite (handle_viewport _ ev) by done.
  set (s1 := set_now _ s).
  pose proof (debouncedUpdateMap_timers s1 Ht) as Ht1.
  unfold s1 in Ht1 at 2 3 4. loop_cbn in Ht1.
  replace (t `max` now s)%nat with t in Ht1 by lia.
  destruct (debouncedUpdateMap_frame s1) as (Hc & Hm & Hh & Hml & Hnow & Hnext & Hd).
  rewrite (advance_early t' _ _ Ht1) by (simpl; lia).
  set (s2 := set_now _ (debouncedUpdateMap s1)).
  assert (highlightedTree s2 = highlightedTree s) as Hh2
    by (unfold s2; loop_cbn; by rewrite Hh).
  assert (mapRef s2 = mapRef s) as Hm2 by (unfold s2; loop_cbn; by rewrite Hm).
  assert (calls s2 = calls s) as Hc2 by (unfold s2; loop_cbn; by rewrite Hc).
  cbn [handle].
  pose proof (timers_click name s2) as Ht3.
  unfold s2 in Ht3 at 2. cbn [timers set_now] in Ht3. rewrite Ht1 in Ht3.
  destruct (click_state name s2) as [Hm3 Hnow3].
  pose proof (highlightedTree_click name s2) as Hh3.
  pose proof (calls_click name s2) as Hc3.
  rewrite Hh2 in Hm3, Hh3, Hc3. rewrite Hm2 in Hm3. rewrite Hc2 in Hc3.
  fold new in Hm3, Hh3, Hc3.
  set (s3 := click name s2) in *.
  rewrite (advance_due T s3 _ Ht3) by (simpl; lia). cbn zeta.
  cbn [calls set_now mapRef highlightedTree timer_id due].
  unfold run_task. cbn [task timer_id].
  match goal with
  | |- context [updateMap _ ?x] => set (s4 := x)
  end.
  assert (mapRef s4 = mapRef s3 ∧ highlightedTree s4 = highlightedTree s3
          ∧ calls s4 = calls s3) as (Hm4 & Hh4 & Hc4).
  { unfold s4. destruct (decide (debounceTimer _ = _)); repeat split; reflexivity. }
  destruct (updateMap_state (highlightedTree s) s4) as [Hm5 Hh5].
  rewrite Hh5, Hm5, calls_updateMap, Hm4, Hh4, Hc4, Hm3, Hh3, Hc3.
  rewrite highlightTree_settles_alike.
  split; [done |]. split; [by rewrite <- app_assoc |].
  intros map Hmap Hnone. rewrite Hmap.
  destruct (highlightTree_no_cluster map new Hnone) as (map1 & Heq1 & Hnone1 & _).
  rewrite Heq1. cbn [fst].
  destruct (highlightTree_no_cluster map1 (highlightedTree s) Hnone1)
    as (map2 & Heq2 & _ & Hpoint & Hcluster).
  rewrite Heq2. by exists map2.
Qed.

Lemma pending_update_reverts_highlight_witness :
  let s := loaded map_mixed in
  let final := advance 4000 (run [(10%nat, MoveEnd); (200%nat, Click "Oak")] s) in
  mapLoaded s = true ∧ timers s = [] ∧ is_viewport MoveEnd
  ∧ queryRenderedFeatures (addTreeLayers map_mixed) ["clusters"] = []
  ∧ highlightedTree final = Some "Oak"
  ∧ calls final = [Call_highlightTree (Some "Oak"); Call_highlightTree None;
                   Call_updateVisibleTrees]
  ∧ ∃ map', mapRef final = Some map'
            ∧ filter_of map' "highlighted-point" = Some no_point
            ∧ filter_of map' "highlighted-cluster" = Some no_cluster.
Proof.
  intros s final.
  assert (is_viewport MoveEnd) as Hev by (left; reflexivity).
  assert (now s ≤ 10)%nat as H0 by (cbn; lia).
  assert (10 ≤ 200)%nat as H1 by lia.
  assert (200 < 10 + 300)%nat as H2 by lia.
  assert (10 + 300 ≤ 4000)%nat as H3 by lia.
  destruct (pending_update_reverts_highlight s MoveEnd "Oak" 10 200 4000
              eq_refl eq_refl Hev H0 H1 H2 H3) as (Hh & Hc & Hm).
  split; [reflexivity |]. split; [reflexivity |]. split; [exact Hev |].
  split; [reflexivity |]. split; [exact Hh |]. split; [exact Hc |].
  exact (Hm (addTreeLayers map_mixed) eq_refl eq_refl).
Defined.

(** ** The Escape key *)

(** X14: the Escape key closes the popup and the form and forgets the
    coordinates, but it does not cancel a press in progress: pressed while
    the pointer is held on empty map, it leaves the long-press timer to fire
    when the dwell time has passed, and the form opens at the coordinates of
    the press. *)
Theorem escape_keeps_pending_press (s : Loop) (map : Map) (event : PressEvent)
    (down : Event) (t0 t1 T : nat) :
  listening s → mapRef s = Some map → timers s = [] → is_down down event →
  hit map event = [] →
  (now s ≤ t0)%nat → (t0 ≤ t1)%nat → (t1 < t0 + 1000)%nat → (t0 + 1000 ≤ T)%nat →
  let escaped := handleEscapeKey "Escape" (advance t1 (run [(t0, down)] s)) in
  let final := advance T escaped in
  isFormVisible escaped = false ∧ newTreeCoordinates escaped = None
  ∧ popupOpen escaped = false
  ∧ isFormVisible final = true
  ∧ newTreeCoordinates final = Some (lngLat event)
  ∧ intents final = intents s ++ [lngLat event].
Proof.
  intros Hl Hmap Ht Hd Hh H0 H1 H2 H3 escaped final. subst escaped final.
  unfold run, dispatch. cbn [fold_left fst snd].
  rewrite (advance_no_timers t0 s Ht).
  replace (t0 `max` now s)%nat with t0 by lia.
  rewrite (handle_down (set_now t0 s) down event) by done.
  rewrite startPress_empty by (unfold hit_test; loop_cbn; by rewrite Hmap, <- Hh).
  loop_cbn. rewrite Ht. cbn [app].
  set (tm := mkTimer (nextTimer s) (t0 + 1000) (Task_handleLongPress event)).
  set (s2 := set_longPressTimeoutRef _ _).
  rewrite (advance_early t1 s2 tm) by (done || (cbn; lia)).
  unfold handleEscapeKey. rewrite decide_True by done.
  set (s3 := handleAddTreeCancel _).
  split; [done |]. split; [done |]. split; [done |].
  rewrite (advance_due T s3 tm) by (done || (cbn; lia)). cbn zeta.
  split; [done |]. split; [done |].
  unfold intents. loop_cbn. unfold tm. loop_cbn. by rewrite omap_app.
Qed.

Lemma escape_keeps_pending_press_witness :
  let s := loaded map_oaks in
  let event := mkPressEvent (120, 80) (-7109, 4238) in
  let escaped := handleEscapeKey "Escape" (advance 500 (run [(10%nat, MouseDown event)] s)) in
  listening s ∧ mapRef s = Some (addTreeLayers map_oaks) ∧ timers s = []
  ∧ is_down (MouseDown event) event ∧ hit (addTreeLayers map_oaks) event = []
  ∧ isFormVisible escaped = false
  ∧ isFormVisible (advance 4000 escaped) = true
  ∧ newTreeCoordinates (advance 4000 escaped) = Some (-7109, 4238).
Proof.
  intros s event escaped.
  assert (is_down (MouseDown event) event) as Hd by (left; reflexivity).
  assert (now s ≤ 10)%nat as H0 by (cbn; lia).
  assert (10 ≤ 500)%nat as H1 by lia.
  assert (500 < 10 + 1000)%nat as H2 by lia.
  assert (10 + 1000 ≤ 4000)%nat as H3 by lia.
  destruct (escape_keeps_pending_press s (addTreeLayers map_oaks) event
              (MouseDown event) 10 500 4000 eq_refl eq_refl eq_refl Hd eq_refl
              H0 H1 H2 H3) as (Hf & _ & _ & Hf' & Hc & _).
  repeat split; try reflexivity; assumption.
Defined.

(** ** Loading *)

(** X15: when the map and the data have loaded, in either order, the layers
    are added, and the first idle event starts one aggregation pass; the
    pointer listeners are installed and the sidebar is filled if that pass
    resolves, and if it rejects [layersLoaded] stays unset and the sidebar
    empty. *)
Theorem first_pass_gates_listeners (map : Map) (e1 e2 : Event) (t1 t2 t3 : nat) :
  (e1 = Load ∧ e2 = Fetched) ∨ (e1 = Fetched ∧ e2 = Load) →
  let s := run [(t1, e1); (t2, e2); (t3, Idle)] (starting map) in
  mapRef s = Some (addTreeLayers map)
  ∧ calls s = [Call_updateVisibleTrees]
  ∧ timers s = [] ∧ idleOnce s = false
  ∧ match visible_trees (addTreeLayers map) with
    | Resolved entries => listening s ∧ visibleTrees s = entries
    | Rejected _ => layersLoaded s = false ∧ visibleTrees s = []
    end.
Proof.
  intros Horder s.
  assert (∃ t, run [(t1, e1); (t2, e2)] (starting map)
               = mkLoop (Some (addTreeLayers map)) None None None [] None false false
                        true true false true t [] 1 []) as [t Hloaded]
    by (destruct Horder as [[-> ->] | [-> ->]]; eexists; reflexivity).
  subst s. change (run [(t1, e1); (t2, e2); (t3, Idle)] (starting map))
    with (dispatch (t3, Idle) (run [(t1, e1); (t2, e2)] (starting map))).
  rewrite Hloaded. unfold dispatch. rewrite advance_no_timers by done.
  cbn [handle fst snd]. loop_cbn. unfold on_idle, updateVisibleTrees. loop_cbn.
  destruct (visible_trees (addTreeLayers map)); by repeat split.
Qed.

Lemma first_pass_gates_listeners_witness :
  let s := run [(5%nat, Fetched); (9%nat, Load); (20%nat, Idle)] (starting map_stale) in
  let s' := run [(5%nat, Fetched); (9%nat, Load); (20%nat, Idle)] (starting map_oaks) in
  layersLoaded s = false ∧ visibleTrees s = []
  ∧ listening s' ∧ (visibleTrees s').*1 = ["Oak"; "Maple"].
Proof.
  intros s s'.
  pose proof (first_pass_gates_listeners map_stale Fetched Load 5 9 20
                (or_intror (conj eq_refl eq_refl))) as (_ & _ & _ & _ & H).
  pose proof (first_pass_gates_listeners map_oaks Fetched Load 5 9 20
                (or_intror (conj eq_refl eq_refl))) as (_ & _ & _ & _ & H').
  destruct H as [Hl Hv]. destruct H' as [Hl' Hv'].
  split; [exact Hl |]. split; [exact Hv |]. split; [exact Hl' |].
  unfold s'. rewrite Hv'. reflexivity.
Defined.

(** ** When the first pass fails *)

Lemma press_frame_refl s : press_frame s s.
Proof. by repeat split. Qed.

Lemma press_frame_trans s1 s2 s3 :
  press_frame s1 s2 → press_frame s2 s3 → press_frame s1 s3.
Proof.
  unfold press_frame. intros (? & ? & ? & ? & ?) (? & ? & ? & ? & ?).
  repeat split; congruence.
Qed.

Lemma updateMap_press_frame treeName s :
  press_frame s (updateMap treeName s)
  ∧ timers (updateMap treeName s) = timers s.
Proof.
  destruct (updateMap_frame treeName s) as [(Ht & _) Hi].
  split; [|done]. unfold press_frame. split; [|split; [|split; [|split]]];
    try exact Hi; unfold updateMap; loop_cbn;
    destruct (highlightTree (mapRef s) treeName) as [mapRef' [[]|e]]; loop_cbn;
    try done; (destruct mapRef' as [map'|]; [|done]);
    unfold updateVisibleTrees; by destruct (visible_trees map').
Qed.

Lemma run_task_press_frame tm s :
  pending_intent tm = None →
  press_frame s (run_task tm s) ∧ timers (run_task tm s) = timers s.
Proof.
  unfold pending_intent, run_task. destruct (task tm) as [event | treeName]; [done |].
  intros _.
  destruct (updateMap_press_frame treeName
              (if decide (debounceTimer s = Some (timer_id tm))
               then set_debounceTimer None s else s)) as [Hf Ht].
  rewrite Ht. split; [| by destruct (decide _)].
  eapply press_frame_trans; [| exact Hf].
  destruct (decide _); by repeat split.
Qed.

Lemma idle_pointer_elem s tm :
  idle_pointer s → tm ∈ timers s → pending_intent tm = None.
Proof.
  unfold idle_pointer. induction (timers s) as [|x l IH]; intros Ho Hin.
  - by apply elem_of_nil in Hin.
  - cbn [omap list_omap] in Ho. destruct (pending_intent x) eqn:Hx; [done |].
    apply elem_of_cons in Hin as [-> | Hin]; [done | by apply IH].
Qed.

Lemma fire_press_frame t fuel : ∀ s,
  idle_pointer s →
  press_frame s (fire fuel t s) ∧ idle_pointer (fire fuel t s).
Proof.
  induction fuel as [|fuel IH]; intros s Hidle; [split; [apply press_frame_refl | done] |].
  cbn [fire]. destruct (earliest (timers s)) as [tm|] eqn:He;
    [| split; [apply press_frame_refl | done]].
  destruct (decide (due tm ≤ t)%nat); [| split; [apply press_frame_refl | done]].
  set (s1 := set_now _ (clearTimeout (timer_id tm) s)).
  destruct (run_task_press_frame tm s1) as [Hf Ht].
  { eapply idle_pointer_elem; [exact Hidle | by apply earliest_elem]. }
  assert (idle_pointer (run_task tm s1)) as Hidle1.
  { unfold idle_pointer. rewrite Ht. unfold s1. loop_cbn. by apply idle_filter. }
  destruct (IH _ Hidle1) as [Hf' Hidle'].
  split; [| done].
  eapply press_frame_trans; [| exact Hf'].
  eapply press_frame_trans; [| exact Hf]. by repeat split.
Qed.

Lemma advance_press_frame t s :
  idle_pointer s → press_frame s (advance t s) ∧ idle_pointer (advance t s).
Proof.
  intros Hidle. unfold advance.
  destruct (fire_press_frame t (length (timers s)) s Hidle) as [Hf Hi].
  split; [| done]. eapply press_frame_trans; [exact Hf | by repeat split].
Qed.

Lemma handle_press_frame ev s :
  ev ≠ Load → ev ≠ Fetched →
  layersLoaded s = false → idleOnce s = false → idle_pointer s →
  press_frame s (handle ev s) ∧ idle_pointer (handle ev s).
Proof.
  intros HL HF Hl Ho Hidle.
  assert (mapLoaded s && dataLoaded s && layersLoaded s = false) as Hp
    by (rewrite Hl; apply andb_false_r).
  destruct ev; cbn [handle]; try done; rewrite ?Hp, ?Ho;
    try (split; [apply press_frame_refl | done]).
  - destruct (mapLoaded s); [| split; [apply press_frame_refl | done]].
    unfold debouncedUpdateMap.
    destruct (debounceTimer s) as [id|]; loop_cbn.
    + split; [by repeat split |]. unfold idle_pointer. loop_cbn.
      rewrite omap_app, idle_filter by done. done.
    + split; [by repeat split |]. unfold idle_pointer. loop_cbn.
      rewrite omap_app. unfold idle_pointer in Hidle. by rewrite Hidle.
  - destruct (mapLoaded s); [| split; [apply press_frame_refl | done]].
    unfold debouncedUpdateMap.
    destruct (debounceTimer s) as [id|]; loop_cbn.
    + split; [by repeat split |]. unfold idle_pointer. loop_cbn.
      rewrite omap_app, idle_filter by done. done.
    + split; [by repeat split |]. unfold idle_pointer. loop_cbn.
      rewrite omap_app. unfold idle_pointer in Hidle. by rewrite Hidle.
  - split.
    + unfold press_frame. split; [|split; [|split; [|split]]];
        try (unfold click; by case_bool_decide).
      unfold intents at 1. rewrite calls_click, intents_app. cbn. apply app_nil_r.
    + unfold idle_pointer. by rewrite timers_click.
Qed.

(** X16: [layersLoaded] is set by the listener of the first idle event and
    nowhere else: once that listener is spent with [layersLoaded] unset, no
    sequence of pointer, viewport, idle and click events sets it, so the
    pointer listeners are never installed, no create-intent is emitted
    however long a press lasts, and the form stays as it is. *)
Theorem failed_first_pass_blocks_presses (s : Loop) (events : list (nat * Event))
    (T : nat) :
  layersLoaded s = false → idleOnce s = false → idle_pointer s →
  Forall (fun e => e.2 ≠ Load ∧ e.2 ≠ Fetched) events →
  let s' := advance T (run events s) in
  layersLoaded s' = false ∧ ¬ listening s'
  ∧ intents s' = intents s
  ∧ isFormVisible s' = isFormVisible s
  ∧ newTreeCoordinates s' = newTreeCoordinates s.
Proof.
  intros Hl Ho Hidle Hev s'.
  assert (press_frame s (run events s) ∧ idle_pointer (run events s)) as [Hf Hi].
  { clear s'. revert s Hl Ho Hidle.
    induction Hev as [|[t ev] events [HL HF] _ IH]; intros s Hl Ho Hidle;
      [split; [apply press_frame_refl | done] |].
    change (run ((t, ev) :: events) s) with (run events (dispatch (t, ev) s)).
    unfold dispatch. cbn [fst snd] in *.
    destruct (advance_press_frame t s Hidle) as [Hf1 Hi1].
    pose proof Hf1 as (Hl1 & Ho1 & _). rewrite Hl in Hl1. rewrite Ho in Ho1.
    destruct (handle_press_frame ev _ HL HF Hl1 Ho1 Hi1) as [Hf2 Hi2].
    pose proof Hf2 as (Hl2 & Ho2 & _). rewrite Hl1 in Hl2. rewrite Ho1 in Ho2.
    destruct (IH _ Hl2 Ho2 Hi2) as [Hf3 Hi3]. split; [| done].
    eapply press_frame_trans; [exact Hf1 |].
    eapply press_frame_trans; [exact Hf2 | exact Hf3]. }
  destruct (advance_press_frame T _ Hi) as [Hf' _].
  destruct (press_frame_trans _ _ _ Hf Hf') as (Hl' & _ & Hv & Hc & Hin).
  fold s' in Hl', Hv, Hc, Hin. rewrite Hl in Hl'.
  split; [done |]. split; [| done].
  unfold listening. rewrite Hl'. by rewrite andb_false_r.
Qed.

Lemma failed_first_pass_blocks_presses_witness :
  let s := run [(5%nat, Load); (9%nat, Fetched); (20%nat, Idle)] (starting map_stale) in
  let event := mkPressEvent (120, 80) (-7109, 4238) in
  let s' := advance 4000 (run [(30%nat, MoveEnd); (400%nat, TouchStart event);
                               (450%nat, Click "Oak"); (500%nat, Idle)] s) in
  layersLoaded s = false ∧ idleOnce s = false ∧ idle_pointer s
  ∧ layersLoaded s' = false ∧ intents s' = [] ∧ isFormVisible s' = false.
Proof.
  intros s event s'.
  split; [reflexivity |]. split; [reflexivity |]. split; [reflexivity |].
  destruct (failed_first_pass_blocks_presses s
              [(30%nat, MoveEnd); (400%nat, TouchStart event);
               (450%nat, Click "Oak"); (500%nat, Idle)] 4000
              eq_refl eq_refl eq_refl) as (Hl & _ & Hi & Hv & _).
  { repeat constructor; discriminate. }
  split; [exact Hl |]. split; [exact Hi | exact Hv].
Defined.

(** ** What every step keeps *)

Lemma keeps_refl s : keeps s s.
Proof. unfold keeps. auto. Qed.

Lemma keeps_trans s1 s2 s3 : keeps s1 s2 → keeps s2 s3 → keeps s1 s3.
Proof. unfold keeps. intros (? & ? & ?) (? & ? & ?). auto. Qed.

Lemma keeps_frame s s' :
  timers s' = timers s → nextTimer s' = nextTimer s →
  mapLoaded s' = mapLoaded s → dataLoaded s' = dataLoaded s →
  layersLoaded s' = layersLoaded s → (is_Some (mapRef s) → is_Some (mapRef s')) →
  keeps s s'.
Proof.
  intros Ht Hn Hm Hd Hl Hmap. unfold keeps, timers_wf, listening.
  by rewrite Ht, Hn, Hm, Hd, Hl.
Qed.

Lemma keeps_clearTimeout id s : keeps s (clearTimeout id s).
Proof.
  split; [| done]. intros (Hnd & Hlt & Hn). unfold timers_wf. loop_cbn.
  split; [by apply NoDup_fmap_filter |].
  split; [by apply Forall_filter_keeps | done].
Qed.

Lemma keeps_setTimeout k d s : keeps s (setTimeout k d s).1.
Proof.
  split; [| done]. intros (Hnd & Hlt & Hn). unfold timers_wf. loop_cbn.
  split; [| split; [| done]].
  - rewrite fmap_app. apply NoDup_app. split; [done |]. split.
    + intros id Hid Hnew. cbn in Hnew. apply list_elem_of_singleton in Hnew as ->.
      apply list_elem_of_fmap in Hid as (tm & Heq & Hin).
      rewrite Forall_forall in Hlt. specialize (Hlt tm Hin). lia.
    + apply NoDup_singleton.
  - apply Forall_app. split.
    + eapply Forall_impl; [exact Hlt |]. intros tm Htm. simpl in *. lia.
    + constructor; [simpl; lia | constructor].
Qed.

Lemma highlightTree_is_Some mapRef treeName :
  is_Some mapRef → is_Some (highlightTree mapRef treeName).1.
Proof.
  intros [map ->].
  destruct (highlightTree_frame map treeName) as (map' & settled & -> & _). by eexists.
Qed.

Lemma keeps_run_task tm s : keeps s (run_task tm s).
Proof.
  destruct (run_task_frame tm s) as [(Ht & Hn & _ & Hm & Hd & Hl & _) _].
  apply keeps_frame; try done.
  unfold run_task. destruct (task tm) as [event | treeName]; [done |].
  destruct (updateMap_state treeName
              (if decide (debounceTimer s = Some (timer_id tm))
               then set_debounceTimer None s else s)) as [-> _].
  intros Hmap. apply highlightTree_is_Some. by destruct (decide _).
Qed.

Lemma keeps_fire t fuel : ∀ s, keeps s (fire fuel t s).
Proof.
  induction fuel as [|fuel IH]; intros s; [apply keeps_refl |].
  cbn [fire]. destruct (earliest (timers s)) as [tm|]; [| apply keeps_refl].
  destruct (decide (due tm ≤ t)%nat); [| apply keeps_refl].
  eapply keeps_trans; [| apply IH].
  eapply keeps_trans; [| apply keeps_run_task].
  eapply keeps_trans; [apply (keeps_clearTimeout (timer_id tm)) |].
  by apply keeps_frame.
Qed.

Lemma keeps_advance t s : keeps s (advance t s).
Proof.
  unfold advance. eapply keeps_trans; [apply keeps_fire |]. by apply keeps_frame.
Qed.

Lemma keeps_handle ev s : keeps s (handle ev s).
Proof.
  assert (keeps s (debouncedUpdateMap s)) as Hdebounced.
  { unfold debouncedUpdateMap.
    set (s1 := match debounceTimer s with Some id => clearTimeout id s | None => s end).
    assert (keeps s s1) as H1
      by (unfold s1; destruct (debounceTimer s); [apply keeps_clearTimeout | apply keeps_refl]).
    eapply keeps_trans; [exact H1 |].
    pose proof (keeps_setTimeout (Task_updateMap (highlightedTree s1)) 300 s1) as H2.
    destruct (setTimeout _ 300 s1) as [s2 id] eqn:Hs2.
    eapply keeps_trans; [exact H2 |]. by apply keeps_frame. }
  assert (∀ event, keeps s (startPress event s)) as Hstart.
  { intros event. unfold startPress. destruct (mapRef s) as [map|] eqn:Hmap;
      [| apply keeps_refl].
    destruct (decide _); [| apply keeps_refl].
    pose proof (keeps_setTimeout (Task_handleLongPress event) 1000
                  (set_popupOpen false s)) as H2.
    destruct (setTimeout _ 1000 _) as [s2 id] eqn:Hs2.
    eapply keeps_trans; [| eapply keeps_trans; [exact H2 |]]; by apply keeps_frame. }
  assert (keeps s (endPress s)) as Hend.
  { unfold endPress. destruct (longPressTimeoutRef s) as [id|]; [| apply keeps_refl].
    destruct (decide _); [apply keeps_refl |].
    eapply keeps_trans; [apply (keeps_clearTimeout id) |]. by apply keeps_frame. }
  assert (∀ s', mapLoaded s' = mapLoaded s ∨ mapLoaded s' = true →
                dataLoaded s' = dataLoaded s ∨ dataLoaded s' = true →
                timers s' = timers s → nextTimer s' = nextTimer s →
                layersLoaded s' = layersLoaded s → mapRef s' = mapRef s →
                keeps s (layers_effect s')) as Hlayers.
  { intros s' Hm Hd Ht Hn Hl Hmap. unfold keeps, timers_wf, listening, layers_effect.
    destruct (mapLoaded s' && dataLoaded s') eqn:Hboth; loop_cbn;
      rewrite Ht, Hn, Hl, ?Hmap; (split; [done |]); (split; [| by rewrite ?fmap_is_Some]).
    - apply andb_prop in Hboth as [-> ->]. by intros [_ ->]%andb_prop.
    - intros [[Hm' Hd']%andb_prop _]%andb_prop. rewrite Hm', Hd' in *.
      destruct Hm as [Hm | Hm], Hd as [Hd | Hd]; rewrite Hm, Hd in Hboth; done. }
  destruct ev; cbn [handle]; try done;
    try (destruct (mapLoaded s && dataLoaded s && layersLoaded s);
         [done | apply keeps_refl]).
  - apply Hlayers; auto.
  - apply Hlayers; auto.
  - destruct (idleOnce s); [| apply keeps_refl].
    unfold on_idle, updateVisibleTrees. loop_cbn.
    destruct (mapRef s) as [map|] eqn:Hmap; [| by apply keeps_frame].
    destruct (visible_trees map); loop_cbn.
    + unfold keeps, timers_wf, listening. loop_cbn. rewrite Hmap.
      split; [done |]. split; [| done]. by intros [-> _]%andb_prop.
    + by apply keeps_frame.
  - destruct (mapLoaded s); [done | apply keeps_refl].
  - destruct (mapLoaded s); [done | apply keeps_refl].
  - apply keeps_frame; try (unfold click; by case_bool_decide).
    destruct (click_state treeName s) as [-> _]. apply highlightTree_is_Some.
Qed.

Lemma keeps_run events : ∀ s, keeps s (run events s).
Proof.
  induction events as [|[t ev] events IH]; intros s; [apply keeps_refl |].
  change (run ((t, ev) :: events) s) with (run events (dispatch (t, ev) s)).
  eapply keeps_trans; [| apply IH]. unfold dispatch.
  eapply keeps_trans; [apply keeps_advance | apply keeps_handle].
Qed.

(** X17: whatever events arrive and whenever, the timers stay as
    [setTimeout] hands them out, with distinct identifiers below the next one
    and none of them [0]; the pointer listeners, once installed, stay
    installed; and the map, once there, stays there. *)
Theorem every_step_keeps (s : Loop) (events : list (nat * Event)) (T : nat) :
  timers_wf s →
  timers_wf (run events s) ∧ timers_wf (advance T (run events s))
  ∧ (listening s → listening (advance T (run events s)))
  ∧ (is_Some (mapRef s) → is_Some (mapRef (advance T (run events s)))).
Proof.
  intros Hwf. pose proof (keeps_run events s) as Hrun.
  pose proof (keeps_trans _ _ _ Hrun (keeps_advance T _)) as (H1 & H2 & H3).
  destruct Hrun as (H0 & _). auto.
Qed.

Lemma every_step_keeps_witness :
  let event := mkPressEvent (120, 80) (-7109, 4238) in
  let s' := run [(5%nat, Load); (9%nat, Fetched); (20%nat, Idle); (30%nat, MoveEnd);
                 (100%nat, TouchStart event); (200%nat, ZoomEnd)] (starting map_oaks) in
  timers_wf (starting map_oaks)
  ∧ timer_id <$> timers s' = [2; 3]%nat ∧ nextTimer s' = 4%nat ∧ timers_wf s'.
Proof.
  intros event s'.
  assert (timers_wf (starting map_oaks)) as Hwf.
  { split; [constructor |]. split; [constructor | discriminate]. }
  split; [exact Hwf |]. split; [reflexivity |]. split; [reflexivity |].
  exact (proj1 (every_step_keeps (starting map_oaks) _ 0 Hwf)).
Defined.

(** ** One press after the other *)

Lemma startPress_other s event :
  hit_test s event ≠ Some [] → startPress event s = s.
Proof.
  unfold hit_test, startPress, hit. destruct (mapRef s) as [map|]; [|done].
  cbn. intros Hne. destruct (decide _) as [Hnil|]; [|done].
  apply nil_length_inv in Hnil. by rewrite Hnil in Hne.
Qed.

Lemma endPress_frame s :
  mapRef (endPress s) = mapRef s ∧ now (endPress s) = now s.
Proof.
  unfold endPress. destruct (longPressTimeoutRef s) as [id|]; [|done].
  by destruct (decide _).
Qed.

Lemma press_session s (p : Press) :
  listening s → timers_wf s → idle_pointer s →
  is_down (p_down p) (p_event p) → is_up (p_up p) →
  (now s ≤ p_start p)%nat → (p_start p ≤ p_end p)%nat →
  let s' := run (press_events p) s in
  idle_pointer s' ∧ (∀ e, hit_test s' e = hit_test s e) ∧ now s' = p_end p
  ∧ intents s' = intents s ++ option_list (press_intent s p).
Proof.
  destruct p as [down up event t0 t1]. unfold press_intent, press_events.
  cbn [p_down p_up p_event p_start p_end].
  intros Hl Hwf Hidle Hdown Hup H0 H1.
  unfold run, dispatch. cbn [fold_left fst snd].
  destruct (advance_idle t0 s Hwf Hidle)
    as (Hwf1 & Hidle1 & Hi1 & Hl1 & Hh1 & Hn1 & _ & Hnow1).
  specialize (Hl1 Hl). specialize (Hnow1 H0).
  rewrite <- (Hh1 event).
  set (s1 := advance t0 s) in *.
  destruct (keeps_handle down s1) as (Hwf2 & _). specialize (Hwf2 Hwf1).
  rewrite (handle_down s1 down event Hl1 Hdown) in *.
  destruct (decide (hit_test s1 event = Some [])) as [Hhit | Hhit].
  - rewrite (startPress_empty s1 event Hhit) in *. rewrite Hnow1 in *.
    set (tm := mkTimer (nextTimer s1) (t0 + 1000) (Task_handleLongPress event)) in *.
    set (s2 := set_longPressTimeoutRef _ _) in *.
    destruct Hwf2 as (Hnd2 & Hlt2 & Hnz2).
    destruct (advance_spec t1 s2 Hnd2) as (Ht3 & Hi3 & Hn3 & Hr3 & Hl3 & Hh3 & Hnow3).
    { unfold s2. loop_cbn. rewrite omap_app, Hidle1. cbn. lia. }
    set (s3 := advance t1 s2) in *.
    assert (listening s3) as Hls3 by (apply Hl3; exact Hl1).
    rewrite (handle_up s3 up Hls3 Hup). unfold endPress.
    rewrite Hr3. change (longPressTimeoutRef s2) with (Some (nextTimer s1)).
    cbv beta iota.
    destruct Hwf1 as (_ & _ & Hnz1).
    rewrite (decide_False (P := nextTimer s1 = 0%nat)) by exact Hnz1.
    set (s4 := set_longPressTimeoutRef None _).
    assert (timers s4
            = filter (fun x => timer_id x ≠ nextTimer s1)
                (filter (fun x => (t1 < due x)%nat) (timers s1 ++ [tm]))) as Ht4.
    { unfold s4. loop_cbn. by rewrite Ht3. }
    split; [|split; [|split]].
    + unfold idle_pointer. rewrite Ht4, filter_app, filter_app, omap_app.
      rewrite (omap_filter_nil _ _ (filter _ (timers s1)))
        by (by apply omap_filter_nil).
      cbn [app]. rewrite !filter_cons.
      destruct (decide (t1 < due tm)%nat); [|done].
      rewrite filter_cons. by rewrite decide_False by (intros Hne; by apply Hne).
    + intros e. rewrite <- Hh1. change (hit_test s4 e) with (hit_test s3 e).
      by rewrite Hh3.
    + change (now s4) with (now s3). apply Hnow3. unfold s2. loop_cbn. lia.
    + unfold s4. unfold intents at 1. loop_cbn. fold (intents s3).
      rewrite Hi3. unfold s2 at 1. unfold intents at 1. loop_cbn. fold (intents s1).
      rewrite Hi1. f_equal.
      unfold s2. loop_cbn. rewrite not_pending_until by exact Hidle1.
      unfold tm at 1 2. cbn [due pending_intent task option_list].
      destruct (decide (t0 + 1000 ≤ t1)%nat).
      * by rewrite decide_True by done.
      * by rewrite decide_False by (intros [_ ?]; done).
  - rewrite (startPress_other s1 event Hhit) in *.
    destruct (advance_idle t1 s1 Hwf1 Hidle1)
      as (Hwf3 & Hidle3 & Hi3 & Hl3 & Hh3 & _ & _ & Hnow3).
    set (s3 := advance t1 s1) in *.
    rewrite (handle_up s3 up (Hl3 Hl1) Hup).
    destruct (endPress_idle s3 Hwf3 Hidle3) as (Hwf4 & Hidle4 & Hi4).
    destruct (endPress_frame s3) as [Hm4 Hnow4].
    split; [done |]. split; [|split].
    + intros e. unfold hit_test at 1. rewrite Hm4. fold (hit_test s3 e).
      by rewrite Hh3, Hh1.
    + rewrite Hnow4. apply Hnow3. lia.
    + rewrite Hi4, Hi3, Hi1.
      rewrite decide_False by (intros [? _]; done). by rewrite app_nil_r.
Qed.

(** X18: presses that come one after the other do not disturb each other:
    from a state in which no press is in progress, whatever viewport timers
    are pending, the create-intents emitted are those of the presses that
    started on empty map and lasted at least 1000ms, one for each, in the
    order of the presses. *)
Theorem presses_in_order_compose (s : Loop) (presses : list Press) (T : nat) :
  listening s → timers_wf s → idle_pointer s → in_order (now s) presses →
  intents (advance T (run (flat_map press_events presses) s))
  = intents s ++ omap (press_intent s) presses.
Proof.
  intros Hl Hwf Hidle Horder.
  assert (let s' := run (flat_map press_events presses) s in
          timers_wf s' ∧ idle_pointer s'
          ∧ intents s' = intents s ++ omap (press_intent s) presses)
    as (Hwf' & Hidle' & Hi').
  { revert s Hl Hwf Hidle Horder.
    induction presses as [|p presses IH]; intros s Hl Hwf Hidle Horder.
    - cbn. by rewrite app_nil_r.
    - destruct Horder as (Hdown & Hup & H0 & H1 & Horder).
      cbn [flat_map]. unfold run. rewrite fold_left_app.
      fold (run (press_events p) s).
      fold (run (flat_map press_events presses) (run (press_events p) s)).
      destruct (press_session s p Hl Hwf Hidle Hdown Hup H0 H1)
        as (Hidle1 & Hh1 & Hnow1 & Hi1).
      destruct (keeps_run (press_events p) s) as (Hwf1 & Hl1 & _).
      set (s1 := run (press_events p) s) in *.
      rewrite <- Hnow1 in Horder.
      destruct (IH s1 (Hl1 Hl) (Hwf1 Hwf) Hidle1 Horder) as (Hwf2 & Hidle2 & Hi2).
      split; [done |]. split; [done |].
      rewrite Hi2, Hi1, <- app_assoc. f_equal. cbn [omap list_omap].
      assert (omap (press_intent s1) presses = omap (press_intent s) presses) as ->;
        [| by destruct (press_intent s p)].
      clear -Hh1. induction presses as [|q presses IH]; [done |].
      cbn [omap list_omap]. rewrite IH. unfold press_intent. by rewrite Hh1. }
  destruct (advance_idle T _ Hwf' Hidle') as (_ & _ & Hi & _).
  by rewrite Hi, Hi'.
Qed.

Lemma presses_in_order_compose_witness :
  let s := loaded map_oaks in
  let e1 := mkPressEvent (120, 80) (-7109, 4238) in
  let e2 := mkPressEvent (300, 40) (-7108, 4239) in
  let e3 := mkPressEvent (10, 10) (-7107, 4240) in
  let presses := [mkPress (TouchStart e1) TouchEnd e1 10 1200;
                  mkPress (MouseDown e2) MouseUp e2 1300 1500;
                  mkPress (MouseDown e3) MouseUp e3 2000 3100] in
  listening s ∧ timers_wf s ∧ idle_pointer s ∧ in_order (now s) presses
  ∧ intents (advance 4000 (run (flat_map press_events presses) s))
    = [(-7109, 4238); (-7107, 4240)].
Proof.
  intros s e1 e2 e3 presses.
  assert (timers_wf s) as Hwf.
  { split; [constructor |]. split; [constructor | discriminate]. }
  assert (in_order (now s) presses) as Horder.
  { cbn [in_order presses p_down p_up p_event p_start p_end].
    split; [right; reflexivity |]. split; [right; left; reflexivity |].
    split; [cbn; lia |]. split; [lia |].
    split; [left; reflexivity |]. split; [left; reflexivity |].
    split; [lia |]. split; [lia |].
    split; [left; reflexivity |]. split; [left; reflexivity |].
    split; [lia |]. split; [lia | exact I]. }
  split; [reflexivity |]. split; [exact Hwf |]. split; [reflexivity |].
  split; [exact Horder |].
  exact (presses_in_order_compose s presses 4000 eq_refl Hwf eq_refl Horder).
Defined.

(** *** Names that are array indices *)

(** X19: a name that is an array index is listed before every name that is
    none and has the same number of features, wherever the walk met it:
    [Object.entries] puts the array indices first, and the sort is stable. *)
Theorem index_names_listed_first (map : Map) (entries : list (string * list Feature))
    (k k' : string) :
  visible_trees map = Resolved entries →
  is_Some (array_index k) → array_index k' = None →
  occurrences map k ≠ [] →
  length (occurrences map k') = length (occurrences map k) →
  ∃ l1 l2 l3, entries.*1 = l1 ++ k :: l2 ++ k' :: l3.
Proof.
  intros Hv [i Hi] Hk' Hne Hlen.
  destruct (pass_published map entries Hv) as (g & Hg & -> & Hnd & Hown).
  set (v := occurrences map k) in *. set (v' := occurrences map k') in *.
  assert ((k, v) ∈ g) as Hin.
  { apply own_Some_elem; [done |]. rewrite Hown, added_None. fold v.
    by destruct v. }
  assert ((k', v') ∈ g) as Hin'.
  { apply own_Some_elem; [done |]. rewrite Hown, added_None. fold v'.
    destruct v'; [| done]. destruct v; done. }
  set (C := fun e : string * list Feature => length e.2 = length v).
  assert ([(k, v); (k', v')]
          `sublist_of` Array_sort by_length_desc (Object_entries g)) as Hsub.
  { etrans; [| apply (sublist_filter C)].
    rewrite (Array_sort_class (length v)). unfold Object_entries.
    rewrite filter_app. apply (sublist_app [_] _ [_]); apply singleton_sublist_l;
      apply list_elem_of_filter; (split; [done |]).
    - apply list_elem_of_fmap. exists (i, (k, v)). split; [done |].
      rewrite Array_sort_perm. apply list_elem_of_omap. exists (k, v).
      split; [done |]. cbn [fst]. by rewrite Hi.
    - by apply list_elem_of_filter. }
  apply (fmap_sublist fst) in Hsub. cbn [fmap list_fmap fst] in Hsub.
  apply sublist_cons_l in Hsub as (l1 & r & -> & Hsub).
  apply sublist_cons_l in Hsub as (l2 & l3 & -> & _). by exists l1, l2, l3.
Qed.

Lemma index_names_listed_first_witness :
  names_met map_numbered = ["Oak"; "42"]
  ∧ visible_trees map_numbered
    = Resolved [("42", [point_feature 8 "42"]); ("Oak", [oak1])]
  ∧ is_Some (array_index "42") ∧ array_index "Oak" = None
  ∧ ∃ l1 l2 l3, ["42"; "Oak"] = l1 ++ "42" :: l2 ++ "Oak" :: l3.
Proof.
  assert (visible_trees map_numbered
          = Resolved [("42", [point_feature 8 "42"]); ("Oak", [oak1])]) as Hv
    by (vm_compute; reflexivity).
  assert (is_Some (array_index "42")) as Hi by (by eexists).
  split; [reflexivity |]. split; [exact Hv |]. split; [exact Hi |].
  split; [reflexivity |].
  refine (index_names_listed_first map_numbered _ "42" "Oak" Hv Hi eq_refl _ eq_refl).
  discriminate.
Defined.
